(** * git-to-jira-links: the aggregation and graph core of
      [correlate_files_per_issue.py]

    A shallow embedding of [process_taskline], [sum_filesizes_per_issue],
    [aggregate_files_per_issue], [count_files_per_issue],
    [correlate_files_with_each_other], [main] and [numtosxg] of
    [correlate_files_per_issue.py], of the writer [format_todo_entry] and
    the reader [get_commit_id_and_issue_from_todo_line] of
    [retrieve_commits_and_issues.py], of [process_taskline] and
    [host_from_jira_server] of [link_commits_to_issues.py] and of the
    address rewriting of [assemble_repoinfo], followed by the properties of
    these functions.

    Conventions of the embedding:
    - a Python [str] is a [string] (a sequence of byte-valued characters,
      compared character by character as Python compares code points);
    - a Python [dict] whose iteration order is observed is an
      insertion-ordered association list ([odict]); a [dict] that is only
      looked up and stored into is a [gmap]; a Python [set] is a [gset];
    - an [array.array("I")] is a [list nat] whose elements are checked
      against the range of a C [unsigned int] when they are stored;
    - a Python exception is a [Raise] in the [result] monad. *)

From Stdlib Require Import Ascii String ZArith NArith Lia.
From stdpp Require Import base option list gmap strings sorting pretty.

Open Scope string_scope.
Open Scope list_scope.
Open Scope nat_scope.

#[global] Set Warnings "-clear-no-such-hyp".

(** ** Exceptions *)

Inductive exn : Type :=
| KeyError
| ValueError
| IndexError
| OverflowError.

Inductive result (A : Type) : Type :=
| Ok (a : A)
| Raise (e : exn).

Arguments Ok {A} a.
Arguments Raise {A} e.

#[global] Instance result_ret : MRet result := λ A, Ok.

#[global] Instance result_bind : MBind result :=
  λ A B f m, match m with Ok a => f a | Raise e => Raise e end.

(** A [for x in l: body] loop threading the state [s]. *)
Fixpoint for_each {A S : Type} (body : S → A → result S) (l : list A) (s : S)
  : result S :=
  match l with
  | [] => Ok s
  | x :: l' => s' ← body s x; for_each body l' s'
  end.

(** ** Insertion-ordered dictionaries *)

Module OD.
Section odict.
Context {K V : Type} `{EqDecision K}.

Fixpoint get (d : list (K * V)) (k : K) : option V :=
  match d with
  | [] => None
  | (k', v) :: d' => if decide (k = k') then Some v else get d' k
  end.

(** [d[k] = v]: an existing key keeps its position, a new key goes last. *)
Fixpoint set (d : list (K * V)) (k : K) (v : V) : list (K * V) :=
  match d with
  | [] => [(k, v)]
  | (k', v') :: d' =>
      if decide (k = k') then (k, v) :: d' else (k', v') :: set d' k v
  end.

Definition keys (d : list (K * V)) : list K := d.*1.
Definition values (d : list (K * V)) : list V := d.*2.

(** [d[k]] as an expression. *)
Definition getitem (d : list (K * V)) (k : K) : result V :=
  match get d k with
  | Some v => Ok v
  | None => Raise KeyError
  end.
End odict.
End OD.

Abbreviation odict K V := (list (K * V)).

(** [m[k]] on a dictionary whose order is never observed. *)
Definition gm_getitem `{Countable K} {V : Type} (m : gmap K V) (k : K) : result V :=
  match m !! k with
  | Some v => Ok v
  | None => Raise KeyError
  end.

(** ** [sorted]

    Python's [sorted] is a stable sort that compares with [<] only.  For a
    comparison that is a strict weak order the stable sorted arrangement is
    unique, so the stable insertion sort below returns what [sorted]
    returns. *)

Fixpoint insort {A : Type} (lt : A → A → bool) (x : A) (l : list A) : list A :=
  match l with
  | [] => [x]
  | y :: l' => if lt y x then y :: insort lt x l' else x :: y :: l'
  end.

Definition sorted {A : Type} (lt : A → A → bool) (l : list A) : list A :=
  foldr (insort lt) [] l.

(** [sorted(l, key=key)]: every key is computed first, in order (a raising
    key function aborts the sort), then the elements are arranged by key. *)
Definition sorted_key {A B : Type} (lt : B → B → bool) (key : A → result B)
    (l : list A) : result (list A) :=
  ks ← mapM key l;
  Ok ((sorted (λ a b, lt a.1 b.1) (zip ks l)).*2).

(** ** [array.array("I")] *)

Definition UINT_MAX : N := 4294967295%N.

Definition fits_uint (x : nat) : bool := (N.of_nat x <=? UINT_MAX)%N.

(** [a.append(x)] *)
Definition array_append (a : list nat) (x : nat) : result (list nat) :=
  if fits_uint x then Ok (a ++ [x]) else Raise OverflowError.

(** [a[i] += 1] *)
Definition array_incr (a : list nat) (i : nat) : result (list nat) :=
  match a !! i with
  | None => Raise IndexError
  | Some x => if fits_uint (S x) then Ok (<[i := S x]> a) else Raise OverflowError
  end.

(** [a < b] on arrays: the first differing element decides, a proper
    prefix is smaller. *)
Fixpoint array_lt (a b : list nat) : bool :=
  match a, b with
  | _, [] => false
  | [], _ :: _ => true
  | x :: a', y :: b' =>
      if x <? y then true else if y <? x then false else array_lt a' b'
  end.

(** [s < t] on the [(int, array)] tuples of [dict.items()]. *)
Definition item_lt (s t : nat * list nat) : bool :=
  if s.1 =? t.1 then array_lt s.2 t.2 else s.1 <? t.1.

(** ** [correlate_files_with_each_other] *)

Record graph_state : Type := GraphState {
  known_files_to_index : gmap string nat;
  known_files : list string;
  edges : odict nat (list nat);
  weights : odict nat (list nat)
}.

Definition initial_state : graph_state :=
  GraphState ∅ [] [] [].

(** [if f not in known_files_to_index: ...] (lines 190-192 and 205-207). *)
Definition register (f : string) (st : graph_state) : graph_state :=
  match known_files_to_index st !! f with
  | Some _ => st
  | None =>
      GraphState (<[f := length (known_files st)]> (known_files_to_index st))
                 (known_files st ++ [f]) (edges st) (weights st)
  end.

(** The per-issue skip threshold of line 184. *)
Definition threshold : nat := 300.

(** Body of [for g in files] (lines 204-214).  The loop state is the graph
    state and the [edgecounter]; [edgeindex] is not updated by the loop. *)
Definition inner_step (fidx : nat) (edgeindex : gmap nat nat)
    (acc : graph_state * gmap nat nat) (g : string)
  : result (graph_state * gmap nat nat) :=
  let st := register g acc.1 in
  let edgecounter := acc.2 in
  gidx ← gm_getitem (known_files_to_index st) g;
  st' ← match edgecounter !! gidx with
        | None =>
            e ← OD.getitem (edges st) fidx;
            e' ← array_append e gidx;
            w ← OD.getitem (weights st) fidx;
            w' ← array_append w 1;
            Ok (GraphState (known_files_to_index st) (known_files st)
                           (OD.set (edges st) fidx e')
                           (OD.set (weights st) fidx w'))
        | Some _ =>
            w ← OD.getitem (weights st) fidx;
            i ← gm_getitem edgeindex gidx;
            w' ← array_incr w i;
            Ok (GraphState (known_files_to_index st) (known_files st)
                           (edges st) (OD.set (weights st) fidx w'))
        end;
  Ok (st', <[gidx := S (default 0 (edgecounter !! gidx))]> edgecounter).

(** [for target, weight in zip(...): edgecounter[target] = weight] *)
Definition make_edgecounter (e w : list nat) : gmap nat nat :=
  foldl (λ m tw, <[tw.1 := tw.2]> m) ∅ (zip e w).

(** [for i, target in enumerate(...): edgeindex[target] = i] *)
Definition make_edgeindex (e : list nat) : gmap nat nat :=
  foldl (λ m it, <[it.2 := it.1]> m) ∅ (zip (seq 0 (length e)) e).

(** Body of [for f in files] (lines 189-214). *)
Definition outer_step (files : list string) (st0 : graph_state) (f : string)
  : result graph_state :=
  let st1 := register f st0 in
  fidx ← gm_getitem (known_files_to_index st1) f;
  let st2 :=
    match OD.get (edges st1) fidx with
    | Some _ => st1
    | None => GraphState (known_files_to_index st1) (known_files st1)
                         (OD.set (edges st1) fidx [])
                         (OD.set (weights st1) fidx [])
    end in
  e ← OD.getitem (edges st2) fidx;
  w ← OD.getitem (weights st2) fidx;
  r ← for_each (inner_step fidx (make_edgeindex e)) files
               (st2, make_edgecounter e w);
  Ok r.1.

(** Body of [for i, files in enumerate(aggregated.values())] (lines
    183-214); the [logging.debug] calls have no effect on the result. *)
Definition issue_step (st : graph_state) (files : list string)
  : result graph_state :=
  if threshold <? length files then Ok st
  else for_each (outer_step files) files st.

(** Lines 177-214: the accumulation loop. *)
Definition accumulate (values : list (list string)) : result graph_state :=
  for_each issue_step values initial_state.

(** Body of [for k in edges] (lines 216-219).  The key function of the
    second [sorted] looks its argument up in [edges] as it is after the
    assignment of line 218. *)
Definition finalize_step (ew : odict nat (list nat) * odict nat (list nat))
    (k : nat) : result (odict nat (list nat) * odict nat (list nat)) :=
  v ← OD.getitem ew.1 k;
  w ← OD.getitem ew.2 k;
  let edges' := OD.set ew.1 k (sorted Nat.ltb v) in
  w' ← sorted_key array_lt (λ x, OD.getitem edges' x) w;
  Ok (edges', OD.set ew.2 k w').

(** Lines 215-220. *)
Definition finalize (st : graph_state)
  : result (list string * odict nat (list nat) * odict nat (list nat)) :=
  ew ← for_each finalize_step (OD.keys (edges st)) (edges st, weights st);
  Ok (known_files st, sorted item_lt ew.1, sorted item_lt ew.2).

Definition correlate_files_with_each_other
    (aggregated : odict string (list string))
  : result (list string * odict nat (list nat) * odict nat (list nat)) :=
  st ← accumulate (OD.values aggregated);
  finalize st.

(** ** String operations of [process_taskline] *)

(** [s.split(c)] for a one-character separator, as the first field and the
    remaining fields. *)
Fixpoint split_fields (c : ascii) (s : string) : string * list string :=
  match s with
  | "" => ("", [])
  | String a s' =>
      let r := split_fields c s' in
      if Ascii.eqb a c then ("", r.1 :: r.2) else (String a r.1, r.2)
  end.

Definition split (c : ascii) (s : string) : list string :=
  let r := split_fields c s in r.1 :: r.2.

(** [s.split(c, n)]: at most [n] cuts, the last field keeps the rest. *)
Fixpoint split_fields_max (c : ascii) (n : nat) (s : string)
  : string * list string :=
  match n, s with
  | 0, _ => (s, [])
  | _, "" => ("", [])
  | S n', String a s' =>
      if Ascii.eqb a c
      then let r := split_fields_max c n' s' in ("", r.1 :: r.2)
      else let r := split_fields_max c n s' in (String a r.1, r.2)
  end.

Definition split_max (c : ascii) (n : nat) (s : string) : list string :=
  let r := split_fields_max c n s in r.1 :: r.2.

Fixpoint string_drop (n : nat) (s : string) : string :=
  match n, s with
  | 0, _ => s
  | S n', String _ s' => string_drop n' s'
  | S _, "" => ""
  end.

(** The two fields of [s.split(sep, 1)] when [sep] occurs in [s]; [None]
    when it does not (the split then has the single field [s]). *)
Fixpoint split_once (sep : string) (s : string) : option (string * string) :=
  if String.prefix sep s then Some ("", string_drop (String.length sep) s)
  else match s with
       | "" => None
       | String a s' =>
           match split_once sep s' with
           | Some (x, y) => Some (String a x, y)
           | None => None
           end
       end.

(** ** [process_taskline] *)

(** A change record: [(issue_id, isodate, files, sizes)]. *)
Definition ChangeRecord : Type := string * string * list string * list Z.

Definition rec_issue (r : ChangeRecord) : string := r.1.1.1.
Definition rec_date (r : ChangeRecord) : string := r.1.1.2.
Definition rec_files (r : ChangeRecord) : list string := r.1.2.
Definition rec_sizes (r : ChangeRecord) : list Z := r.2.

(** A record handed to [logging.warn]; the message carries the taskline. *)
Inductive log_record : Type :=
| Warning (taskline : string).

(** [f.split(",")[-1]] and [",".join(f.split(",")[:-1])] *)
Definition entry_size_text (f : string) : string := List.last (split "," f) "".

Definition entry_name (f : string) : string :=
  String.concat "," (removelast (split "," f)).

Section taskline.
(** The builtin [int] on a [str]: [None] stands for its [ValueError]. *)
Variable py_int : string → option Z.

(** Lines 76-82.  The list comprehension of line 78 stops at the first
    [ValueError]; the handler then replaces every size. *)
Definition parse_manifest (taskline files_string : string)
  : list string * list Z * list log_record :=
  let files := tail (split ":" files_string) in
  let sizes_log :=
    match mapM (λ f, py_int (entry_size_text f)) files with
    | Some sizes => (sizes, [])
    | None => ((λ _, 0%Z) <$> files, [Warning taskline])
    end in
  (entry_name <$> files, sizes_log.1, sizes_log.2).

(** Lines 71-88.  The two unpacking assignments raise [ValueError] when
    the split has too few fields.  [shorttitle] (lines 83-87) is computed
    from [title] without raising and is not part of the returned value. *)
Definition process_taskline (taskline : string)
  : result (ChangeRecord * list log_record) :=
  match split_max " " 3 taskline with
  | [commit_id; issue_id; isodate; rest] =>
      match split_once ": " rest with
      | Some (files_string, title) =>
          if decide (files_string = ":")
          then Ok ((issue_id, isodate, [], []), [])
          else
            let m := parse_manifest taskline files_string in
            Ok ((issue_id, isodate, m.1.1, m.1.2), m.2)
      | None => Raise ValueError
      end
  | _ => Raise ValueError
  end.
End taskline.

(** A reading of decimal digit strings with an optional sign, on which it
    agrees with [int]; used to run the examples. *)
Fixpoint digits_value (acc : Z) (s : string) : option Z :=
  match s with
  | "" => Some acc
  | String a s' =>
      let n := nat_of_ascii a in
      if (48 <=? n) && (n <=? 57)
      then digits_value (10 * acc + Z.of_nat (n - 48)) s'
      else None
  end.

Definition int_decimal (s : string) : option Z :=
  match s with
  | "" => None
  | String "-" ((String _ _) as d) => Z.opp <$> digits_value 0 d
  | String "+" ((String _ _) as d) => digits_value 0 d
  | String "-" "" | String "+" "" => None
  | _ => digits_value 0 s
  end.

(** ** [sum_filesizes_per_issue] and [aggregate_files_per_issue] *)

(** Lines 104-105 and 133-134. *)
Definition update_latest (issuedatelatest : gmap string string)
    (issue date : string) : gmap string string :=
  match issuedatelatest !! issue with
  | None => <[issue := date]> issuedatelatest
  | Some d => if String.ltb d date then <[issue := date]> issuedatelatest
              else issuedatelatest
  end.

(** [if issue not in mapped: mapped[issue] = v0] *)
Definition setdefault {V : Type} (mapped : odict string V) (issue : string)
    (v0 : V) : odict string V :=
  match OD.get mapped issue with
  | Some _ => mapped
  | None => OD.set mapped issue v0
  end.

(** Lines 111-114 and 144-147. *)
Definition add_dates {V : Type} (issuedatelatest : gmap string string)
    (mapped : odict string V) : result (odict string V) :=
  for_each (λ withdate kv,
              date ← gm_getitem issuedatelatest kv.1;
              Ok (OD.set withdate (date +:+ ":" +:+ kv.1) kv.2))
           mapped [].

(** [s < t] on [(str, int)] tuples. *)
Definition total_lt (s t : string * Z) : bool :=
  if decide (s.1 = t.1) then (s.2 <? t.2)%Z else String.ltb s.1 t.1.

(** Body of the loop of lines 99-109. *)
Definition sum_step (acc : gmap string string * odict string Z)
    (i : ChangeRecord) : result (gmap string string * odict string Z) :=
  let issue := rec_issue i in
  let issuedatelatest := update_latest acc.1 issue (rec_date i) in
  mapped ← for_each (λ mapped s,
                       v ← OD.getitem mapped issue;
                       Ok (OD.set mapped issue (v + s)%Z))
                    (rec_sizes i) (setdefault acc.2 issue 0%Z);
  Ok (issuedatelatest, mapped).

Definition sum_filesizes_per_issue (changes : list ChangeRecord)
  : result (list (string * Z)) :=
  acc ← for_each sum_step changes (∅, []);
  withdate ← add_dates acc.1 acc.2;
  Ok (sorted total_lt withdate).

(** Body of the loop of lines 128-138. *)
Definition aggregate_step (acc : gmap string string * odict string (gset string))
    (i : ChangeRecord)
  : result (gmap string string * odict string (gset string)) :=
  let issue := rec_issue i in
  let issuedatelatest := update_latest acc.1 issue (rec_date i) in
  mapped ← for_each (λ mapped f,
                       v ← OD.getitem mapped issue;
                       Ok (OD.set mapped issue ({[f]} ∪ v)))
                    (rec_files i) (setdefault acc.2 issue ∅);
  Ok (issuedatelatest, mapped).

(** Lines 139-142: every value becomes the sorted tuple of its elements.
    [list(value)] enumerates the set in an unspecified order; sorting
    distinct strings removes the dependence on that order. *)
Definition freeze (mapped : odict string (gset string))
  : odict string (list string) :=
  (λ kv, (kv.1, sorted String.ltb (elements kv.2))) <$> mapped.

Definition aggregate_files_per_issue (changes : list ChangeRecord)
  : result (odict string (list string)) :=
  acc ← for_each aggregate_step changes (∅, []);
  add_dates acc.1 (freeze acc.2).

(** Line 161. *)
Definition count_files_per_issue (aggregated : odict string (list string))
  : list (string * nat) :=
  (λ kv, (kv.1, length kv.2)) <$> aggregated.

Definition scenario_A: odict string (list string) :=
  [("TEST-1111", ["A"; "B"; "C"]); ("TEST-1112", ["A"; "D"])].

Definition scenario_C : list ChangeRecord :=
  [("FOO-1111", "2018-03-12", ["A"; "B"], [1; 15]%Z);
   ("FOO-1111", "2018-03-10", ["A"; "C"], [2; 5]%Z);
   ("FOO-1112", "2018-03-11", ["A"; "D"], [2; 8]%Z)].

(** ** Vocabulary of the specification *)

(** The file sets of the issues that graph construction retains. *)
Definition retained_issues (aggregated : odict string (list string))
  : list (list string) :=
  filter (λ files, length files ≤ threshold) (OD.values aggregated).

(** The number of retained issues whose file set contains both [f] and [g]
    (for [f = g]: the number of retained issues containing [f]). *)
Definition cooccurrence (aggregated : odict string (list string))
    (f g : string) : nat :=
  length (filter (λ files, f ∈ files ∧ g ∈ files) (retained_issues aggregated)).

(** The weight a finished graph records for the edge from node [i] to node
    [j]: the entry of [i]'s weight sequence at the position of [j] in [i]'s
    neighbour sequence. *)
Definition edge_weight (E W : odict nat (list nat)) (i j : nat) : option nat :=
  nbrs ← OD.get E i;
  ws ← OD.get W i;
  kx ← list_find (λ x, x = j) nbrs;
  ws !! kx.1.

(** The governing invariant of the finished graph: every node's neighbours
    ascend strictly, its weights are as many, and the weight at each
    position is the co-occurrence count of the node with the neighbour at
    that position. *)
Definition adjacency_aligned (aggregated : odict string (list string))
    (known : list string) (E W : odict nat (list nat)) : Prop :=
  ∀ i nbrs, (i, nbrs) ∈ E →
    ∃ ws f, OD.get W i = Some ws ∧ known !! i = Some f ∧
      StronglySorted lt nbrs ∧ length ws = length nbrs ∧
      ∀ k j w, nbrs !! k = Some j → ws !! k = Some w →
        ∃ g, known !! j = Some g ∧ w = cooccurrence aggregated f g.

(** The same without the ordering of the neighbours: they are distinct. *)
Definition weights_aligned (aggregated : odict string (list string))
    (known : list string) (E W : odict nat (list nat)) : Prop :=
  ∀ i nbrs, (i, nbrs) ∈ E →
    ∃ ws f, OD.get W i = Some ws ∧ known !! i = Some f ∧
      NoDup nbrs ∧ length ws = length nbrs ∧
      ∀ k j w, nbrs !! k = Some j → ws !! k = Some w →
        ∃ g, known !! j = Some g ∧ w = cooccurrence aggregated f g.

(** The distinct members of a sequence in the order of their first
    occurrence, continuing an already known prefix. *)
Definition first_seen_from (known l : list string) : list string :=
  foldl (λ k f, if decide (f ∈ k) then k else k ++ [f]) known l.

Definition first_seen (l : list string) : list string := first_seen_from [] l.

Fixpoint contains_char (c : ascii) (s : string) : bool :=
  match s with
  | "" => false
  | String a s' => Ascii.eqb a c || contains_char c s'
  end.

(** The records of one issue, in input order. *)
Definition records_of (changes : list ChangeRecord) (issue : string)
  : list ChangeRecord :=
  filter (λ r, rec_issue r = issue) changes.

(** [d] is the greatest date among the records of [issue]. *)
Definition is_latest_date (changes : list ChangeRecord) (issue d : string)
  : Prop :=
  (∃ r, r ∈ changes ∧ rec_issue r = issue ∧ rec_date r = d) ∧
  ∀ r, r ∈ changes → rec_issue r = issue → String.le (rec_date r) d.

(** The sum of every size of every record of [issue]. *)
Definition size_total (changes : list ChangeRecord) (issue : string) : Z :=
  foldr Z.add 0%Z (concat (rec_sizes <$> records_of changes issue)).

(** A line without a file manifest: three fields without spaces, then a
    title that does not begin with [":"]. *)
Definition no_manifest_line (taskline : string) : Prop :=
  ∃ commit_id issue_id isodate title,
    taskline = commit_id +:+ " " +:+ issue_id +:+ " " +:+ isodate +:+ " "
                 +:+ title ∧
    contains_char " " commit_id = false ∧
    contains_char " " issue_id = false ∧
    contains_char " " isodate = false ∧
    String.prefix ":" title = false.

(** The doctest line of the title-only parser of
    [link_commits_to_issues.py]. *)
Definition title_only_line : string :=
  "12345 TEST-123 2018-08-12 TEST-123 foo" +:+ String (ascii_of_nat 10) "".

(** The line of the doctest of [process_taskline]. *)
Definition doctest_line : string :=
  "454545648916166 FOO-12345 2018-03-12 :A,2:B,8:C,999: FOO-12345  foo------svn path=/foo/trunk/; revision=123---"
  +:+ String (ascii_of_nat 10) "".

(** A line whose only file name contains a colon. *)
Definition stray_colon_line : string :=
  "1 FOO-1 2018-03-12 :a:b,5: FOO-1 title".

(** Two issues whose dates and ids concatenate to the same composite key;
    the first date is not an ISO date. *)
Definition colliding_records : list ChangeRecord :=
  [("X", "a:b", ["f"], [1]%Z); ("b:X", "a", ["g"], [2]%Z)].

(** Two orderly issues in which the shared file is not the first one of the
    later issue. *)
Definition out_of_order_input : odict string (list string) :=
  [("2018-03-10:FOO-1", ["B"; "C"]); ("2018-03-11:FOO-2", ["A"; "B"])].

Definition single_file_input : odict string (list string) :=
  [("2018-03-10:FOO-1", ["A"])].

(** An input of Scenario A followed by an issue that touches 301 files. *)
Definition with_large_issue : odict string (list string) :=
  scenario_A ++ [("TEST-1113", (λ n, String (ascii_of_nat n) "X") <$> seq 0 301)].

(** ** [format_todo_entry] ([retrieve_commits_and_issues.py])

    The writer of the lines that [process_taskline] reads.  It works on
    [bytes]; the lines are read back as [str], which for ASCII text has the
    same characters. *)

(** [s.replace(c, t)] for a one-character [c]. *)
Fixpoint replace_char (c : ascii) (t : string) (s : string) : string :=
  match s with
  | "" => ""
  | String a s' =>
      if Ascii.eqb a c then t +:+ replace_char c t s'
      else String a (replace_char c t s')
  end.

Definition newline : string := String (ascii_of_nat 10) "".

(** [str(i)] of an [int]: its decimal digits, after ["-"] when negative. *)
Definition py_str (i : Z) : string := pretty i.

(** Lines 206-221; [None] stands for an argument left at its default. *)
Definition format_todo_entry (commit_id issue isodate message : string)
    (files : option (list string)) (sizes : option (list Z)) : string :=
  let title := replace_char (ascii_of_nat 10) "---" message in
  match files with
  | Some files =>
      match sizes with
      | Some sizes =>
          let filesandsizes := zip files (py_str <$> sizes) in
          String.concat " "
            [commit_id; issue; isodate;
             ":" +:+ String.concat ":"
                       ((λ i, String.concat "," [i.1; i.2]) <$> filesandsizes)
                 +:+ ":";
             title]
      | None =>
          String.concat " "
            [commit_id; issue; isodate;
             ":" +:+ String.concat ":" files +:+ ":"; title]
      end
  | None => String.concat " " [commit_id; issue; isodate; title]
  end.

(** ** [numtosxg]

    The argument is an [int]; for a value of another type the function
    returns ["0"] (line 291), which is not modelled. *)

Definition CHARACTERS : string :=
  "0123456789ABCDEFGHJKLMNPQRSTUVWXYZ_abcdefghijkmnopqrstuvwxyz".

(** [s[i]] for an index that is not negative. *)
Definition str_index (s : string) (i : nat) : result ascii :=
  match String.get i s with
  | Some a => Ok a
  | None => Raise IndexError
  end.

(** The loop of lines 293-295, run for at most [fuel] passes: [None] when
    the loop would go on. *)
Fixpoint numtosxg_loop (fuel : nat) (n : Z) (s : string)
  : option (result string) :=
  if (0 <? n)%Z then
    match fuel with
    | 0 => None
    | S fuel' =>
        match str_index CHARACTERS (Z.to_nat (n `mod` 60)) with
        | Ok a => numtosxg_loop fuel' (n `div` 60) (String a s)
        | Raise e => Some (Raise e)
        end
    end
  else Some (Ok s).

(** Lines 286-296.  Every pass divides [n] by 60, so one pass more than
    [n] has binary digits is enough. *)
Definition numtosxg (n : Z) : option (result string) :=
  if (n =? 0)%Z then Some (Ok "0")
  else numtosxg_loop (S (Z.to_nat (Z.log2 n))) n "".

(** The position of the first occurrence of [a] in [s] ([length s] when
    there is none), and the number a string denotes in base 60 when its
    characters are read as the digits of [CHARACTERS]. *)
Fixpoint char_index (a : ascii) (s : string) : nat :=
  match s with
  | "" => 0
  | String b s' => if Ascii.eqb a b then 0 else S (char_index a s')
  end.

Fixpoint sxg_value (acc : Z) (s : string) : Z :=
  match s with
  | "" => acc
  | String a s' =>
      sxg_value (60 * acc + Z.of_nat (char_index a CHARACTERS)) s'
  end.

(** ** [main]

    The files that [main] reads are arguments of the model: the lines of
    every todo file (as the iteration over the file yields them), the
    lines of the exclude file ([None] when it does not exist), and the
    lines of the include file ([None] when the option is not given,
    [Some None] when the file does not exist).  What [main] prints is a
    list of lines, each with the stream it goes to. *)

(** [str.isspace] on the characters below 256. *)
Definition is_space (a : ascii) : bool :=
  let n := nat_of_ascii a in
  ((9 <=? n) && (n <=? 13)) || ((28 <=? n) && (n <=? 32))
  || (n =? 133) || (n =? 160).

Fixpoint lstrip (s : string) : string :=
  match s with
  | "" => ""
  | String a s' => if is_space a then lstrip s' else s
  end.

Fixpoint rstrip (s : string) : string :=
  match s with
  | "" => ""
  | String a s' =>
      match rstrip s' with
      | "" => if is_space a then "" else String a ""
      | r => String a r
      end
  end.

(** [s.strip()] *)
Definition strip (s : string) : string := rstrip (lstrip s).

(** [sys.stdout] and the two files (or [sys.stdout]) of lines 264-265. *)
Inductive stream : Type :=
| Stdout
| Nodeout
| Edgeout.

(** The records handed to [logging] by [main] and by the functions it
    calls, debug records apart. *)
Inductive main_log : Type :=
| ExcludeFileNotFound
| IncludeFileNotFound
| TasklineWarning (r : log_record)
| NoCommandGiven.

Record main_args : Type := MainArgs {
  args_count_files_per_issue : bool;
  args_sum_filesizes_per_issue : bool;
  args_file_connections : bool
}.

(** [s < t] on the [(str, int)] tuples of [count_files_per_issue]. *)
Definition count_lt (s t : string * nat) : bool :=
  if decide (s.1 = t.1) then s.2 <? t.2 else String.ltb s.1 t.1.

(** Lines 274-276. *)
Definition print_edges (edges weights : odict nat (list nat))
  : list (stream * string) :=
  concat (zip_with
            (λ e w, (λ tw, (Edgeout,
                            py_str (Z.of_nat w.1) +:+ " " +:+
                            py_str (Z.of_nat tw.1) +:+ " " +:+
                            py_str (Z.of_nat tw.2)))
                      <$> zip e.2 w.2)
            edges weights).

(** Lines 268-269. *)
Definition print_nodes (all_files : list string) : list (stream * string) :=
  imap (λ i f, (Nodeout, py_str (Z.of_nat i) +:+ " " +:+ f)) all_files.

Section main.
Variable py_int : string → option Z.

(** Lines 223-280.  An exception leaves [main] before the first line is
    printed; the records logged before it are not modelled. *)
Definition main (todofiles : list (list string))
    (exclude_file : option (list string))
    (include_issues_file : option (option (list string)))
    (args : main_args)
  : result (list main_log * list (stream * string)) :=
  let excluded : gset string :=
    match exclude_file with Some lines => list_to_set lines | None => ∅ end in
  let log1 :=
    match exclude_file with Some _ => [] | None => [ExcludeFileNotFound] end in
  let include_issues : gset string :=
    match include_issues_file with
    | Some (Some lines) => list_to_set (strip <$> lines)
    | _ => ∅
    end in
  let log2 :=
    match include_issues_file with
    | Some None => [IncludeFileNotFound]
    | _ => []
    end in
  parsed ← mapM (process_taskline py_int)
                (filter (λ i, i ∉ excluded) (concat todofiles));
  let log3 := TasklineWarning <$> concat parsed.*2 in
  let changes :=
    match include_issues_file with
    | Some _ => filter (λ i, rec_issue i ∈ include_issues) parsed.*1
    | None => parsed.*1
    end in
  let log := log1 ++ log2 ++ log3 in
  if args_count_files_per_issue args then
    aggregated ← aggregate_files_per_issue changes;
    let count := sorted count_lt (count_files_per_issue aggregated) in
    Ok (log, (λ i, (Stdout, i.1 +:+ " " +:+ py_str (Z.of_nat i.2))) <$> count)
  else if args_sum_filesizes_per_issue args then
    count ← sum_filesizes_per_issue changes;
    let count := sorted total_lt count in
    Ok (log, (λ i, (Stdout, i.1 +:+ " " +:+ py_str i.2)) <$> count)
  else if args_file_connections args then
    aggregated ← aggregate_files_per_issue changes;
    graph ← correlate_files_with_each_other aggregated;
    Ok (log,
        [(Nodeout, "Id Label")] ++ print_nodes graph.1.1 ++
        [(Stdout, "------"); (Edgeout, "Source Target Weight")] ++
        print_edges graph.1.2 graph.2)
  else Ok (log ++ [NoCommandGiven], []).
End main.

(** ** The other readers and writers of the todo lines

    [process_taskline] and [host_from_jira_server] of
    [link_commits_to_issues.py], [get_commit_id_and_issue_from_todo_line]
    of [retrieve_commits_and_issues.py] and the address rewriting of
    [assemble_repoinfo] ([retrieve_repository_info.py]). *)

(** [s.split(sep)] for a separator of one or more characters: the text is
    scanned from the left, and after a match the scan goes on behind it.
    [skip] counts the characters of a match that are still to be passed. *)
Fixpoint split_str_fields (sep : string) (skip : nat) (s : string)
  : string * list string :=
  match s with
  | "" => ("", [])
  | String a s' =>
      match skip with
      | S k => split_str_fields sep k s'
      | 0 =>
          if String.prefix sep s
          then let r := split_str_fields sep (String.length sep - 1) s' in
               ("", r.1 :: r.2)
          else let r := split_str_fields sep 0 s' in (String a r.1, r.2)
      end
  end.

Definition split_str (sep : string) (s : string) : list string :=
  let r := split_str_fields sep 0 s in r.1 :: r.2.

(** [l[i]] *)
Definition list_index {A : Type} (l : list A) (i : nat) : result A :=
  match l !! i with
  | Some x => Ok x
  | None => Raise IndexError
  end.

Module LinkCommits.
(** Lines 107-111 of [link_commits_to_issues.py]. *)
Definition shorttitle (title : string) : string :=
  let first := hd "" (split_str "---" title) in
  if String.length first <? 20
  then String.concat " - "
         (take 2 (filter (λ i, strip i ≠ "") (split_str "---" title)))
  else first.

(** Lines 101-115 of [link_commits_to_issues.py]:
    [(issue_id, url, title)]. *)
Definition process_taskline (taskline commit_uri_prefix : string)
  : result (string * string * string) :=
  match split_max " " 3 taskline with
  | [commit_id; issue_id; isodate; title] =>
      Ok (issue_id, commit_uri_prefix +:+ commit_id,
          String.concat " " [isodate; strip (shorttitle title)])
  | _ => Raise ValueError
  end.
End LinkCommits.

(** [prefix.split("://")[1].split("/")[0]] *)
Definition host_from_jira_server (prefix : string) : result string :=
  rest ← list_index (split_str "://" prefix) 1;
  list_index (split "/" rest) 0.

(** The whitespace of [bytes.split()]. *)
Definition is_bytes_space (a : ascii) : bool :=
  let n := nat_of_ascii a in ((9 <=? n) && (n <=? 13)) || (n =? 32).

(** [line.split()]: the words between runs of whitespace, as the word in
    progress and the words after it. *)
Fixpoint split_words_fields (s : string) : string * list string :=
  match s with
  | "" => ("", [])
  | String a s' =>
      let r := split_words_fields s' in
      if is_bytes_space a
      then ("", match r.1 with "" => r.2 | _ => r.1 :: r.2 end)
      else (String a r.1, r.2)
  end.

Definition split_words (s : string) : list string :=
  let r := split_words_fields s in
  match r.1 with "" => r.2 | _ => r.1 :: r.2 end.

(** Lines 224-228 of [retrieve_commits_and_issues.py]. *)
Definition get_commit_id_and_issue_from_todo_line (line : string)
  : option (string * string) :=
  match drop 1 (split_words line) with
  | [] => None
  | _ => match take 2 (split_words line) with
         | [commit_id; issue] => Some (commit_id, issue)
         | _ => None
         end
  end.

(** [b.decode("utf-8")]: the decoder accepts the byte strings that are
    well-formed UTF-8.  After a byte below 128 a character is complete; a
    lead byte fixes how many continuation bytes follow and the range of
    each ([utf8_lead]: encodings longer than needed, the surrogates D800 to
    DFFF and the values above 10FFFF are refused); [need] holds the ranges
    of the continuation bytes that are still to come. *)
Definition utf8_lead (n : nat) : option (list (nat * nat)) :=
  if n <? 128 then Some []
  else if (194 <=? n) && (n <=? 223) then Some [(128, 191)]
  else if n =? 224 then Some [(160, 191); (128, 191)]
  else if (225 <=? n) && (n <=? 236) then Some [(128, 191); (128, 191)]
  else if n =? 237 then Some [(128, 159); (128, 191)]
  else if (238 <=? n) && (n <=? 239) then Some [(128, 191); (128, 191)]
  else if n =? 240 then Some [(144, 191); (128, 191); (128, 191)]
  else if (241 <=? n) && (n <=? 243)
       then Some [(128, 191); (128, 191); (128, 191)]
  else if n =? 244 then Some [(128, 143); (128, 191); (128, 191)]
  else None.

Fixpoint utf8_valid_from (need : list (nat * nat)) (s : string) : bool :=
  match s with
  | "" => match need with [] => true | _ => false end
  | String a s' =>
      let n := nat_of_ascii a in
      match need with
      | r :: need' =>
          (r.1 <=? n) && (n <=? r.2) && utf8_valid_from need' s'
      | [] =>
          match utf8_lead n with
          | Some need' => utf8_valid_from need' s'
          | None => false
          end
      end
  end.

Definition utf8_valid (s : string) : bool := utf8_valid_from [] s.

(** Lines 41-46 of [retrieve_repository_info.py], as a function of the
    address that the configuration of the repository holds for the remote
    [origin].  [b.index(sub)] raises [ValueError] when [sub] does not
    occur; [b[b.index(sub) + len(sub):]] is what follows its first
    occurrence.  The [str] that [decode] returns is given by its UTF-8
    encoding; the [UnicodeDecodeError] that [decode] raises on other
    bytes is a [ValueError]. *)
Definition assemble_repoinfo (url : string) : result string :=
  match split_once "//" url with
  | None => Raise ValueError
  | Some (_, rest) =>
      let rest := match split_once "@" rest with
                  | Some (_, r) => r
                  | None => rest
                  end in
      let commit_uri_prefix := "https://" +:+ rest +:+ "/commit/" in
      if utf8_valid commit_uri_prefix then Ok commit_uri_prefix
      else Raise ValueError
  end.

(** ** Shapes and inputs used by the properties *)

(** Two todo files and an exclude file naming the first line of the
    first. *)
Definition example_todofiles : list (list string) :=
  [["c1 FOO-1 2018-03-10 no manifest" +:+ newline;
    "c2 FOO-2 2018-03-11 :A,3:B,4: two" +:+ newline];
   ["c3 FOO-1 2018-03-12 :A,5: three" +:+ newline]].

Definition example_exclude_file : option (list string) :=
  Some ["c1 FOO-1 2018-03-10 no manifest" +:+ newline].

(** Whether every character of a string satisfies [p]. *)
Fixpoint string_forallb (p : ascii → bool) (s : string) : bool :=
  match s with
  | "" => true
  | String a s' => p a && string_forallb p s'
  end.

(** A word: a string that is not empty and has no whitespace. *)
Definition is_word (s : string) : bool :=
  negb (String.eqb s "") && string_forallb (λ a, negb (is_bytes_space a)) s.

(** The manifest that lists the files [names] with the size texts
    [texts], [":name,size:name,size"] without its closing colon, and the
    line that carries it. *)
Definition manifest_of (names texts : list string) : string :=
  ":" +:+ String.concat ":" (zip_with (λ f t, f +:+ "," +:+ t) names texts).

Definition manifest_line (commit_id issue_id isodate : string)
    (names texts : list string) (title : string) : string :=
  commit_id +:+ " " +:+ issue_id +:+ " " +:+ isodate +:+ " " +:+
  manifest_of names texts +:+ ": " +:+ title.

(** The recovery as the specification words it: whenever a size component
    of the manifest of a line fails to parse, the record holds the files
    that the line lists, a size 0 for each of them, and one diagnostic is
    logged. *)
Definition recovers_listed_files (py_int : string → option Z) : Prop :=
  ∀ commit_id issue_id isodate names texts title,
    contains_char " " commit_id = false →
    contains_char " " issue_id = false →
    contains_char " " isodate = false →
    length texts = length names →
    Forall (λ t, contains_char "," t = false ∧ contains_char ":" t = false)
           texts →
    Exists (λ e, py_int (entry_size_text e) = None)
           (tail (split ":" (manifest_of names texts))) →
    process_taskline py_int
      (manifest_line commit_id issue_id isodate names texts title) =
    Ok ((issue_id, isodate, names, replicate (length names) 0%Z),
        [Warning (manifest_line commit_id issue_id isodate names texts title)]).

(** The shape of a line that [process_taskline] can cut: three fields
    without a space, each followed by one space, then a text around an
    occurrence of [": "]. *)
Definition taskline_shape (taskline commit_id issue_id isodate before after
    : string) : Prop :=
  taskline = commit_id +:+ " " +:+ issue_id +:+ " " +:+ isodate +:+ " "
               +:+ before +:+ ": " +:+ after ∧
  contains_char " " commit_id = false ∧
  contains_char " " issue_id = false ∧
  contains_char " " isodate = false.

(** ** Loop invariants

    The predicates below describe the states the loops pass through; the
    properties are proved from them. *)

(** The shape shared by the loops of lines 99-109 and 128-138: the date
    bookkeeping, then one update of [mapped[issue]] per item of the
    record. *)
Definition collect_step {V X : Type} (op : V → X → V) (v0 : V)
    (items : ChangeRecord → list X)
    (acc : gmap string string * odict string V) (i : ChangeRecord)
  : result (gmap string string * odict string V) :=
  let issue := rec_issue i in
  let issuedatelatest := update_latest acc.1 issue (rec_date i) in
  mapped ← for_each (λ mapped x,
                       v ← OD.getitem mapped issue;
                       Ok (OD.set mapped issue (op v x)))
                    (items i) (setdefault acc.2 issue v0);
  Ok (issuedatelatest, mapped).

(** What the loop has stored for an issue: the items of its records folded
    into the initial value in input order. *)
Definition collected {V X : Type} (op : V → X → V) (v0 : V)
    (items : ChangeRecord → list X) (changes : list ChangeRecord)
    (issue : string) : V :=
  foldl op v0 (concat (items <$> records_of changes issue)).

(** The state of the loop after the records [changes]. *)
Definition collect_inv {V X : Type} (op : V → X → V) (v0 : V)
    (items : ChangeRecord → list X) (changes : list ChangeRecord)
    (acc : gmap string string * odict string V) : Prop :=
  NoDup (OD.keys acc.2) ∧
  (∀ issue, OD.get acc.2 issue =
            match records_of changes issue with
            | [] => None
            | _ => Some (collected op v0 items changes issue)
            end) ∧
  (∀ issue, match acc.1 !! issue with
            | None => records_of changes issue = []
            | Some d => is_latest_date changes issue d
            end).

(** The date recorded for an issue. *)
Definition date_of (idl : gmap string string) (k : string) : string :=
  default "" (idl !! k).

(** The dictionary and the list of known files describe the same
    numbering. *)
Definition index_ok (st : graph_state) : Prop :=
  ∀ f i, known_files_to_index st !! f = Some i ↔ known_files st !! i = Some f.

(** The later state numbers every file the earlier state numbers, and
    alike. *)
Definition index_le (st st' : graph_state) : Prop :=
  ∀ f i, known_files_to_index st !! f = Some i →
         known_files_to_index st' !! f = Some i.

(** The state of the loop [for g in files], entered in state [st2] for
    node [fidx], after the files [done]: the index has grown by the new
    files among them, the dictionaries have the keys they had, and every
    neighbour is an old one or the id of a visited file, recorded for node
    [fidx]. *)
Definition inner_inv (fidx : nat) (st2 : graph_state) (done : list string)
    (acc : graph_state * gmap nat nat) : Prop :=
  index_ok acc.1 ∧
  known_files acc.1 = first_seen_from (known_files st2) done ∧
  index_le st2 acc.1 ∧
  OD.keys (edges acc.1) = OD.keys (edges st2) ∧
  OD.keys (weights acc.1) = OD.keys (weights st2) ∧
  (∀ i nbrs j, (i, nbrs) ∈ edges acc.1 → j ∈ nbrs →
     (∃ nbrs0, (i, nbrs0) ∈ edges st2 ∧ j ∈ nbrs0) ∨
     (i = fidx ∧ ∃ g, g ∈ done ∧ known_files_to_index acc.1 !! g = Some j)).

(** Every recorded neighbour pair comes from two files of one of the
    file tuples [P]. *)
Definition edges_from (P : list (list string)) (st : graph_state) : Prop :=
  ∀ i nbrs j, (i, nbrs) ∈ edges st → j ∈ nbrs →
    ∃ files f g, files ∈ P ∧ f ∈ files ∧ g ∈ files ∧
      known_files_to_index st !! f = Some i ∧
      known_files_to_index st !! g = Some j.

(** The state between two passes of [for f in files]: the index is
    consistent, both dictionaries have the same distinct keys, every key is
    the id of a known file, and the neighbours come from the tuples [P]. *)
Definition state_ok (P : list (list string)) (st : graph_state) : Prop :=
  index_ok st ∧
  OD.keys (edges st) = OD.keys (weights st) ∧
  NoDup (OD.keys (edges st)) ∧
  (∀ i, i ∈ OD.keys (edges st) → i < length (known_files st)) ∧
  edges_from P st.

(** Every known file has an adjacency entry. *)
Definition complete (st : graph_state) : Prop :=
  ∀ i, i < length (known_files st) → i ∈ OD.keys (edges st).

(** The weight stored for neighbour [j] in a pair of parallel sequences. *)
Fixpoint entry_weight (e w : list nat) (j : nat) : nat :=
  match e, w with
  | j' :: e', x :: w' => if decide (j = j') then x else entry_weight e' w' j
  | _, _ => 0
  end.

(** A pair of parallel sequences as the loop keeps it: equally long, no
    neighbour twice, no weight 0. *)
Definition entry_ok (e w : list nat) : Prop :=
  length e = length w ∧ NoDup e ∧ Forall (λ x, 0 < x) w.

(** The number of members of [l] that the index of [st] numbers [j]. *)
Definition hits (st : graph_state) (l : list string) (j : nat) : nat :=
  length (filter (λ g, known_files_to_index st !! g = Some j) l).

(** The entry of node [fidx], which was [(e0, w0)] in state [st2], during
    the loop [for g in files]: every visited file has added 1 to the weight
    of its id, and the other entries are as they were. *)
Definition weights_inv (fidx : nat) (e0 w0 : list nat) (st2 : graph_state)
    (done : list string) (acc : graph_state * gmap nat nat) : Prop :=
  (∀ g, g ∈ done → is_Some (known_files_to_index acc.1 !! g)) ∧
  (∀ i, i ≠ fidx → OD.get (edges acc.1) i = OD.get (edges st2) i ∧
                   OD.get (weights acc.1) i = OD.get (weights st2) i) ∧
  ∃ e w, OD.get (edges acc.1) fidx = Some e ∧
         OD.get (weights acc.1) fidx = Some w ∧
         entry_ok e w ∧ e0 `prefix_of` e ∧
         (∀ j, is_Some (acc.2 !! j) ↔ j ∈ e) ∧
         (∀ j, entry_weight e w j = entry_weight e0 w0 j + hits acc.1 done j).

(** The weight the accumulated state holds for the edge from [i] to [j]
    (0 when there is none). *)
Definition node_weight (st : graph_state) (i j : nat) : nat :=
  match OD.get (edges st) i, OD.get (weights st) i with
  | Some e, Some w => entry_weight e w j
  | _, _ => 0
  end.

(** Every entry of the accumulated state is a well-formed pair. *)
Definition entries_ok (st : graph_state) : Prop :=
  ∀ i e w, OD.get (edges st) i = Some e → OD.get (weights st) i = Some w →
           entry_ok e w.

(** * Properties *)

(** ** Loops, dictionaries and [sorted] *)

Lemma bind_Ok {A B : Type} (m : result A) (k : A → result B) (b : B) :
  m ≫= k = Ok b ↔ ∃ a, m = Ok a ∧ k a = Ok b.
Proof.
  destruct m as [a|e]; cbn; split.
  - eauto.
  - intros (a' & [= <-] & Hk). exact Hk.
  - discriminate.
  - intros (a' & [=] & _).
Qed.

Lemma for_each_snoc {A S : Type} (body : S → A → result S) (l : list A)
    (x : A) (s : S) :
  for_each body (l ++ [x]) s = for_each body l s ≫= λ s', body s' x.
Proof.
  revert s. induction l as [|y l IH]; intros s; cbn.
  - destruct (body s x); reflexivity.
  - destruct (body s y) as [s'|e]; cbn; [apply IH|reflexivity].
Qed.

(** Loop invariant rule: [P done s] relates the elements already visited
    to the state. *)
Lemma for_each_invariant {A S : Type} (P : list A → S → Prop)
    (body : S → A → result S) (l : list A) (s s' : S) :
  P [] s →
  (∀ done x s1 s2, P done s1 → x ∈ l → body s1 x = Ok s2 → P (done ++ [x]) s2) →
  for_each body l s = Ok s' → P l s'.
Proof.
  intros H0 Hstep. revert s'.
  induction l as [|x l IH] using rev_ind; intros s' Hrun.
  - injection Hrun as <-. exact H0.
  - rewrite for_each_snoc in Hrun. apply bind_Ok in Hrun as (s1 & Hl & Hx).
    eapply Hstep; [|set_solver|exact Hx].
    apply IH; [|exact Hl]. intros. eapply Hstep; eauto. set_solver.
Qed.

Module ODFacts.
Section facts.
Context {K V : Type} `{EqDecision K}.
Implicit Types (d : list (K * V)) (k : K) (v : V).

Lemma get_set_eq d k v : OD.get (OD.set d k v) k = Some v.
Proof.
  induction d as [|[k' v'] d IH]; cbn.
  - rewrite decide_True; done.
  - destruct (decide (k = k')) as [->|Hne]; cbn.
    + rewrite decide_True; done.
    + rewrite decide_False; done.
Qed.

Lemma get_set_ne d k k' v : k ≠ k' → OD.get (OD.set d k v) k' = OD.get d k'.
Proof.
  intros Hne. induction d as [|[k0 v0] d IH]; cbn.
  - rewrite decide_False; done.
  - destruct (decide (k = k0)) as [->|Hk]; cbn.
    + rewrite !decide_False; done.
    + destruct (decide (k' = k0)); done.
Qed.

Lemma get_None d k : OD.get d k = None ↔ k ∉ OD.keys d.
Proof.
  unfold OD.keys. induction d as [|[k' v'] d IH]; cbn.
  - split; [set_solver|done].
  - destruct (decide (k = k')) as [->|Hne].
    + split; [done|set_solver].
    + rewrite IH. set_solver.
Qed.

Lemma get_Some_elem d k v : OD.get d k = Some v → (k, v) ∈ d.
Proof.
  induction d as [|[k' v'] d IH]; cbn; [done|].
  destruct (decide (k = k')) as [->|Hne].
  - intros [= ->]. left.
  - intros Hg. right. auto.
Qed.

Lemma elem_get_Some d k v : NoDup (OD.keys d) → (k, v) ∈ d → OD.get d k = Some v.
Proof.
  unfold OD.keys. induction d as [|[k' v'] d IH]; cbn; [set_solver|].
  rewrite NoDup_cons. intros [Hk' Hnd] Hin.
  apply elem_of_cons in Hin as [[= -> ->]|Hin].
  - rewrite decide_True; done.
  - rewrite decide_False; [auto|].
    intros ->. apply Hk'. apply list_elem_of_fmap. exists (k', v). done.
Qed.

Lemma set_fresh d k v : k ∉ OD.keys d → OD.set d k v = d ++ [(k, v)].
Proof.
  unfold OD.keys. induction d as [|[k' v'] d IH]; cbn; [done|].
  intros Hk. rewrite decide_False by set_solver. f_equal. apply IH. set_solver.
Qed.

Lemma keys_set_present d k v : k ∈ OD.keys d → OD.keys (OD.set d k v) = OD.keys d.
Proof.
  unfold OD.keys. induction d as [|[k' v'] d IH]; cbn; [set_solver|].
  intros Hk. destruct (decide (k = k')) as [->|Hne]; cbn; [done|].
  f_equal. apply IH. set_solver.
Qed.

Lemma keys_set d k v :
  OD.keys (OD.set d k v) =
  if decide (k ∈ OD.keys d) then OD.keys d else OD.keys d ++ [k].
Proof.
  case_decide as Hk.
  - by apply keys_set_present.
  - rewrite set_fresh by done. unfold OD.keys. by rewrite fmap_app.
Qed.

Lemma set_set d k v w : OD.set (OD.set d k v) k w = OD.set d k w.
Proof.
  induction d as [|[k' v'] d IH]; cbn.
  - rewrite decide_True; done.
  - destruct (decide (k = k')) as [->|Hne]; cbn.
    + rewrite decide_True; done.
    + rewrite decide_False by done. by rewrite IH.
Qed.

Lemma set_get_id d k v : OD.get d k = Some v → OD.set d k v = d.
Proof.
  induction d as [|[k' v'] d IH]; cbn; [done|].
  destruct (decide (k = k')) as [->|Hne].
  - by intros [= ->].
  - intros Hg. by rewrite IH.
Qed.

Lemma NoDup_keys_set d k v : NoDup (OD.keys d) → NoDup (OD.keys (OD.set d k v)).
Proof.
  intros Hnd. rewrite keys_set. case_decide; [done|].
  apply NoDup_app. split; [done|]. split; [set_solver|]. apply NoDup_singleton.
Qed.

(** The entries of a dictionary after an assignment. *)
Lemma elem_of_set d k v k' v' :
  NoDup (OD.keys d) →
  (k', v') ∈ OD.set d k v ↔ (k' = k ∧ v' = v) ∨ (k' ≠ k ∧ (k', v') ∈ d).
Proof.
  intros Hnd. split.
  - intros Hin. apply elem_get_Some in Hin; [|by apply NoDup_keys_set].
    destruct (decide (k' = k)) as [->|Hne].
    + rewrite get_set_eq in Hin. left. by injection Hin as <-.
    + rewrite get_set_ne in Hin by done. right. split; [done|].
      by apply get_Some_elem.
  - intros [[-> ->]|[Hne Hin]]; apply get_Some_elem.
    + apply get_set_eq.
    + rewrite get_set_ne by done. by apply elem_get_Some.
Qed.

Lemma getitem_Ok d k v : OD.getitem d k = Ok v ↔ OD.get d k = Some v.
Proof. unfold OD.getitem. destruct (OD.get d k); split; congruence. Qed.
End facts.
End ODFacts.

Section sorted_facts.
Context {A : Type} (lt : A → A → bool).

Lemma insort_Permutation (x : A) (l : list A) : insort lt x l ≡ₚ x :: l.
Proof.
  induction l as [|y l IH]; cbn; [done|].
  destruct (lt y x); [|done]. rewrite IH. apply Permutation_swap.
Qed.

Lemma sorted_Permutation (l : list A) : sorted lt l ≡ₚ l.
Proof.
  induction l as [|x l IH]; cbn; [done|].
  rewrite insort_Permutation. by rewrite IH.
Qed.

Lemma length_sorted (l : list A) : length (sorted lt l) = length l.
Proof. apply Permutation_length, sorted_Permutation. Qed.

Lemma elem_of_sorted (x : A) (l : list A) : x ∈ sorted lt l ↔ x ∈ l.
Proof. by rewrite sorted_Permutation. Qed.

(** [sorted] arranges its argument by any relation that holds from [x] to
    [y] whenever [y < x] fails, and from [y] to [x] whenever [y < x]. *)
Lemma Sorted_sorted (R : relation A) (l : list A) :
  (∀ x y, lt y x = false → R x y) →
  (∀ x y, lt y x = true → R y x) →
  Sorted R (sorted lt l).
Proof.
  intros Hge Hlt.
  assert (Hins : ∀ x l', Sorted R l' → Sorted R (insort lt x l')).
  { intros x l' Hs. induction Hs as [|y l' Hs IH Hhd]; cbn.
    - repeat constructor.
    - destruct (lt y x) eqn:Hyx.
      + constructor; [exact IH|].
        destruct Hhd as [|z l' Hyz]; cbn.
        * constructor. by apply Hlt.
        * destruct (lt z x); constructor; [done|by apply Hlt].
      + constructor; [by constructor|]. constructor. by apply Hge. }
  induction l as [|x l IH]; cbn; [constructor|]. by apply Hins.
Qed.

(** An already arranged sequence is returned as it is. *)
Lemma sorted_id (l : list A) :
  StronglySorted (λ x y, lt y x = false) l → sorted lt l = l.
Proof.
  induction 1 as [|x l Hs IH Hx]; [done|].
  change (sorted lt (x :: l)) with (insort lt x (sorted lt l)).
  rewrite IH. destruct Hx as [|y l Hxy _]; cbn; [done|]. by rewrite Hxy.
Qed.
End sorted_facts.

(** [<] on strings against [String.le]. *)
Lemma string_ltb_false (s t : string) : String.ltb s t = false → String.le t s.
Proof.
  unfold String.ltb, String.le, String.leb.
  rewrite (String.compare_antisym t s).
  destruct (String.compare s t); cbn; done.
Qed.

Lemma string_ltb_true (s t : string) :
  String.ltb s t = true → String.le s t ∧ s ≠ t.
Proof.
  unfold String.ltb, String.le, String.leb.
  destruct (String.compare s t) eqn:Hc; intros Hlt; try discriminate Hlt.
  split; [exact I|].
  intros ->. pose proof (String.compare_antisym t t) as Ha.
  rewrite Hc in Ha. discriminate Ha.
Qed.

Lemma StronglySorted_strict {A : Type} (R : relation A) `{!AntiSymm (=) R}
    (l : list A) :
  StronglySorted R l → NoDup l → StronglySorted (strict R) l.
Proof.
  induction 1 as [|x l Hs IH Hx]; [constructor|].
  rewrite NoDup_cons. intros [Hxl Hnd]. constructor; [auto|].
  rewrite Forall_forall in Hx |- *. intros y Hy. split; [auto|].
  intros Hyx. apply Hxl. by rewrite (anti_symm R x y (Hx y Hy) Hyx).
Qed.

(** ** [process_taskline] *)

Lemma string_app_nil (s : string) : "" +:+ s = s.
Proof. reflexivity. Qed.

Lemma string_app_cons (a : ascii) (s t : string) :
  String a s +:+ t = String a (s +:+ t).
Proof. reflexivity. Qed.

Section split_lemmas.
Variable c : ascii.

Lemma split_fields_max_0 (s : string) : split_fields_max c 0 s = (s, []).
Proof. destruct s; reflexivity. Qed.

(** A field without the separator, followed by the separator, is cut off
    as the first field. *)
Lemma split_fields_max_field (n : nat) (s t : string) :
  contains_char c s = false →
  split_fields_max c (S n) (s +:+ String c t) =
  (s, (split_fields_max c n t).1 :: (split_fields_max c n t).2).
Proof.
  induction s as [|a s IH];
    rewrite ?string_app_nil, ?string_app_cons;
    cbn [contains_char split_fields_max]; intros Hs.
  - rewrite Ascii.eqb_refl. reflexivity.
  - apply orb_false_iff in Hs as [-> Hs]. rewrite (IH Hs). reflexivity.
Qed.

Lemma split_fields_none (s : string) :
  contains_char c s = false → split_fields c s = (s, []).
Proof.
  induction s as [|a s IH]; cbn [contains_char split_fields]; intros Hs;
    [reflexivity|].
  apply orb_false_iff in Hs as [-> Hs]. rewrite (IH Hs). reflexivity.
Qed.
End split_lemmas.

(** The four fields of [taskline.split(" ", 3)]. *)
Lemma split_max_taskline (commit_id issue_id isodate rest : string) :
  contains_char " " commit_id = false →
  contains_char " " issue_id = false →
  contains_char " " isodate = false →
  split_max " " 3
    (commit_id +:+ " " +:+ issue_id +:+ " " +:+ isodate +:+ " " +:+ rest) =
  [commit_id; issue_id; isodate; rest].
Proof.
  intros Hc Hi Hd. unfold split_max.
  rewrite !(string_app_cons " " ""), !string_app_nil.
  rewrite (split_fields_max_field _ _ _ _ Hc). cbn [fst snd].
  rewrite (split_fields_max_field _ _ _ _ Hi). cbn [fst snd].
  rewrite (split_fields_max_field _ _ _ _ Hd). cbn [fst snd].
  rewrite split_fields_max_0. reflexivity.
Qed.

Lemma prefix_nil (s : string) : String.prefix "" s = true.
Proof. destruct s; reflexivity. Qed.

Lemma prefix_cons (a b : ascii) (s t : string) :
  String.prefix (String a s) (String b t) =
  Ascii.eqb b a && String.prefix s t.
Proof.
  change (String.prefix (String a s) (String b t))
    with (if ascii_dec a b then String.prefix s t else false).
  destruct (ascii_dec a b) as [->|Hab].
  - rewrite Ascii.eqb_refl. reflexivity.
  - apply not_eq_sym, Ascii.eqb_neq in Hab. rewrite Hab. reflexivity.
Qed.

Lemma prefix_colon_space (a : ascii) (s : string) :
  String.prefix ": " (String a s) =
  Ascii.eqb a ":" &&
  match s with String b _ => Ascii.eqb b " " | "" => false end.
Proof.
  rewrite prefix_cons. destruct s as [|b s]; [reflexivity|].
  rewrite prefix_cons, prefix_nil, andb_true_r. reflexivity.
Qed.

Lemma split_once_cons (a : ascii) (s : string) :
  split_once ": " (String a s) =
  if String.prefix ": " (String a s) then Some ("", string_drop 2 (String a s))
  else match split_once ": " s with
       | Some (x, y) => Some (String a x, y)
       | None => None
       end.
Proof. reflexivity. Qed.

(** [": "] first occurs right after a text that does not contain it. *)
Lemma split_once_first (files_string title : string) :
  split_once ": " files_string = None →
  split_once ": " (files_string +:+ ": " +:+ title) = Some (files_string, title).
Proof.
  induction files_string as [|a s IH]; intros Hs.
  - rewrite string_app_nil, !string_app_cons, string_app_nil.
    rewrite split_once_cons, prefix_colon_space. reflexivity.
  - rewrite string_app_cons. rewrite split_once_cons in Hs |- *.
    rewrite prefix_colon_space in Hs |- *.
    destruct (Ascii.eqb a ":" && _) eqn:Hp in Hs; [discriminate|].
    destruct (split_once ": " s) as [[x y]|]; [discriminate|].
    rewrite (IH eq_refl).
    replace (Ascii.eqb a ":" && _) with false; [reflexivity|].
    destruct (Ascii.eqb a ":"); [|reflexivity]. cbn [andb] in *.
    destruct s as [|b s]; [reflexivity|].
    rewrite string_app_cons. symmetry. exact Hp.
Qed.

Lemma split_once_no_colon (s : string) :
  contains_char ":" s = false → split_once ": " s = None.
Proof.
  induction s as [|a s IH]; cbn [contains_char]; intros Hs; [reflexivity|].
  apply orb_false_iff in Hs as [Ha Hs].
  rewrite split_once_cons, prefix_colon_space, Ha, (IH Hs). reflexivity.
Qed.

Lemma parse_manifest_lengths (py_int : string → option Z)
    (taskline files_string : string) :
  length (parse_manifest py_int taskline files_string).1.2 =
  length (parse_manifest py_int taskline files_string).1.1.
Proof.
  unfold parse_manifest. cbn [fst snd]. rewrite length_fmap.
  destruct (mapM _ _) as [sizes|] eqn:Hm; cbn [fst].
  - symmetry. exact (length_mapM _ _ _ Hm).
  - apply length_fmap.
Qed.

(** A line whose sizes all parse: the record pairs every entry's name with
    its size and nothing is logged. *)
Lemma well_formed_line (py_int : string → option Z)
    (commit_id issue_id isodate files_string title : string) (sizes : list Z) :
  contains_char " " commit_id = false →
  contains_char " " issue_id = false →
  contains_char " " isodate = false →
  split_once ": " files_string = None →
  files_string ≠ ":" →
  mapM (λ f, py_int (entry_size_text f)) (tail (split ":" files_string))
    = Some sizes →
  process_taskline py_int
    (commit_id +:+ " " +:+ issue_id +:+ " " +:+ isodate +:+ " "
       +:+ files_string +:+ ": " +:+ title) =
  Ok ((issue_id, isodate, entry_name <$> tail (split ":" files_string), sizes),
      []).
Proof.
  intros Hc Hi Hd Hfs Hne Hm. unfold process_taskline.
  rewrite (split_max_taskline _ _ _ _ Hc Hi Hd), (split_once_first _ _ Hfs).
  rewrite decide_False by exact Hne.
  unfold parse_manifest. rewrite Hm. reflexivity.
Qed.

Lemma well_formed_line_witness :
  process_taskline int_decimal "1 FOO-1 2018-03-12 :A,2:B,8: FOO-1 title" =
  Ok (("FOO-1", "2018-03-12", ["A"; "B"], [2; 8]%Z), []).
Proof.
  refine (well_formed_line int_decimal "1" "FOO-1" "2018-03-12" ":A,2:B,8"
            "FOO-1 title" [2; 8]%Z eq_refl eq_refl eq_refl eq_refl _ eq_refl).
  discriminate.
Defined.

(** The handler of lines 79-81: when a size component of the manifest is
    not an integer, the line still yields a record: issue id and date are
    the second and third field, there is one file for every entry of the
    manifest, named by what precedes the last comma of the entry, every
    size is 0, there are as many sizes as files, and one warning about the
    line is logged. *)
Lemma malformed_size_recovers (py_int : string → option Z)
    (commit_id issue_id isodate files_string title : string) :
  contains_char " " commit_id = false →
  contains_char " " issue_id = false →
  contains_char " " isodate = false →
  split_once ": " files_string = None →
  files_string ≠ ":" →
  Exists (λ f, py_int (entry_size_text f) = None)
         (tail (split ":" files_string)) →
  let taskline := commit_id +:+ " " +:+ issue_id +:+ " " +:+ isodate +:+ " "
                    +:+ files_string +:+ ": " +:+ title in
  let files := entry_name <$> tail (split ":" files_string) in
  process_taskline py_int taskline =
    Ok ((issue_id, isodate, files, replicate (length files) 0%Z),
        [Warning taskline]).
Proof.
  intros Hc Hi Hd Hfs Hne Hbad taskline files. unfold process_taskline, taskline.
  rewrite (split_max_taskline _ _ _ _ Hc Hi Hd), (split_once_first _ _ Hfs).
  rewrite decide_False by exact Hne.
  unfold parse_manifest. rewrite (mapM_None_2 _ _ Hbad). cbn [fst snd].
  unfold files. rewrite length_fmap.
  do 3 f_equal. clear. induction (tail _); cbn; congruence.
Qed.

Lemma malformed_size_recovers_witness :
  process_taskline int_decimal "1 FOO-1 2018-03-12 :A,x:B,8: title" =
  Ok (("FOO-1", "2018-03-12", ["A"; "B"], [0; 0]%Z),
      [Warning "1 FOO-1 2018-03-12 :A,x:B,8: title"]).
Proof.
  refine (malformed_size_recovers int_decimal "1" "FOO-1" "2018-03-12"
            ":A,x:B,8" "title" eq_refl eq_refl eq_refl eq_refl _ _).
  - discriminate.
  - apply Exists_cons_hd. reflexivity.
Defined.

(** C7 as stated fails: a line without a manifest whose title has no
    [": "] is not turned into a record with empty lists; it raises
    [ValueError]. *)
Lemma no_manifest_line_rejected :
  no_manifest_line title_only_line ∧
  process_taskline int_decimal title_only_line = Raise ValueError ∧
  ¬ (∀ taskline, no_manifest_line taskline →
       ∃ issue_id isodate log,
         process_taskline int_decimal taskline =
           Ok ((issue_id, isodate, [], []), log)).
Proof.
  assert (Hshape : no_manifest_line title_only_line).
  { exists "12345", "TEST-123", "2018-08-12",
      ("TEST-123 foo" +:+ String (ascii_of_nat 10) "").
    repeat split; reflexivity. }
  split; [exact Hshape|]. split; [reflexivity|].
  intros Hall. destruct (Hall _ Hshape) as (i & d & log & Hrun).
  vm_compute in Hrun. discriminate Hrun.
Qed.

(** C7 (amended): for a line of three space-free fields followed by
    [rest], the parser cuts [rest] at its first [": "].  If [rest] contains
    [": "] the line is accepted and yields a record with the line's issue id
    and date and as many sizes as files; this covers every line with a
    manifest, whose closing [":"] is followed by a space.  If no [":"]
    precedes the first [": "], the file and size lists are empty and nothing
    is logged.  If [rest] contains no [": "], the line raises
    [ValueError]. *)
Theorem accepted_line_shapes (py_int : string → option Z)
    (commit_id issue_id isodate rest : string) :
  contains_char " " commit_id = false →
  contains_char " " issue_id = false →
  contains_char " " isodate = false →
  let taskline := commit_id +:+ " " +:+ issue_id +:+ " " +:+ isodate +:+ " "
                    +:+ rest in
  (is_Some (split_once ": " rest) →
     ∃ files sizes log,
       process_taskline py_int taskline = Ok ((issue_id, isodate, files, sizes), log) ∧
       length sizes = length files) ∧
  (∀ before title, rest = before +:+ ": " +:+ title →
     contains_char ":" before = false →
     process_taskline py_int taskline = Ok ((issue_id, isodate, [], []), [])) ∧
  (split_once ": " rest = None →
     process_taskline py_int taskline = Raise ValueError).
Proof.
  intros Hc Hi Hd taskline. unfold process_taskline, taskline.
  rewrite (split_max_taskline _ _ _ _ Hc Hi Hd). split; [|split].
  - intros [[fs title] ->]. destruct (decide (fs = ":")).
    + exists [], [], []. split; reflexivity.
    + eexists _, _, _. split; [reflexivity|]. apply parse_manifest_lengths.
  - intros before title -> Hb.
    rewrite (split_once_first _ _ (split_once_no_colon _ Hb)).
    destruct (decide (before = ":")) as [->|Hne]; [reflexivity|].
    unfold parse_manifest, split. rewrite (split_fields_none _ _ Hb).
    reflexivity.
  - intros ->. reflexivity.
Qed.

Lemma accepted_line_shapes_witness :
  (∃ files sizes log,
     process_taskline int_decimal "1 FOO-1 2018-03-12 :A,2:B,8: FOO-1 title" =
       Ok (("FOO-1", "2018-03-12", files, sizes), log) ∧
     length sizes = length files) ∧
  process_taskline int_decimal "1 FOO-1 2018-03-12 FOO-1: title" =
    Ok (("FOO-1", "2018-03-12", [], []), []) ∧
  process_taskline int_decimal "1 FOO-1 2018-03-12 FOO-1 title" =
    Raise ValueError.
Proof.
  split; [|split].
  - refine (proj1 (accepted_line_shapes int_decimal "1" "FOO-1" "2018-03-12"
                     ":A,2:B,8: FOO-1 title" eq_refl eq_refl eq_refl) _).
    eexists. reflexivity.
  - exact (proj1 (proj2 (accepted_line_shapes int_decimal "1" "FOO-1"
                           "2018-03-12" "FOO-1: title" eq_refl eq_refl eq_refl))
             "FOO-1" "title" eq_refl eq_refl).
  - exact (proj2 (proj2 (accepted_line_shapes int_decimal "1" "FOO-1"
                           "2018-03-12" "FOO-1 title" eq_refl eq_refl eq_refl))
             eq_refl).
Defined.

(** The doctest of lines 68-69. *)
Lemma process_taskline_doctest :
  process_taskline int_decimal doctest_line =
  Ok (("FOO-12345", "2018-03-12", ["A"; "B"; "C"], [2; 8; 999]%Z), []).
Proof. vm_compute. reflexivity. Qed.

(** The recovery names every entry by what precedes its last comma: an
    entry without a comma, as a colon inside a file name leaves one, is
    listed under the empty name. *)
Lemma stray_colon_entry_names :
  entry_name "a" = "" ∧
  process_taskline int_decimal stray_colon_line =
  Ok (("FOO-1", "2018-03-12", [""; "b"], [0; 0]%Z), [Warning stray_colon_line]).
Proof. split; vm_compute; reflexivity. Qed.

(** ** The aggregation loops *)

Lemma sum_step_collect :
  sum_step = collect_step Z.add 0%Z rec_sizes.
Proof. reflexivity. Qed.

Lemma aggregate_step_collect :
  aggregate_step = collect_step (λ v f, {[f]} ∪ v) ∅ rec_files.
Proof. reflexivity. Qed.

Lemma records_of_snoc (changes : list ChangeRecord) (r : ChangeRecord)
    (issue : string) :
  records_of (changes ++ [r]) issue =
  records_of changes issue ++ (if decide (rec_issue r = issue) then [r] else []).
Proof.
  unfold records_of. rewrite filter_app. f_equal.
Qed.

Lemma elem_of_records_of (changes : list ChangeRecord) (r : ChangeRecord)
    (issue : string) :
  r ∈ records_of changes issue ↔ r ∈ changes ∧ rec_issue r = issue.
Proof. unfold records_of. rewrite list_elem_of_filter. tauto. Qed.

Section collect.
Context {V X : Type} (op : V → X → V) (v0 : V) (items : ChangeRecord → list X).

Lemma update_loop (issue : string) (xs : list X) (mapped : odict string V)
    (v : V) :
  OD.get mapped issue = Some v →
  for_each (λ mapped x, v ← OD.getitem mapped issue;
                        Ok (OD.set mapped issue (op v x))) xs mapped =
  Ok (OD.set mapped issue (foldl op v xs)).
Proof.
  revert mapped v. induction xs as [|x xs IH]; intros mapped v Hget; cbn.
  - by rewrite ODFacts.set_get_id.
  - rewrite (proj2 (ODFacts.getitem_Ok _ _ _) Hget). cbn.
    rewrite (IH _ (op v x)) by apply ODFacts.get_set_eq.
    by rewrite ODFacts.set_set.
Qed.

Lemma collect_step_Ok (idl : gmap string string) (mapped : odict string V)
    (r : ChangeRecord) :
  collect_step op v0 items (idl, mapped) r =
  Ok (update_latest idl (rec_issue r) (rec_date r),
      OD.set mapped (rec_issue r)
             (foldl op (default v0 (OD.get mapped (rec_issue r))) (items r))).
Proof.
  unfold collect_step, setdefault. cbn [fst snd].
  destruct (OD.get mapped (rec_issue r)) as [v|] eqn:Hget; cbn [default].
  - by rewrite (update_loop _ _ _ v).
  - rewrite (update_loop _ _ _ v0) by apply ODFacts.get_set_eq.
    by rewrite ODFacts.set_set.
Qed.

Lemma update_latest_spec (changes : list ChangeRecord) (r : ChangeRecord)
    (idl : gmap string string) (issue : string) :
  (∀ issue, match idl !! issue with
            | None => records_of changes issue = []
            | Some d => is_latest_date changes issue d
            end) →
  match update_latest idl (rec_issue r) (rec_date r) !! issue with
  | None => records_of (changes ++ [r]) issue = []
  | Some d => is_latest_date (changes ++ [r]) issue d
  end.
Proof.
  intros Hidl. specialize (Hidl issue). unfold update_latest.
  destruct (decide (rec_issue r = issue)) as [<-|Hne].
  - destruct (idl !! rec_issue r) as [d|] eqn:Hd.
    + destruct Hidl as [(r0 & Hr0 & Hi0 & Hd0) Hmax].
      destruct (String.ltb d (rec_date r)) eqn:Hlt.
      * rewrite lookup_insert_eq. split.
        { exists r. set_solver. }
        intros r' Hr' Hi'. apply elem_of_app in Hr' as [Hr'|Hr'].
        -- etrans; [by apply Hmax|]. by apply string_ltb_true in Hlt as [? _].
        -- apply list_elem_of_singleton in Hr' as ->. done.
      * rewrite Hd. split.
        { exists r0. set_solver. }
        intros r' Hr' Hi'. apply elem_of_app in Hr' as [Hr'|Hr'].
        -- by apply Hmax.
        -- apply list_elem_of_singleton in Hr' as ->.
           by apply string_ltb_false.
    + rewrite lookup_insert_eq. split.
      { exists r. set_solver. }
      intros r' Hr' Hi'. apply elem_of_app in Hr' as [Hr'|Hr'].
      * assert (r' ∈ records_of changes (rec_issue r)) as Hin
          by by apply elem_of_records_of.
        rewrite Hidl in Hin. by apply not_elem_of_nil in Hin.
      * apply list_elem_of_singleton in Hr' as ->. done.
  - assert (update_latest idl (rec_issue r) (rec_date r) !! issue = idl !! issue)
      as Heq.
    { unfold update_latest. destruct (idl !! rec_issue r) as [d|];
        [destruct (String.ltb d (rec_date r))|];
        rewrite ?lookup_insert_ne; done. }
    unfold update_latest in Heq. rewrite Heq.
    destruct (idl !! issue) as [d|].
    + destruct Hidl as [(r0 & Hr0 & Hi0 & Hd0) Hmax]. split.
      { exists r0. set_solver. }
      intros r' Hr' Hi'. apply elem_of_app in Hr' as [Hr'|Hr'].
      * by apply Hmax.
      * apply list_elem_of_singleton in Hr' as ->. done.
    + rewrite records_of_snoc, Hidl. by rewrite decide_False.
Qed.

Lemma collect_loop (changes : list ChangeRecord) :
  ∃ acc, for_each (collect_step op v0 items) changes (∅, []) = Ok acc ∧
         collect_inv op v0 items changes acc.
Proof.
  induction changes as [|r changes IH] using rev_ind.
  - exists (∅, []). split; [done|]. split; [constructor|]. split; [done|].
    intros issue. cbn [fst]. by rewrite lookup_empty.
  - destruct IH as ([idl mapped] & Hrun & Hnd & Hmapped & Hidl).
    rewrite for_each_snoc, Hrun. cbn [mbind result_bind].
    rewrite collect_step_Ok. eexists. split; [done|].
    unfold collect_inv. cbn [fst snd] in *.
    split; [by apply ODFacts.NoDup_keys_set|]. split.
    + intros issue. rewrite records_of_snoc.
      destruct (decide (rec_issue r = issue)) as [<-|Hne].
      * rewrite ODFacts.get_set_eq, Hmapped.
        assert (collected op v0 items (changes ++ [r]) (rec_issue r) =
                foldl op (collected op v0 items changes (rec_issue r)) (items r)) as ->.
        { unfold collected. rewrite records_of_snoc, decide_True by done.
          rewrite fmap_app, concat_app, foldl_app. cbn.
          by rewrite app_nil_r. }
        destruct (records_of changes (rec_issue r)) eqn:Hrecs; [|done].
        cbn. unfold collected. by rewrite Hrecs.
      * rewrite ODFacts.get_set_ne, Hmapped, app_nil_r by done.
        unfold collected. by rewrite records_of_snoc, decide_False, app_nil_r.
    + intros issue. by apply update_latest_spec.
Qed.
End collect.

(** A composite key determines its date and issue when dates have no
    colon. *)
Lemma composite_key_inj (d1 d2 i1 i2 : string) :
  contains_char ":" d1 = false → contains_char ":" d2 = false →
  d1 +:+ ":" +:+ i1 = d2 +:+ ":" +:+ i2 → d1 = d2 ∧ i1 = i2.
Proof.
  revert d2. induction d1 as [|a d1 IH]; intros [|b d2];
    rewrite ?string_app_nil, ?string_app_cons, ?string_app_nil;
    cbn [contains_char]; intros H1 H2 Heq.
  - injection Heq as ->. done.
  - injection Heq as <- _. discriminate H2.
  - injection Heq as -> _. discriminate H1.
  - injection Heq as -> Heq.
    apply orb_false_iff in H1 as [_ H1]. apply orb_false_iff in H2 as [_ H2].
    destruct (IH d2 H1 H2 Heq) as [-> ->]. done.
Qed.

Section add_dates.
Context {V : Type}.

Lemma add_dates_from (idl : gmap string string) (mapped withdate : odict string V)
    (date_of : string → string) :
  (∀ k, k ∈ OD.keys mapped → idl !! k = Some (date_of k)) →
  NoDup (OD.keys withdate ++
         ((λ k, date_of k +:+ ":" +:+ k) <$> OD.keys mapped)) →
  for_each (λ withdate kv,
              date ← gm_getitem idl kv.1;
              Ok (OD.set withdate (date +:+ ":" +:+ kv.1) kv.2))
           mapped withdate =
  Ok (withdate ++ ((λ kv, (date_of kv.1 +:+ ":" +:+ kv.1, kv.2)) <$> mapped)).
Proof.
  revert withdate. induction mapped as [|[k v] mapped IH];
    intros withdate Hidl Hnd; cbn.
  - by rewrite app_nil_r.
  - unfold gm_getitem. rewrite (Hidl k) by (cbn; set_solver). cbn.
    cbn in Hnd. apply NoDup_app in Hnd as (Hw & Hdisj & Hnew).
    rewrite ODFacts.set_fresh by (intros Hin; apply (Hdisj _ Hin); left).
    rewrite IH.
    + by rewrite <- app_assoc.
    + intros k' Hk'. apply Hidl. cbn. set_solver.
    + unfold OD.keys in *. rewrite fmap_app, <- app_assoc. cbn.
      apply NoDup_app. done.
Qed.

Lemma add_dates_Ok (idl : gmap string string) (mapped : odict string V)
    (date_of : string → string) :
  (∀ k, k ∈ OD.keys mapped → idl !! k = Some (date_of k)) →
  NoDup ((λ k, date_of k +:+ ":" +:+ k) <$> OD.keys mapped) →
  add_dates idl mapped =
  Ok ((λ kv, (date_of kv.1 +:+ ":" +:+ kv.1, kv.2)) <$> mapped).
Proof. intros Hidl Hnd. unfold add_dates. by rewrite (add_dates_from _ _ [] date_of). Qed.
End add_dates.

Lemma is_latest_date_unique (changes : list ChangeRecord) (issue d1 d2 : string) :
  is_latest_date changes issue d1 → is_latest_date changes issue d2 → d1 = d2.
Proof.
  intros [(r1 & Hr1 & Hi1 & <-) Hmax1] [(r2 & Hr2 & Hi2 & <-) Hmax2].
  apply (anti_symm String.le); auto.
Qed.

Section keyed_output.
Context {V X : Type} (op : V → X → V) (v0 : V) (items : ChangeRecord → list X).
Context (changes : list ChangeRecord) (idl : gmap string string)
        (mapped : odict string V).
Hypothesis dates_ok : Forall (λ r, contains_char ":" (rec_date r) = false) changes.
Hypothesis inv : collect_inv op v0 items changes (idl, mapped).

Lemma date_of_latest (issue d : string) :
  is_latest_date changes issue d → idl !! issue = Some d.
Proof.
  intros Hd. destruct inv as (_ & _ & Hidl). specialize (Hidl issue).
  cbn [fst] in Hidl. destruct (idl !! issue) as [d'|].
  - f_equal. by eapply is_latest_date_unique.
  - destruct Hd as [(r & Hr & Hi & _) _].
    assert (r ∈ records_of changes issue) as Hin by by apply elem_of_records_of.
    rewrite Hidl in Hin. by apply not_elem_of_nil in Hin.
Qed.

Lemma key_has_date (k : string) :
  k ∈ OD.keys mapped → is_latest_date changes k (date_of idl k).
Proof.
  intros Hk. destruct inv as (_ & Hmapped & Hidl).
  specialize (Hmapped k). specialize (Hidl k). cbn [fst snd] in *.
  unfold date_of. destruct (idl !! k) as [d|]; [done|].
  rewrite Hidl in Hmapped. by apply ODFacts.get_None in Hmapped.
Qed.

Lemma date_of_colon_free (k : string) :
  k ∈ OD.keys mapped → contains_char ":" (date_of idl k) = false.
Proof.
  intros Hk. destruct (key_has_date k Hk) as [(r & Hr & _ & <-) _].
  rewrite Forall_forall in dates_ok. by apply dates_ok.
Qed.

Lemma composite_keys_NoDup :
  NoDup ((λ k, date_of idl k +:+ ":" +:+ k) <$> OD.keys mapped).
Proof.
  apply NoDup_fmap_2_strong; [|by destruct inv].
  intros k1 k2 Hk1 Hk2 Heq.
  by apply composite_key_inj in Heq as [_ ?]; [|apply date_of_colon_free..].
Qed.

(** With the dates attached: the entries of [mapped], each under its
    composite key, in the same order. *)
Lemma with_dates {W : Type} (mapped' : odict string W) :
  OD.keys mapped' = OD.keys mapped →
  add_dates idl mapped' =
  Ok ((λ kv, (date_of idl kv.1 +:+ ":" +:+ kv.1, kv.2)) <$> mapped').
Proof.
  intros Hkeys. apply add_dates_Ok; rewrite Hkeys.
  - intros k Hk. apply date_of_latest, key_has_date, Hk.
  - apply composite_keys_NoDup.
Qed.

Lemma mapped_of_issue (issue d : string) :
  is_latest_date changes issue d →
  OD.get mapped issue = Some (collected op v0 items changes issue).
Proof.
  intros [(r & Hr & Hi & _) _]. destruct inv as (_ & Hmapped & _).
  cbn [snd] in Hmapped. rewrite (Hmapped issue).
  assert (r ∈ records_of changes issue) as Hin by by apply elem_of_records_of.
  destruct (records_of changes issue); [by apply not_elem_of_nil in Hin|done].
Qed.

Lemma mapped_entry (k : string) (v : V) :
  (k, v) ∈ mapped →
  is_latest_date changes k (date_of idl k) ∧ v = collected op v0 items changes k.
Proof.
  intros Hin. assert (k ∈ OD.keys mapped) as Hk.
  { apply list_elem_of_fmap. by exists (k, v). }
  split; [by apply key_has_date|].
  apply ODFacts.elem_get_Some in Hin; [|by destruct inv].
  rewrite (mapped_of_issue k _ (key_has_date k Hk)) in Hin. by injection Hin.
Qed.
End keyed_output.

Lemma foldl_Zadd (a : Z) (l : list Z) :
  foldl Z.add a l = (a + foldr Z.add 0 l)%Z.
Proof. revert a. induction l as [|x l IH]; intros a; cbn; [lia|]. rewrite IH. lia. Qed.

Lemma elem_of_foldl_add (f : string) (s : gset string) (l : list string) :
  f ∈ foldl (λ v g, {[g]} ∪ v) s l ↔ f ∈ s ∨ f ∈ l.
Proof.
  revert s. induction l as [|g l IH]; intros s; cbn; [set_solver|].
  rewrite IH. set_solver.
Qed.

Lemma elem_of_concat {A : Type} (x : A) (ls : list (list A)) :
  x ∈ concat ls ↔ ∃ l, x ∈ l ∧ l ∈ ls.
Proof.
  induction ls as [|l ls IH]; cbn.
  - split; [by intros ?%not_elem_of_nil|]. intros (l & _ & ?%not_elem_of_nil). done.
  - rewrite elem_of_app, IH. set_solver.
Qed.

Lemma elem_of_concat_files (f : string) (changes : list ChangeRecord)
    (issue : string) :
  f ∈ concat (rec_files <$> records_of changes issue) ↔
  ∃ r, r ∈ changes ∧ rec_issue r = issue ∧ f ∈ rec_files r.
Proof.
  rewrite elem_of_concat. split.
  - intros (fs & Hf & Hfs). apply list_elem_of_fmap in Hfs as (r & -> & Hr).
    apply elem_of_records_of in Hr as [Hr Hi]. eauto.
  - intros (r & Hr & Hi & Hf). exists (rec_files r). split; [done|].
    apply list_elem_of_fmap. exists r. split; [done|].
    by apply elem_of_records_of.
Qed.

Lemma sorted_strings (l : list string) :
  NoDup l → StronglySorted (strict String.le) (sorted String.ltb l).
Proof.
  intros Hnd. apply StronglySorted_strict; [apply _| |].
  - apply Sorted_StronglySorted; [apply _|].
    apply Sorted_sorted.
    + intros x y. apply string_ltb_false.
    + intros x y Hlt. by apply string_ltb_true in Hlt as [? _].
  - by rewrite sorted_Permutation.
Qed.

(** C5: when no date contains a colon (every ISO date qualifies),
    [aggregate_files_per_issue] returns a dictionary with distinct keys in
    which every key is [latest_date + ":" + issue_id] of an issue of the
    input, every record's issue has such a latest date, and the issue with
    latest date [d] is mapped, under [d + ":" + issue], to a strictly
    ascending sequence whose members are exactly the files of the records
    of that issue. *)
Theorem aggregate_files_per_issue_spec (changes : list ChangeRecord) :
  Forall (λ r, contains_char ":" (rec_date r) = false) changes →
  ∃ out, aggregate_files_per_issue changes = Ok out ∧
    NoDup (OD.keys out) ∧
    (∀ key files, (key, files) ∈ out →
       ∃ issue d, key = d +:+ ":" +:+ issue ∧ is_latest_date changes issue d) ∧
    (∀ r, r ∈ changes → ∃ d, is_latest_date changes (rec_issue r) d) ∧
    (∀ issue d, is_latest_date changes issue d →
       ∃ files, OD.get out (d +:+ ":" +:+ issue) = Some files ∧
         StronglySorted (strict String.le) files ∧
         ∀ f, f ∈ files ↔
              ∃ r, r ∈ changes ∧ rec_issue r = issue ∧ f ∈ rec_files r).
Proof.
  intros Hdates. unfold aggregate_files_per_issue.
  destruct (collect_loop (λ (v : gset string) f, {[f]} ∪ v) ∅ rec_files changes)
    as ([idl mapped] & Hrun & Hinv).
  rewrite aggregate_step_collect, Hrun. cbn [mbind result_bind fst snd].
  assert (OD.keys (freeze mapped) = OD.keys mapped) as Hkeys.
  { unfold OD.keys, freeze. rewrite <- list_fmap_compose. done. }
  rewrite (with_dates _ _ _ _ _ _ Hdates Hinv _ Hkeys).
  eexists. split; [done|].
  assert (OD.keys ((λ kv, (date_of idl kv.1 +:+ ":" +:+ kv.1, kv.2))
                     <$> freeze mapped) =
          (λ k, date_of idl k +:+ ":" +:+ k) <$> OD.keys mapped) as Hout.
  { unfold OD.keys, freeze. rewrite <- !list_fmap_compose. done. }
  assert (NoDup (OD.keys ((λ kv, (date_of idl kv.1 +:+ ":" +:+ kv.1, kv.2))
                            <$> freeze mapped))) as Hnd.
  { rewrite Hout. by eapply composite_keys_NoDup. }
  split; [exact Hnd|]. split; [|split].
  - intros key files Hin.
    apply list_elem_of_fmap in Hin as ([k fs] & [= -> ->] & Hin).
    apply list_elem_of_fmap in Hin as ([k' v] & [= -> ->] & Hin).
    exists k', (date_of idl k'). split; [done|].
    by eapply mapped_entry.
  - intros r Hr. destruct Hinv as (_ & _ & Hidl).
    specialize (Hidl (rec_issue r)). cbn [fst] in Hidl.
    destruct (idl !! rec_issue r) as [d|]; [by exists d|].
    assert (r ∈ records_of changes (rec_issue r)) as Hin
      by by apply elem_of_records_of.
    rewrite Hidl in Hin. by apply not_elem_of_nil in Hin.
  - intros issue d Hd.
    pose proof (mapped_of_issue _ _ _ _ _ _ Hinv _ _ Hd) as Hget.
    pose proof (date_of_latest _ _ _ _ _ _ Hinv _ _ Hd) as Hdate.
    eexists. split; [|split].
    + apply ODFacts.elem_get_Some; [exact Hnd|].
      apply list_elem_of_fmap. eexists (issue, _). split.
      * cbn. unfold date_of. rewrite Hdate. done.
      * apply list_elem_of_fmap. eexists (issue, _). split; [done|].
        by apply ODFacts.get_Some_elem.
    + apply sorted_strings, NoDup_elements.
    + intros f. rewrite elem_of_sorted, elem_of_elements.
      unfold collected. cbn [snd].
      rewrite elem_of_foldl_add, elem_of_concat_files. set_solver.
Qed.

Lemma aggregate_files_per_issue_spec_witness :
  ∃ out, aggregate_files_per_issue scenario_C = Ok out ∧
    NoDup (OD.keys out) ∧
    (∀ key files, (key, files) ∈ out →
       ∃ issue d, key = d +:+ ":" +:+ issue ∧ is_latest_date scenario_C issue d) ∧
    (∀ r, r ∈ scenario_C → ∃ d, is_latest_date scenario_C (rec_issue r) d) ∧
    (∀ issue d, is_latest_date scenario_C issue d →
       ∃ files, OD.get out (d +:+ ":" +:+ issue) = Some files ∧
         StronglySorted (strict String.le) files ∧
         ∀ f, f ∈ files ↔
              ∃ r, r ∈ scenario_C ∧ rec_issue r = issue ∧ f ∈ rec_files r).
Proof.
  apply (aggregate_files_per_issue_spec scenario_C).
  repeat constructor.
Defined.

Lemma sorted_totals (l : list (string * Z)) :
  NoDup l.*1 → StronglySorted (strict String.le) (sorted total_lt l).*1.
Proof.
  intros Hnd. apply StronglySorted_strict; [apply _| |].
  - apply Sorted_StronglySorted; [apply _|].
    apply (Sorted_fmap fst (λ s t : string * Z, String.le s.1 t.1)); [done|].
    apply Sorted_sorted; intros x y; unfold total_lt; case_decide as Heq.
    + intros _. rewrite Heq. done.
    + apply string_ltb_false.
    + intros _. rewrite Heq. done.
    + intros Hlt. by apply string_ltb_true in Hlt as [? _].
  - by rewrite sorted_Permutation.
Qed.

(** C8: when no date contains a colon (every ISO date qualifies),
    [sum_filesizes_per_issue] returns a list whose keys ascend strictly and
    whose entries are exactly the pairs of [latest_date + ":" + issue_id]
    and the sum of all sizes of all records of that issue (a size counts
    once per record listing it); on the records of Scenario C the list is
    the one of the doctest. *)
Theorem sum_filesizes_per_issue_spec :
  (∀ changes : list ChangeRecord,
     Forall (λ r, contains_char ":" (rec_date r) = false) changes →
     ∃ out, sum_filesizes_per_issue changes = Ok out ∧
       StronglySorted (strict String.le) out.*1 ∧
       ∀ key total, (key, total) ∈ out ↔
         ∃ issue d, key = d +:+ ":" +:+ issue ∧
                    is_latest_date changes issue d ∧
                    total = size_total changes issue) ∧
  sum_filesizes_per_issue scenario_C =
    Ok [("2018-03-11:FOO-1112", 10%Z); ("2018-03-12:FOO-1111", 23%Z)].
Proof.
  split; [|vm_compute; reflexivity].
  intros changes Hdates. unfold sum_filesizes_per_issue.
  destruct (collect_loop Z.add 0%Z rec_sizes changes)
    as ([idl mapped] & Hrun & Hinv).
  rewrite sum_step_collect, Hrun. cbn [mbind result_bind fst snd].
  rewrite (with_dates _ _ _ _ _ _ Hdates Hinv _ eq_refl).
  cbn [mbind result_bind]. eexists. split; [done|]. split.
  - apply sorted_totals. rewrite <- list_fmap_compose.
    pose proof (composite_keys_NoDup _ _ _ _ _ _ Hdates Hinv) as Hnd.
    unfold OD.keys in Hnd. by rewrite <- list_fmap_compose in Hnd.
  - intros key total. rewrite elem_of_sorted, list_elem_of_fmap. split.
    + intros ([k v] & [= -> ->] & Hin). exists k, (date_of idl k).
      destruct (mapped_entry _ _ _ _ _ _ Hinv _ _ Hin) as [Hd ->].
      split; [done|]. split; [done|].
      unfold collected, size_total. rewrite foldl_Zadd. lia.
    + intros (issue & d & -> & Hd & ->).
      exists (issue, collected Z.add 0%Z rec_sizes changes issue). split.
      * cbn [fst snd]. unfold date_of.
        rewrite (date_of_latest _ _ _ _ _ _ Hinv _ _ Hd). cbn. f_equal.
        unfold collected, size_total. rewrite foldl_Zadd. lia.
      * apply ODFacts.get_Some_elem. by eapply mapped_of_issue.
Qed.

Lemma sum_filesizes_per_issue_spec_witness :
  ∃ out, sum_filesizes_per_issue scenario_C = Ok out ∧
    StronglySorted (strict String.le) out.*1 ∧
    ∀ key total, (key, total) ∈ out ↔
      ∃ issue d, key = d +:+ ":" +:+ issue ∧
                 is_latest_date scenario_C issue d ∧
                 total = size_total scenario_C issue.
Proof.
  apply (proj1 sum_filesizes_per_issue_spec scenario_C).
  repeat constructor.
Defined.

(** The doctest of lines 121-124 (the entries in insertion order). *)
Lemma aggregate_files_per_issue_doctest :
  aggregate_files_per_issue scenario_C =
  Ok [("2018-03-12:FOO-1111", ["A"; "B"; "C"]);
      ("2018-03-11:FOO-1112", ["A"; "D"])].
Proof. vm_compute. reflexivity. Qed.

(** Dates with a colon can make two issues share a composite key; the later
    issue then replaces the earlier one. *)
Lemma composite_key_collision :
  aggregate_files_per_issue colliding_records = Ok [("a:b:X", ["g"])] ∧
  sum_filesizes_per_issue colliding_records = Ok [("a:b:X", 2%Z)].
Proof. split; vm_compute; reflexivity. Qed.

(** [count_files_per_issue] lists every key of its argument, in order, with
    the number of its files; on Scenario A these are 3 and 2. *)
Lemma count_files_per_issue_spec (aggregated : odict string (list string)) :
  (count_files_per_issue aggregated).*1 = OD.keys aggregated ∧
  (∀ key n, (key, n) ∈ count_files_per_issue aggregated ↔
            ∃ files, (key, files) ∈ aggregated ∧ n = length files) ∧
  count_files_per_issue scenario_A = [("TEST-1111", 3); ("TEST-1112", 2)].
Proof.
  unfold count_files_per_issue. split; [|split; [|reflexivity]].
  - unfold OD.keys. by rewrite <- list_fmap_compose.
  - intros key n. rewrite list_elem_of_fmap. split.
    + intros ([k files] & [= -> ->] & Hin). by exists files.
    + intros (files & Hin & ->). by exists (key, files).
Qed.

(** ** Scenario A *)

(** C3: on the aggregated input of Scenario A the node list is A, B, C, D
    at ids 0..3 and the neighbour and weight sequences are the listed ones. *)
Theorem scenario_A_graph :
  correlate_files_with_each_other scenario_A =
  Ok (["A"; "B"; "C"; "D"],
      [(0, [0; 1; 2; 3]); (1, [0; 1; 2]); (2, [0; 1; 2]); (3, [0; 3])],
      [(0, [2; 1; 1; 1]); (1, [1; 1; 1]); (2, [1; 1; 1]); (3, [1; 1])]).
Proof. vm_compute. reflexivity. Qed.

(** ** The file index *)

Lemma index_ok_initial : index_ok initial_state.
Proof. intros f i. cbn. rewrite lookup_empty, lookup_nil. done. Qed.

Lemma index_ok_known (st : graph_state) (f : string) :
  index_ok st → f ∈ known_files st ↔ is_Some (known_files_to_index st !! f).
Proof.
  intros Hok. rewrite list_elem_of_lookup. split.
  - intros [i Hi]. exists i. by apply Hok.
  - intros [i Hi]. exists i. by apply Hok.
Qed.

Lemma register_edges (g : string) (st : graph_state) :
  edges (register g st) = edges st ∧ weights (register g st) = weights st.
Proof. unfold register. by destruct (known_files_to_index st !! g). Qed.

Lemma register_known (g : string) (st : graph_state) :
  index_ok st →
  known_files (register g st) = first_seen_from (known_files st) [g].
Proof.
  intros Hok. unfold register, first_seen_from. cbn.
  destruct (known_files_to_index st !! g) as [i|] eqn:Hg.
  - rewrite decide_True; [done|]. apply index_ok_known; eauto.
  - rewrite decide_False; [done|]. rewrite index_ok_known by done.
    rewrite Hg. by intros [? ?].
Qed.

Lemma register_index_ok (g : string) (st : graph_state) :
  index_ok st → index_ok (register g st).
Proof.
  intros Hok. unfold register.
  destruct (known_files_to_index st !! g) as [i|] eqn:Hg; [done|].
  intros f i. cbn. destruct (decide (f = g)) as [->|Hne].
  - rewrite lookup_insert_eq. split.
    + intros [= <-]. rewrite lookup_app_r by done. by rewrite Nat.sub_diag.
    + intros Hi. f_equal. apply lookup_app_Some in Hi as [Hi|[Hle Hi]].
      * apply Hok in Hi. congruence.
      * apply list_lookup_singleton_Some in Hi as [Hi _]. lia.
  - rewrite lookup_insert_ne by done. rewrite (Hok f i). split.
    + intros Hi. by apply lookup_app_l_Some.
    + intros Hi. apply lookup_app_Some in Hi as [Hi|[Hle Hi]]; [done|].
      apply list_lookup_singleton_Some in Hi as [_ Hi]. congruence.
Qed.

Lemma register_lookup_mono (g f : string) (i : nat) (st : graph_state) :
  known_files_to_index st !! f = Some i →
  known_files_to_index (register g st) !! f = Some i.
Proof.
  intros Hf. unfold register.
  destruct (known_files_to_index st !! g) eqn:Hg; [done|]. cbn.
  rewrite lookup_insert_ne; [done|]. congruence.
Qed.

Lemma register_registers (g : string) (st : graph_state) :
  is_Some (known_files_to_index (register g st) !! g).
Proof.
  unfold register. destruct (known_files_to_index st !! g) eqn:Hg; [by eauto|].
  cbn. rewrite lookup_insert_eq. eauto.
Qed.

Lemma first_seen_from_app (known l1 l2 : list string) :
  first_seen_from known (l1 ++ l2) =
  first_seen_from (first_seen_from known l1) l2.
Proof. apply foldl_app. Qed.

Lemma first_seen_from_cons (known : list string) (f : string) (l : list string) :
  first_seen_from known (f :: l) =
  first_seen_from (if decide (f ∈ known) then known else known ++ [f]) l.
Proof. reflexivity. Qed.

Lemma elem_of_first_seen_from (known l : list string) (f : string) :
  f ∈ first_seen_from known l ↔ f ∈ known ∨ f ∈ l.
Proof.
  revert known. induction l as [|g l IH]; intros known.
  - cbn. set_solver.
  - rewrite first_seen_from_cons, IH. case_decide; set_solver.
Qed.

Lemma first_seen_from_known (known l : list string) :
  (∀ f, f ∈ l → f ∈ known) → first_seen_from known l = known.
Proof.
  induction l as [|g l IH]; intros Hl; [done|].
  rewrite first_seen_from_cons, decide_True by set_solver.
  apply IH. set_solver.
Qed.

Lemma NoDup_first_seen_from (known l : list string) :
  NoDup known → NoDup (first_seen_from known l).
Proof.
  revert known. induction l as [|g l IH]; intros known Hnd; [done|].
  rewrite first_seen_from_cons. apply IH. case_decide; [done|].
  apply NoDup_app. split; [done|]. split; [set_solver|apply NoDup_singleton].
Qed.

(** The registrations of one issue: each file, followed by the whole file
    tuple.  They add the new files of the tuple in tuple order. *)
Lemma first_seen_from_issue (known files : list string) :
  first_seen_from known (concat ((λ f, f :: files) <$> files)) =
  first_seen_from known files.
Proof.
  destruct files as [|f0 rest]; [done|].
  cbn [fmap list_fmap concat].
  rewrite !first_seen_from_app.
  assert (first_seen_from known (f0 :: f0 :: rest) =
          first_seen_from known (f0 :: rest)) as ->.
  { rewrite (first_seen_from_cons known f0 (f0 :: rest)).
    rewrite (first_seen_from_cons _ f0 rest).
    rewrite (first_seen_from_cons known f0 rest).
    rewrite decide_True; [done|]. case_decide; set_solver. }
  apply first_seen_from_known. intros f Hf.
  apply elem_of_first_seen_from. right.
  apply elem_of_concat in Hf as (l & Hf & Hl).
  apply list_elem_of_fmap in Hl as (g & -> & Hg). set_solver.
Qed.

(** ** The accumulation loop, step by step *)

Lemma elem_of_set_1 {K V : Type} `{EqDecision K} (d : list (K * V)) (k k' : K)
    (v v' : V) :
  (k', v') ∈ OD.set d k v → (k' = k ∧ v' = v) ∨ (k', v') ∈ d.
Proof.
  induction d as [|[k0 v0] d IH]; cbn.
  - intros Hin. apply list_elem_of_singleton in Hin. left. by injection Hin.
  - destruct (decide (k = k0)) as [->|Hne]; intros Hin;
      apply elem_of_cons in Hin as [Hin|Hin].
    + left. by injection Hin.
    + right. by right.
    + right. rewrite Hin. left.
    + destruct (IH Hin) as [?|?]; [by left|]. right. by right.
Qed.

Lemma get_Some_key {K V : Type} `{EqDecision K} (d : list (K * V)) (k : K) (v : V) :
  OD.get d k = Some v → k ∈ OD.keys d.
Proof.
  intros Hget. apply ODFacts.get_Some_elem in Hget.
  apply list_elem_of_fmap. by exists (k, v).
Qed.

Lemma index_le_refl (st : graph_state) : index_le st st.
Proof. by intros f i. Qed.

Lemma index_le_trans (st1 st2 st3 : graph_state) :
  index_le st1 st2 → index_le st2 st3 → index_le st1 st3.
Proof. intros H12 H23 f i Hf. by apply H23, H12. Qed.

Lemma index_le_register (g : string) (st : graph_state) :
  index_le st (register g st).
Proof. intros f i. apply register_lookup_mono. Qed.

(** What one pass of the body of [for g in files] does. *)
Lemma inner_step_inv (fidx : nat) (edgeindex : gmap nat nat)
    (st : graph_state) (ec : gmap nat nat) (g : string)
    (st' : graph_state) (ec' : gmap nat nat) :
  inner_step fidx edgeindex (st, ec) g = Ok (st', ec') →
  ∃ gidx,
    known_files_to_index (register g st) !! g = Some gidx ∧
    known_files_to_index st' = known_files_to_index (register g st) ∧
    known_files st' = known_files (register g st) ∧
    ec' = <[gidx := S (default 0 (ec !! gidx))]> ec ∧
    ((ec !! gidx = None ∧
      ∃ e w, OD.get (edges st) fidx = Some e ∧
             OD.get (weights st) fidx = Some w ∧
             edges st' = OD.set (edges st) fidx (e ++ [gidx]) ∧
             weights st' = OD.set (weights st) fidx (w ++ [1]))
     ∨
     (is_Some (ec !! gidx) ∧
      ∃ w i x, OD.get (weights st) fidx = Some w ∧
               edgeindex !! gidx = Some i ∧ w !! i = Some x ∧
               edges st' = edges st ∧
               weights st' = OD.set (weights st) fidx (<[i := S x]> w))).
Proof.
  unfold inner_step. cbn [fst snd].
  destruct (register_edges g st) as [He Hw]. rewrite He, Hw.
  intros Hrun. apply bind_Ok in Hrun as (gidx & Hg & Hrun).
  unfold gm_getitem in Hg.
  destruct (known_files_to_index (register g st) !! g) as [gi|] eqn:Hgi;
    [|discriminate]. injection Hg as ->.
  apply bind_Ok in Hrun as (st1 & Hbranch & Hret). injection Hret as <- <-.
  exists gidx. split; [done|].
  destruct (ec !! gidx) as [c|] eqn:Hc.
  - apply bind_Ok in Hbranch as (w & Hgw & Hbranch).
    apply ODFacts.getitem_Ok in Hgw.
    apply bind_Ok in Hbranch as (i & Hi & Hbranch). unfold gm_getitem in Hi.
    destruct (edgeindex !! gidx) as [i'|] eqn:Hei; [|discriminate].
    injection Hi as ->.
    apply bind_Ok in Hbranch as (w' & Hincr & Hret). injection Hret as <-.
    unfold array_incr in Hincr. destruct (w !! i) as [x|] eqn:Hx; [|discriminate].
    destruct (fits_uint (S x)); [|discriminate]. injection Hincr as <-.
    cbn. repeat split. right. split; [by eauto|]. by exists w, i, x.
  - apply bind_Ok in Hbranch as (e & Hge & Hbranch).
    apply ODFacts.getitem_Ok in Hge.
    apply bind_Ok in Hbranch as (e' & Happ & Hbranch).
    unfold array_append in Happ. destruct (fits_uint gidx); [|discriminate].
    injection Happ as <-.
    apply bind_Ok in Hbranch as (w & Hgw & Hbranch).
    apply ODFacts.getitem_Ok in Hgw.
    apply bind_Ok in Hbranch as (w' & Happ & Hret). injection Hret as <-.
    unfold array_append in Happ. destruct (fits_uint 1); [|discriminate].
    injection Happ as <-.
    cbn. repeat split. left. split; [done|]. by exists e, w.
Qed.

Section inner_loop.
Context (fidx : nat) (edgeindex : gmap nat nat).
Context (st2 : graph_state) (ec0 : gmap nat nat).

Lemma inner_loop_inv (gs : list string) (acc' : graph_state * gmap nat nat) :
  index_ok st2 →
  for_each (inner_step fidx edgeindex) gs (st2, ec0) = Ok acc' →
  inner_inv fidx st2 gs acc'.
Proof.
  intros Hok2. apply (for_each_invariant (inner_inv fidx st2)).
  - unfold inner_inv. cbn [fst].
    split; [done|]. split; [done|]. split; [apply index_le_refl|].
    split; [done|]. split; [done|]. intros i nbrs j Hin Hj. left. eauto.
  - intros done g [st ec] [st' ec'] (Hok & Hknown & Hle & Hke & Hkw & Hattr) _ Hstep.
    cbn [fst] in *.
    apply inner_step_inv in Hstep
      as (gidx & Hg & Hkfi & Hkn & _ & Hbranch).
    assert (index_le st st') as Hle'.
    { intros f i Hf. rewrite Hkfi. by apply register_lookup_mono. }
    assert (known_files_to_index st' !! g = Some gidx) as Hg' by by rewrite Hkfi.
    unfold inner_inv. cbn [fst]. split; [|split; [|split; [|split; [|split]]]].
    + intros f i. rewrite Hkfi, Hkn. by apply register_index_ok.
    + rewrite Hkn, register_known, Hknown by done.
      by rewrite <- first_seen_from_app.
    + by eapply index_le_trans.
    + destruct Hbranch as [(_ & e & w & He & Hw & -> & _)
                          |(_ & w & ix & x & _ & _ & _ & -> & _)]; [|done].
      rewrite ODFacts.keys_set_present; [done|]. by eapply get_Some_key.
    + destruct Hbranch as [(_ & e & w & He & Hw & _ & ->)
                          |(_ & w & ix & x & Hw & _ & _ & _ & ->)];
        (rewrite ODFacts.keys_set_present; [done|]; by eapply get_Some_key).
    + assert (∀ i nbrs j, (i, nbrs) ∈ edges st → j ∈ nbrs →
               (∃ nbrs0, (i, nbrs0) ∈ edges st2 ∧ j ∈ nbrs0) ∨
               (i = fidx ∧ ∃ g0, g0 ∈ done ++ [g] ∧
                                 known_files_to_index st' !! g0 = Some j))
        as Hold.
      { intros i nbrs j Hin Hj.
        destruct (Hattr i nbrs j Hin Hj) as [?|(-> & g0 & Hg0 & Hj0)];
          [by left|].
        right. split; [done|]. exists g0. split; [set_solver|by apply Hle']. }
      destruct Hbranch as [(_ & e & w & He & Hw & -> & _)
                          |(_ & w & ix & x & _ & _ & _ & -> & _)]; [|done].
      intros i nbrs j Hin Hj.
      apply elem_of_set_1 in Hin as [[-> ->]|Hin]; [|by eapply Hold].
      apply elem_of_app in Hj as [Hj|Hj].
      * eapply Hold; [|done]. by apply ODFacts.get_Some_elem.
      * apply list_elem_of_singleton in Hj as ->. right. split; [done|].
        exists g. split; [set_solver|done].
Qed.
End inner_loop.

Lemma index_le_length (st st' : graph_state) (i : nat) :
  index_ok st → index_ok st' → index_le st st' →
  i < length (known_files st) → i < length (known_files st').
Proof.
  intros Hok Hok' Hle Hi. apply lookup_lt_is_Some_2 in Hi as [h Hh].
  apply Hok, Hle, Hok' in Hh. by eapply lookup_lt_Some.
Qed.

Lemma outer_step_ok (P : list (list string)) (files : list string)
    (st0 : graph_state) (f : string) (st' : graph_state) :
  outer_step files st0 f = Ok st' → files ∈ P → f ∈ files → state_ok P st0 →
  state_ok P st' ∧
  known_files st' = first_seen_from (known_files st0) (f :: files) ∧
  index_le st0 st' ∧
  (∀ i, i ∈ OD.keys (edges st0) → i ∈ OD.keys (edges st')) ∧
  (∃ fidx, known_files_to_index st' !! f = Some fidx ∧
           fidx ∈ OD.keys (edges st')).
Proof.
  intros Hrun HP Hf (Hok0 & Hkeys0 & Hnd0 & Hbound0 & Hattr0).
  unfold outer_step in Hrun.
  apply bind_Ok in Hrun as (fidx & Hfidx & Hrun). unfold gm_getitem in Hfidx.
  destruct (known_files_to_index (register f st0) !! f) as [fi|] eqn:Hfi;
    [|discriminate]. injection Hfidx as ->.
  destruct (register_edges f st0) as [He1 Hw1].
  pose proof (register_index_ok f st0 Hok0) as Hok1.
  set (st1 := register f st0) in *.
  set (st2 := match OD.get (edges st1) fidx with
              | Some _ => st1
              | None => GraphState (known_files_to_index st1) (known_files st1)
                          (OD.set (edges st1) fidx [])
                          (OD.set (weights st1) fidx [])
              end) in *.
  assert (known_files_to_index st2 = known_files_to_index st1 ∧
          known_files st2 = known_files st1) as [Hkfi2 Hkn2].
  { unfold st2. by destruct (OD.get (edges st1) fidx). }
  assert (index_ok st2) as Hok2.
  { intros h i. rewrite Hkfi2, Hkn2. apply Hok1. }
  assert (fidx < length (known_files st1)) as Hfidx.
  { apply Hok1 in Hfi. by eapply lookup_lt_Some. }
  assert (OD.keys (edges st2) = OD.keys (weights st2) ∧
          NoDup (OD.keys (edges st2)) ∧
          fidx ∈ OD.keys (edges st2) ∧
          (∀ i, i ∈ OD.keys (edges st2) ↔ i ∈ OD.keys (edges st0) ∨ i = fidx) ∧
          (∀ i nbrs j, (i, nbrs) ∈ edges st2 → j ∈ nbrs → (i, nbrs) ∈ edges st0))
    as (Hkeys2 & Hnd2 & Hin2 & Hk2 & He2).
  { unfold st2. destruct (OD.get (edges st1) fidx) as [e|] eqn:Hget.
    - rewrite He1, Hw1. rewrite He1 in Hget. apply get_Some_key in Hget.
      repeat split; try done; [set_solver|by intros [?| ->]].
    - cbn [edges weights]. rewrite He1, Hw1. rewrite He1 in Hget.
      apply ODFacts.get_None in Hget.
      rewrite !ODFacts.set_fresh by (by rewrite <- ?Hkeys0).
      unfold OD.keys in *. rewrite !fmap_app, Hkeys0. cbn.
      split; [done|]. split.
      { rewrite <- Hkeys0. apply NoDup_app.
        split; [done|]. split; [set_solver|apply NoDup_singleton]. }
      split; [set_solver|]. split; [set_solver|].
      intros i nbrs j Hin Hj. apply elem_of_app in Hin as [Hin|Hin]; [done|].
      apply list_elem_of_singleton in Hin. injection Hin as -> ->.
      by apply not_elem_of_nil in Hj. }
  apply bind_Ok in Hrun as (e & _ & Hrun).
  apply bind_Ok in Hrun as (w & _ & Hrun).
  apply bind_Ok in Hrun as ([st ec] & Hloop & Hret). injection Hret as <-.
  apply inner_loop_inv in Hloop
    as (Hok & Hknown & Hle & Hke & Hkw & Hattr); [|done].
  cbn [fst] in *.
  assert (index_le st0 st) as Hle0.
  { intros h i Hh. apply Hle. rewrite Hkfi2. by apply register_lookup_mono. }
  assert (known_files_to_index st !! f = Some fidx) as Hfst.
  { apply Hle. by rewrite Hkfi2. }
  split; [|split; [|split; [|split]]].
  - split; [done|]. split; [by rewrite Hke, Hkw|].
    split; [by rewrite Hke|]. split.
    + intros i. rewrite Hke, Hk2. intros [Hi| ->].
      * by eapply (index_le_length st0), Hbound0.
      * eapply (index_le_length st2); try done. by rewrite Hkn2.
    + intros i nbrs j Hin Hj.
      destruct (Hattr i nbrs j Hin Hj) as [(nbrs0 & Hin0 & Hj0)|(-> & g & Hg & Hgj)].
      * destruct (Hattr0 i nbrs0 j (He2 _ _ _ Hin0 Hj0) Hj0)
          as (fs & f1 & g1 & ? & ? & ? & ? & ?).
        exists fs, f1, g1. repeat split; try done; by apply Hle0.
      * exists files, f, g. done.
  - rewrite Hknown, Hkn2. unfold st1. rewrite register_known by done.
    by rewrite <- first_seen_from_app.
  - done.
  - intros i Hi. rewrite Hke, Hk2. by left.
  - exists fidx. split; [done|]. by rewrite Hke.
Qed.

Lemma state_ok_mono (P P' : list (list string)) (st : graph_state) :
  (∀ files, files ∈ P → files ∈ P') → state_ok P st → state_ok P' st.
Proof.
  intros Hsub (Hok & Hkeys & Hnd & Hbound & Hattr).
  repeat (split; [done|]). intros i nbrs j Hin Hj.
  destruct (Hattr i nbrs j Hin Hj) as (fs & f & g & ? & ?).
  exists fs, f, g. split; [by apply Hsub|done].
Qed.

(** The loop [for f in files], stopped after the files [l]. *)
Lemma outer_loop_ok (P : list (list string)) (files l : list string)
    (st st' : graph_state) :
  for_each (outer_step files) l st = Ok st' →
  files ∈ P → (∀ f, f ∈ l → f ∈ files) → state_ok P st →
  state_ok P st' ∧
  known_files st' = first_seen_from (known_files st)
                      (concat ((λ f, f :: files) <$> l)) ∧
  index_le st st' ∧
  (∀ i, i ∈ OD.keys (edges st) → i ∈ OD.keys (edges st')) ∧
  (∀ h, h ∈ l → ∃ i, known_files_to_index st' !! h = Some i ∧
                     i ∈ OD.keys (edges st')).
Proof.
  intros Hrun HP Hsub Hst.
  apply (for_each_invariant (λ done s,
    state_ok P s ∧
    known_files s = first_seen_from (known_files st)
                      (concat ((λ f, f :: files) <$> done)) ∧
    index_le st s ∧
    (∀ i, i ∈ OD.keys (edges st) → i ∈ OD.keys (edges s)) ∧
    (∀ h, h ∈ done → ∃ i, known_files_to_index s !! h = Some i ∧
                          i ∈ OD.keys (edges s)))
    (outer_step files) l st st'); [| |done].
  - split; [done|]. split; [done|]. split; [apply index_le_refl|].
    split; [done|]. by intros h ?%not_elem_of_nil.
  - intros done f s1 s2 (Hs1 & Hk1 & Hle1 & Hmono1 & Hdone1) Hf Hstep.
    destruct (outer_step_ok P files s1 f s2 Hstep HP (Hsub f Hf) Hs1)
      as (Hs2 & Hk2 & Hle2 & Hmono2 & fidx & Hfidx & Hfin).
    split; [done|]. split; [|split; [|split]].
    + rewrite Hk2, Hk1, <- first_seen_from_app.
      rewrite fmap_app, concat_app. do 2 f_equal. cbn. by rewrite app_nil_r.
    + by eapply index_le_trans.
    + auto.
    + intros h Hh. apply elem_of_app in Hh as [Hh|Hh].
      * destruct (Hdone1 h Hh) as (i & Hi & Hin). exists i. auto.
      * apply list_elem_of_singleton in Hh as ->. eauto.
Qed.

(** The loop [for f in files] of one retained issue. *)
Lemma issue_files_ok (P : list (list string)) (files : list string)
    (st st' : graph_state) :
  for_each (outer_step files) files st = Ok st' →
  files ∈ P → state_ok P st → complete st →
  state_ok P st' ∧ complete st' ∧
  known_files st' = first_seen_from (known_files st) files ∧
  index_le st st'.
Proof.
  intros Hrun HP Hst Hcomplete.
  destruct (outer_loop_ok P files files st st' Hrun HP (λ _ H, H) Hst)
    as (Hst' & Hknown & Hle & Hmono & Hdone).
  rewrite first_seen_from_issue in Hknown.
  split; [done|]. split; [|done].
  destruct Hst as (Hok & _). destruct Hst' as (Hok' & _).
  intros i Hi. apply lookup_lt_is_Some_2 in Hi as [h Hh].
  assert (h ∈ known_files st') as Hin by by eapply list_elem_of_lookup_2.
  rewrite Hknown in Hin. apply elem_of_first_seen_from in Hin as [Hin|Hin].
  - apply list_elem_of_lookup in Hin as [i0 Hi0].
    assert (i0 = i) as <-.
    { apply Hok, Hle in Hi0. apply Hok' in Hh. congruence. }
    apply Hmono, Hcomplete. by eapply lookup_lt_Some.
  - destruct (Hdone h Hin) as (i' & Hi' & Hin').
    apply Hok' in Hh. congruence.
Qed.

(** The state after the accumulation loop (lines 177-214). *)
Lemma accumulate_ok (values : list (list string)) (st : graph_state) :
  accumulate values = Ok st →
  state_ok (filter (λ files, length files ≤ threshold) values) st ∧
  complete st ∧
  known_files st =
    first_seen (concat (filter (λ files, length files ≤ threshold) values)).
Proof.
  unfold accumulate.
  apply (for_each_invariant (λ done s,
    state_ok (filter (λ files, length files ≤ threshold) done) s ∧
    complete s ∧
    known_files s =
      first_seen (concat (filter (λ files, length files ≤ threshold) done)))).
  - split; [|split; [|done]].
    + split; [apply index_ok_initial|]. split; [done|].
      split; [constructor|]. split; [by intros i ?%not_elem_of_nil|].
      by intros i nbrs j ?%not_elem_of_nil.
    + intros i Hi. cbn in Hi. lia.
  - intros done files s1 s2 (Hs1 & Hc1 & Hk1) _ Hstep.
    unfold issue_step in Hstep. rewrite filter_app.
    destruct (threshold <? length files) eqn:Hlen.
    + injection Hstep as <-. apply Nat.ltb_lt in Hlen.
      rewrite (filter_cons_False _ files []) by lia.
      by rewrite filter_nil, app_nil_r.
    + apply Nat.ltb_ge in Hlen.
      rewrite (filter_cons_True _ files []), filter_nil by done.
      destruct (issue_files_ok
                  (filter (λ files, length files ≤ threshold) done ++ [files])
                  files s1 s2 Hstep)
        as (Hs2 & Hc2 & Hk2 & _); [set_solver| |done|].
      * eapply state_ok_mono; [|done]. set_solver.
      * split; [done|]. split; [done|].
        rewrite Hk2, Hk1. unfold first_seen.
        rewrite <- first_seen_from_app, concat_app. do 2 f_equal. cbn.
        by rewrite app_nil_r.
Qed.

(** ** Finalization and the returned graph *)

Lemma finalize_step_inv (E W E' W' : odict nat (list nat)) (k : nat) :
  finalize_step (E, W) k = Ok (E', W') →
  ∃ v w w', OD.get E k = Some v ∧ OD.get W k = Some w ∧
            E' = OD.set E k (sorted Nat.ltb v) ∧
            sorted_key array_lt (λ x, OD.getitem E' x) w = Ok w' ∧
            W' = OD.set W k w'.
Proof.
  unfold finalize_step. cbn [fst snd]. intros Hrun.
  apply bind_Ok in Hrun as (v & Hv & Hrun). apply ODFacts.getitem_Ok in Hv.
  apply bind_Ok in Hrun as (w & Hw & Hrun). apply ODFacts.getitem_Ok in Hw.
  apply bind_Ok in Hrun as (w' & Hw' & Hret). injection Hret as <- <-.
  by exists v, w, w'.
Qed.

(** The loop of lines 215-219 keeps the keys of both dictionaries and
    rearranges each neighbour sequence. *)
Lemma finalize_loop_inv (E0 W0 : odict nat (list nat)) (ks : list nat)
    (ew : odict nat (list nat) * odict nat (list nat)) :
  for_each finalize_step ks (E0, W0) = Ok ew →
  OD.keys ew.1 = OD.keys E0 ∧ OD.keys ew.2 = OD.keys W0 ∧
  ∀ i nbrs, (i, nbrs) ∈ ew.1 → ∃ nbrs0, (i, nbrs0) ∈ E0 ∧ nbrs ≡ₚ nbrs0.
Proof.
  apply (for_each_invariant (λ _ ew,
    OD.keys ew.1 = OD.keys E0 ∧ OD.keys ew.2 = OD.keys W0 ∧
    ∀ i nbrs, (i, nbrs) ∈ ew.1 → ∃ nbrs0, (i, nbrs0) ∈ E0 ∧ nbrs ≡ₚ nbrs0)).
  - split; [done|]. split; [done|]. intros i nbrs Hin. by exists nbrs.
  - intros _ k [E W] [E' W'] (HkE & HkW & Hperm) _ Hstep. cbn [fst snd] in *.
    apply finalize_step_inv in Hstep as (v & w & w' & Hv & Hw & -> & _ & ->).
    split; [|split].
    + rewrite ODFacts.keys_set_present; [done|]. by eapply get_Some_key.
    + rewrite ODFacts.keys_set_present; [done|]. by eapply get_Some_key.
    + intros i nbrs Hin. apply elem_of_set_1 in Hin as [[-> ->]|Hin]; [|auto].
      destruct (Hperm k v (ODFacts.get_Some_elem _ _ _ Hv)) as (nbrs0 & ? & Hp).
      exists nbrs0. split; [done|]. by rewrite sorted_Permutation.
Qed.

Lemma Sorted_seq (a n : nat) : Sorted le (seq a n).
Proof.
  revert a. induction n as [|n IH]; intros a; cbn; [constructor|].
  constructor; [apply IH|]. destruct n; cbn; constructor. lia.
Qed.

(** [sorted(d.items())] for a dictionary whose keys are the first [n]
    numbers lists them in ascending order. *)
Lemma sorted_items_keys (d : odict nat (list nat)) (n : nat) :
  NoDup (OD.keys d) → (∀ i, i ∈ OD.keys d ↔ i < n) →
  (sorted item_lt d).*1 = seq 0 n.
Proof.
  unfold OD.keys. intros Hnd Hdom. apply (Sorted_unique le).
  - apply (Sorted_fmap fst (λ s t : nat * list nat, s.1 ≤ t.1)); [done|].
    apply Sorted_sorted; intros x y; unfold item_lt;
      destruct (y.1 =? x.1) eqn:Heq.
    + apply Nat.eqb_eq in Heq. lia.
    + intros ?%Nat.ltb_ge. lia.
    + apply Nat.eqb_eq in Heq. lia.
    + intros ?%Nat.ltb_lt. lia.
  - apply Sorted_seq.
  - rewrite sorted_Permutation. apply NoDup_Permutation; [done|apply NoDup_seq|].
    intros i. rewrite Hdom, elem_of_seq. lia.
Qed.

Lemma skip_over_threshold (values : list (list string)) (st : graph_state) :
  for_each issue_step values st =
  for_each issue_step (filter (λ files, length files ≤ threshold) values) st.
Proof.
  revert st. induction values as [|files values IH]; intros st; [done|].
  cbn [for_each]. destruct (threshold <? length files) eqn:Hlen.
  - assert (issue_step st files = Ok st) as ->
      by (unfold issue_step; by rewrite Hlen).
    apply Nat.ltb_lt in Hlen. rewrite filter_cons_False by lia. apply IH.
  - apply Nat.ltb_ge in Hlen. rewrite filter_cons_True by done.
    cbn [for_each]. destruct (issue_step st files); cbn; [apply IH|done].
Qed.

Lemma values_filter (aggregated : odict string (list string)) :
  OD.values (filter (λ kv, length kv.2 ≤ threshold) aggregated) =
  filter (λ files, length files ≤ threshold) (OD.values aggregated).
Proof.
  unfold OD.values. induction aggregated as [|[k files] agg IH]; [done|].
  cbn [fmap list_fmap]. destruct (decide (length files ≤ threshold)).
  - rewrite !filter_cons_True by done. cbn. by rewrite <- IH.
  - rewrite !filter_cons_False by done. exact IH.
Qed.

Lemma elem_of_retained (aggregated : odict string (list string))
    (files : list string) :
  files ∈ retained_issues aggregated ↔
  length files ≤ threshold ∧ ∃ key, (key, files) ∈ aggregated.
Proof.
  unfold retained_issues, OD.values.
  rewrite list_elem_of_filter, list_elem_of_fmap. split.
  - intros [? ([k fs] & -> & ?)]. eauto.
  - intros [? [k ?]]. split; [done|]. by exists (k, files).
Qed.

(** What a returned graph inherits from the accumulated state. *)
Lemma correlate_Ok (aggregated : odict string (list string))
    (known : list string) (E W : odict nat (list nat)) :
  correlate_files_with_each_other aggregated = Ok (known, E, W) →
  ∃ st E' W',
    accumulate (OD.values aggregated) = Ok st ∧
    for_each finalize_step (OD.keys (edges st)) (edges st, weights st)
      = Ok (E', W') ∧
    known = known_files st ∧ E = sorted item_lt E' ∧ W = sorted item_lt W'.
Proof.
  unfold correlate_files_with_each_other, finalize. intros Hrun.
  apply bind_Ok in Hrun as (st & Hacc & Hrun).
  apply bind_Ok in Hrun as ([E' W'] & Hfin & Hret).
  injection Hret as <- <- <-. by exists st, E', W'.
Qed.

(** The entries of a returned graph are listed for the ids 0, 1, ... *)
Lemma returned_keys (aggregated : odict string (list string))
    (known : list string) (E W : odict nat (list nat)) :
  correlate_files_with_each_other aggregated = Ok (known, E, W) →
  E.*1 = seq 0 (length known) ∧ W.*1 = seq 0 (length known).
Proof.
  intros Hrun.
  apply correlate_Ok in Hrun as (st & E' & W' & Hacc & Hfin & -> & -> & ->).
  apply accumulate_ok in Hacc
    as ((Hok & Hkeys & Hnd & Hbound & Hattr) & Hcomplete & Hknown).
  apply finalize_loop_inv in Hfin as (HkE & HkW & Hperm).
  cbn [fst snd] in *.
  assert (∀ i, i ∈ OD.keys (edges st) ↔ i < length (known_files st)) as Hdom.
  { intros i. split; [apply Hbound|apply Hcomplete]. }
  split; apply sorted_items_keys; by rewrite ?HkE, ?HkW, <- ?Hkeys.
Qed.

(** C4: an issue with more than 300 files leaves no trace.  The result
    (returned graph or raised exception) is the result for the input
    without the issues above the threshold; and whenever a graph is
    returned, every known file belongs to an entry of the input with at
    most 300 files, and every neighbour pair consists of two files of one
    such entry. *)
Theorem skipped_issues_leave_no_trace
    (aggregated : odict string (list string)) :
  correlate_files_with_each_other aggregated =
    correlate_files_with_each_other
      (filter (λ kv, length kv.2 ≤ threshold) aggregated) ∧
  ∀ known E W,
    correlate_files_with_each_other aggregated = Ok (known, E, W) →
    (∀ f, f ∈ known →
       ∃ key files, (key, files) ∈ aggregated ∧ length files ≤ threshold ∧
                    f ∈ files) ∧
    (∀ i nbrs j, (i, nbrs) ∈ E → j ∈ nbrs →
       ∃ key files f g,
         (key, files) ∈ aggregated ∧ length files ≤ threshold ∧
         f ∈ files ∧ g ∈ files ∧
         known !! i = Some f ∧ known !! j = Some g).
Proof.
  split.
  - unfold correlate_files_with_each_other, accumulate.
    by rewrite values_filter, <- skip_over_threshold.
  - intros known E W Hrun.
    apply correlate_Ok in Hrun as (st & E' & W' & Hacc & Hfin & -> & -> & ->).
    apply accumulate_ok in Hacc as ((Hok & _ & _ & _ & Hattr) & _ & Hknown).
    apply finalize_loop_inv in Hfin as (_ & _ & Hperm). cbn [fst] in Hperm.
    split.
    + intros f Hf. rewrite Hknown in Hf.
      apply elem_of_first_seen_from in Hf as [Hf|Hf];
        [by apply not_elem_of_nil in Hf|].
      apply elem_of_concat in Hf as (files & Hf & Hfiles).
      apply (elem_of_retained aggregated) in Hfiles as [Hlen [key Hin]].
      by exists key, files.
    + intros i nbrs j Hin Hj. apply elem_of_sorted in Hin.
      destruct (Hperm i nbrs Hin) as (nbrs0 & Hin0 & Hp).
      rewrite Hp in Hj.
      destruct (Hattr i nbrs0 j Hin0 Hj) as (files & f & g & Hfiles & Hf & Hg & Hi & Hgj).
      apply (elem_of_retained aggregated) in Hfiles as [Hlen [key Hfiles]].
      exists key, files, f, g. repeat (split; [done|]).
      split; by apply Hok.
Qed.

Lemma skipped_issues_leave_no_trace_witness :
  correlate_files_with_each_other with_large_issue =
    correlate_files_with_each_other scenario_A ∧
  (∀ f, f ∈ ["A"; "B"; "C"; "D"] →
     ∃ key files, (key, files) ∈ with_large_issue ∧ length files ≤ threshold ∧
                  f ∈ files).
Proof.
  destruct (skipped_issues_leave_no_trace with_large_issue) as [Heq Hres].
  split.
  - exact Heq.
  - refine (proj1 (Hres ["A"; "B"; "C"; "D"]
                     [(0, [0; 1; 2; 3]); (1, [0; 1; 2]); (2, [0; 1; 2]); (3, [0; 3])]
                     [(0, [2; 1; 1; 1]); (1, [1; 1; 1]); (2, [1; 1; 1]); (3, [1; 1])]
                     _)).
    vm_compute. reflexivity.
Defined.

(** C9: the returned graph depends on the sequence of file tuples alone,
    and the node numbering is the order of first occurrence: the node list
    is the sequence of distinct files of the retained issues in the order in
    which they first occur, node ids are the positions in that list, the
    adjacency and weight entries are listed for the ids 0, 1, ... in
    ascending order, and every neighbour is such an id. *)
Theorem node_ids_in_first_seen_order :
  (∀ a1 a2 : odict string (list string),
     OD.values a1 = OD.values a2 →
     correlate_files_with_each_other a1 = correlate_files_with_each_other a2) ∧
  (∀ aggregated known E W,
     correlate_files_with_each_other aggregated = Ok (known, E, W) →
     known = first_seen (concat (retained_issues aggregated)) ∧
     NoDup known ∧
     E.*1 = seq 0 (length known) ∧
     W.*1 = seq 0 (length known) ∧
     ∀ i nbrs j, (i, nbrs) ∈ E → j ∈ nbrs → j < length known).
Proof.
  split.
  - intros a1 a2 Heq. unfold correlate_files_with_each_other. by rewrite Heq.
  - intros aggregated known E W Hrun.
    destruct (returned_keys _ _ _ _ Hrun) as [HE HW].
    apply correlate_Ok in Hrun as (st & E' & W' & Hacc & Hfin & -> & -> & ->).
    apply accumulate_ok in Hacc
      as ((Hok & Hkeys & Hnd & Hbound & Hattr) & Hcomplete & Hknown).
    apply finalize_loop_inv in Hfin as (HkE & HkW & Hperm).
    cbn [fst snd] in *.
    split; [exact Hknown|]. split; [|split; [|split]].
    + rewrite Hknown. apply NoDup_first_seen_from. constructor.
    + exact HE.
    + exact HW.
    + intros i nbrs j Hin Hj. apply elem_of_sorted in Hin.
      destruct (Hperm i nbrs Hin) as (nbrs0 & Hin0 & Hp). rewrite Hp in Hj.
      destruct (Hattr i nbrs0 j Hin0 Hj) as (_ & _ & g & _ & _ & _ & _ & Hg).
      apply Hok in Hg. by eapply lookup_lt_Some.
Qed.

Lemma node_ids_in_first_seen_order_witness :
  first_seen (concat (retained_issues out_of_order_input)) = ["B"; "C"; "A"] ∧
  ∃ known E W,
    correlate_files_with_each_other out_of_order_input = Ok (known, E, W) ∧
    known = first_seen (concat (retained_issues out_of_order_input)) ∧
    E.*1 = seq 0 (length known) ∧ W.*1 = seq 0 (length known).
Proof.
  split; [vm_compute; reflexivity|].
  assert (correlate_files_with_each_other out_of_order_input =
          Ok (["B"; "C"; "A"],
              [(0, [0; 1; 2]); (1, [0; 1]); (2, [0; 2])],
              [(0, [1; 1; 2]); (1, [1; 1]); (2, [1; 1])])) as Hrun
    by (vm_compute; reflexivity).
  eexists _, _, _. split; [exact Hrun|].
  destruct (proj2 node_ids_in_first_seen_order _ _ _ _ Hrun)
    as (Hk & _ & HE & HW & _).
  auto.
Defined.

(** ** The accumulated weights *)

Lemma entry_weight_absent (e w : list nat) (j : nat) :
  j ∉ e → entry_weight e w j = 0.
Proof.
  revert w. induction e as [|j' e IH]; intros [|x w] Hj; cbn; try done.
  rewrite decide_False by set_solver. apply IH. set_solver.
Qed.

Lemma entry_weight_lookup (e w : list nat) (k j x : nat) :
  NoDup e → e !! k = Some j → w !! k = Some x → entry_weight e w j = x.
Proof.
  revert w k. induction e as [|j' e IH]; intros [|x' w] [|k] Hnd He Hw;
    try done; cbn in *; apply NoDup_cons in Hnd as [Hj' Hnd].
  - injection He as ->. injection Hw as ->. by rewrite decide_True.
  - rewrite decide_False; [by eapply IH|].
    intros ->. apply Hj'. by eapply list_elem_of_lookup_2.
Qed.

Lemma entry_weight_positive (e w : list nat) (j : nat) :
  entry_ok e w → j ∈ e ↔ 0 < entry_weight e w j.
Proof.
  intros (Hlen & Hnd & Hpos). split.
  - intros Hj. apply list_elem_of_lookup in Hj as [k Hk].
    destruct (lookup_lt_is_Some_2 w k) as [x Hx].
    { rewrite <- Hlen. by eapply lookup_lt_Some. }
    rewrite (entry_weight_lookup e w k j x) by done.
    rewrite Forall_forall in Hpos. apply Hpos. by eapply list_elem_of_lookup_2.
  - intros Hw. destruct (decide (j ∈ e)) as [|Hj]; [done|].
    rewrite entry_weight_absent in Hw by done. lia.
Qed.

Lemma entry_weight_snoc (e w : list nat) (j c j' : nat) :
  length e = length w → j ∉ e →
  entry_weight (e ++ [j]) (w ++ [c]) j' =
  entry_weight e w j' + (if decide (j' = j) then c else 0).
Proof.
  revert w. induction e as [|j0 e IH]; intros [|x w] Hlen Hj; try done; cbn.
  cbn in Hlen. destruct (decide (j' = j0)) as [->|Hne].
  - rewrite decide_False by set_solver. lia.
  - apply IH; [lia|set_solver].
Qed.

Lemma entry_weight_insert (e w : list nat) (i j y j' : nat) :
  NoDup e → e !! i = Some j → i < length w →
  entry_weight e (<[i := y]> w) j' =
  if decide (j' = j) then y else entry_weight e w j'.
Proof.
  revert w i. induction e as [|j0 e IH]; intros [|x w] [|i] Hnd He Hi;
    try done; cbn in *; try lia; apply NoDup_cons in Hnd as [Hj0 Hnd].
  - injection He as ->. by destruct (decide (j' = j)).
  - destruct (decide (j' = j0)) as [->|Hne].
    + rewrite decide_False; [done|].
      intros <-. apply Hj0. by eapply list_elem_of_lookup_2.
    + apply IH; [done..|lia].
Qed.

Lemma make_edgecounter_dom (e w : list nat) (j : nat) :
  length e = length w → is_Some (make_edgecounter e w !! j) ↔ j ∈ e.
Proof.
  unfold make_edgecounter. intros Hlen.
  assert (∀ m : gmap nat nat,
            is_Some (foldl (λ m tw, <[tw.1 := tw.2]> m) m (zip e w) !! j) ↔
            is_Some (m !! j) ∨ j ∈ e) as Hgen.
  { revert w Hlen. induction e as [|j' e IH]; intros [|x w] Hlen m;
      try done; cbn.
    - set_solver.
    - rewrite IH by (cbn in Hlen; lia). cbn.
      destruct (decide (j = j')) as [->|Hne].
      + rewrite lookup_insert_eq. set_solver.
      + rewrite lookup_insert_ne by done. set_solver. }
  rewrite Hgen, lookup_empty. split; [intros [[? [=]]|?]; done|by right].
Qed.

Lemma make_edgeindex_lookup (e : list nat) (j i : nat) :
  make_edgeindex e !! j = Some i → e !! i = Some j.
Proof.
  unfold make_edgeindex.
  assert (∀ (a : nat) (m : gmap nat nat),
            foldl (λ m it, <[it.2 := it.1]> m) m (zip (seq a (length e)) e) !! j
              = Some i →
            m !! j = Some i ∨ (a ≤ i ∧ e !! (i - a) = Some j)) as Hgen.
  { induction e as [|j' e IH]; intros a m; cbn; [by left|].
    intros Hl. apply IH in Hl as [Hl|[Ha Hl]].
    - cbn in Hl. destruct (decide (j' = j)) as [->|Hne].
      + rewrite lookup_insert_eq in Hl. injection Hl as <-.
        right. split; [done|]. by rewrite Nat.sub_diag.
      + rewrite lookup_insert_ne in Hl by done. by left.
    - right. split; [lia|].
      replace (i - a) with (S (i - S a)) by lia. done. }
  intros Hl. apply Hgen in Hl as [Hl|[_ Hl]].
  - by rewrite lookup_empty in Hl.
  - by rewrite Nat.sub_0_r in Hl.
Qed.

Lemma hits_snoc (st : graph_state) (l : list string) (g : string) (j : nat) :
  hits st (l ++ [g]) j =
  hits st l j + (if decide (known_files_to_index st !! g = Some j) then 1 else 0).
Proof.
  unfold hits. rewrite filter_app, length_app. f_equal.
  destruct (decide (known_files_to_index st !! g = Some j)).
  - by rewrite filter_cons_True.
  - by rewrite filter_cons_False.
Qed.

Lemma filter_ext_elem {A : Type} (P Q : A → Prop) `{∀ x, Decision (P x)}
    `{∀ x, Decision (Q x)} (l : list A) :
  (∀ x, x ∈ l → P x ↔ Q x) → filter P l = filter Q l.
Proof.
  induction l as [|x l IH]; intros Hext; [done|].
  rewrite !filter_cons. rewrite IH by (intros; apply Hext; by right).
  destruct (decide (P x)) as [HP|HP], (decide (Q x)) as [HQ|HQ]; try done;
    exfalso; apply (Hext x (list_elem_of_here _ _)) in HP || apply HP;
    try done; by apply (Hext x (list_elem_of_here _ _)).
Qed.

Lemma hits_stable (st st' : graph_state) (l : list string) (j : nat) :
  index_le st st' →
  (∀ g, g ∈ l → is_Some (known_files_to_index st !! g)) →
  hits st' l j = hits st l j.
Proof.
  intros Hle Hreg. unfold hits. f_equal. apply filter_ext_elem.
  intros g Hg. destruct (Hreg g Hg) as [i Hi].
  rewrite Hi, (Hle g i Hi). done.
Qed.

Section inner_weights.
Context (fidx : nat) (e0 w0 : list nat) (st2 : graph_state).
Hypothesis edges2 : OD.get (edges st2) fidx = Some e0.
Hypothesis weights2 : OD.get (weights st2) fidx = Some w0.
Hypothesis entry2 : entry_ok e0 w0.

Lemma inner_loop_weights (gs : list string) (acc' : graph_state * gmap nat nat) :
  for_each (inner_step fidx (make_edgeindex e0)) gs
           (st2, make_edgecounter e0 w0) = Ok acc' →
  weights_inv fidx e0 w0 st2 gs acc'.
Proof.
  apply (for_each_invariant (weights_inv fidx e0 w0 st2)).
  - split; [by intros g ?%not_elem_of_nil|]. split; [done|].
    exists e0, w0. cbn [fst snd]. repeat (split; [done|]).
    split; [intros j; apply make_edgecounter_dom, entry2|].
    intros j. unfold hits. cbn. lia.
  - intros done g [st ec] [st' ec']
      (Hreg & Hother & e & w & He & Hw & (Hlen & Hnd & Hpos) & Hpre & Hdom & Hwt)
      _ Hstep.
    cbn [fst snd] in *.
    apply inner_step_inv in Hstep as (gidx & Hg & Hkfi & _ & -> & Hbranch).
    assert (index_le st st') as Hle.
    { intros f i Hf. rewrite Hkfi. by apply register_lookup_mono. }
    assert (∀ j, hits st' (done ++ [g]) j =
                 hits st done j + (if decide (j = gidx) then 1 else 0)) as Hhits.
    { intros j. rewrite hits_snoc, (hits_stable st st') by done.
      rewrite Hkfi, Hg. f_equal.
      destruct (decide (j = gidx)) as [->|Hne].
      - by rewrite decide_True.
      - rewrite decide_False; [done|]. congruence. }
    unfold weights_inv. cbn [fst snd]. split; [|split].
    + intros g' Hg'. apply elem_of_app in Hg' as [Hg'|Hg'].
      * destruct (Hreg g' Hg') as [i Hi]. exists i. by apply Hle.
      * apply list_elem_of_singleton in Hg' as ->. rewrite Hkfi. eauto.
    + intros i Hi. destruct (Hother i Hi) as [<- <-].
      destruct Hbranch as [(_ & e1 & w1 & _ & _ & -> & ->)
                          |(_ & w1 & ix & x & _ & _ & _ & -> & ->)];
        rewrite ?ODFacts.get_set_ne by done; done.
    + destruct Hbranch as [(Hnone & e1 & w1 & He1 & Hw1 & -> & ->)
                          |(Hsome & w1 & ix & x & Hw1 & Hix & Hx & -> & ->)].
      * rewrite He in He1. injection He1 as <-.
        rewrite Hw in Hw1. injection Hw1 as <-.
        assert (gidx ∉ e) as Hfresh.
        { intros Hin. apply Hdom in Hin. rewrite Hnone in Hin. by destruct Hin. }
        exists (e ++ [gidx]), (w ++ [1]). rewrite !ODFacts.get_set_eq.
        split; [done|]. split; [done|]. split; [|split; [|split]].
        -- split; [by rewrite !length_app, Hlen|]. split.
           ++ apply NoDup_app. split; [done|].
              split; [set_solver|apply NoDup_singleton].
           ++ apply Forall_app. split; [done|]. repeat constructor.
        -- by apply prefix_app_r.
        -- intros j. rewrite elem_of_app, list_elem_of_singleton, <- Hdom.
           destruct (decide (j = gidx)) as [->|Hne].
           ++ rewrite lookup_insert_eq. split; [by right|by eauto].
           ++ rewrite lookup_insert_ne by done. split; [by left|].
              by intros [?|?].
        -- intros j. rewrite entry_weight_snoc, Hwt, Hhits by done. lia.
      * rewrite Hw in Hw1. injection Hw1 as <-.
        assert (e !! ix = Some gidx) as Heix.
        { eapply prefix_lookup_Some; [|done]. by apply make_edgeindex_lookup. }
        assert (gidx ∈ e) as Hin by by eapply list_elem_of_lookup_2.
        exists e, (<[ix := S x]> w). rewrite ODFacts.get_set_eq.
        split; [done|]. split; [done|]. split; [|split; [|split]].
        -- split; [by rewrite length_insert|]. split; [done|].
           apply Forall_insert; [done|lia].
        -- done.
        -- intros j. rewrite <- Hdom.
           destruct (decide (j = gidx)) as [->|Hne].
           ++ rewrite lookup_insert_eq. split; [by intros _; apply Hdom|by eauto].
           ++ by rewrite lookup_insert_ne.
        -- intros j. rewrite (entry_weight_insert e w ix gidx);
             [|done..|by eapply lookup_lt_Some].
           rewrite Hhits. destruct (decide (j = gidx)) as [->|Hne].
           ++ pose proof (Hwt gidx) as Hold.
              rewrite (entry_weight_lookup e w ix gidx x) in Hold by done. lia.
           ++ rewrite Hwt. lia.
Qed.
End inner_weights.

Lemma outer_step_weights (P : list (list string)) (files : list string)
    (st0 : graph_state) (f : string) (st' : graph_state) :
  outer_step files st0 f = Ok st' → state_ok P st0 → entries_ok st0 →
  entries_ok st' ∧
  (∀ g, g ∈ files → is_Some (known_files_to_index st' !! g)) ∧
  ∃ fidx, known_files_to_index st' !! f = Some fidx ∧
    ∀ i j, node_weight st' i j =
           node_weight st0 i j + (if decide (i = fidx) then hits st' files j else 0).
Proof.
  intros Hrun (Hok0 & Hkeys0 & _) Hent0. unfold outer_step in Hrun.
  apply bind_Ok in Hrun as (fidx & Hfidx & Hrun). unfold gm_getitem in Hfidx.
  destruct (known_files_to_index (register f st0) !! f) as [fi|] eqn:Hfi;
    [|discriminate]. injection Hfidx as ->.
  destruct (register_edges f st0) as [He1 Hw1].
  pose proof (register_index_ok f st0 Hok0) as Hok1.
  set (st1 := register f st0) in *.
  set (st2 := match OD.get (edges st1) fidx with
              | Some _ => st1
              | None => GraphState (known_files_to_index st1) (known_files st1)
                          (OD.set (edges st1) fidx [])
                          (OD.set (weights st1) fidx [])
              end) in *.
  assert (known_files_to_index st2 = known_files_to_index st1 ∧
          known_files st2 = known_files st1) as [Hkfi2 Hkn2].
  { unfold st2. by destruct (OD.get (edges st1) fidx). }
  assert (index_ok st2) as Hok2.
  { intros h i. rewrite Hkfi2, Hkn2. apply Hok1. }
  assert ((∀ i, i ≠ fidx → OD.get (edges st2) i = OD.get (edges st0) i ∧
                           OD.get (weights st2) i = OD.get (weights st0) i) ∧
          ∃ e w, OD.get (edges st2) fidx = Some e ∧
                 OD.get (weights st2) fidx = Some w ∧
                 entry_ok e w ∧
                 ∀ j, node_weight st0 fidx j = entry_weight e w j)
    as (Hother2 & e & w & He2 & Hw2 & Hentry & Hnw).
  { unfold st2. destruct (OD.get (edges st1) fidx) as [e|] eqn:Hget.
    - rewrite He1, Hw1. split; [done|]. rewrite He1 in Hget.
      destruct (OD.get (weights st0) fidx) as [w|] eqn:Hgw.
      + exists e, w. repeat (split; [done|]). split; [by eapply Hent0|].
        intros j. unfold node_weight. by rewrite Hget, Hgw.
      + apply get_Some_key in Hget. apply ODFacts.get_None in Hgw.
        by rewrite Hkeys0 in Hget.
    - cbn [edges weights]. rewrite He1, Hw1. rewrite He1 in Hget.
      split; [intros i Hi; by rewrite !ODFacts.get_set_ne|].
      exists [], []. rewrite !ODFacts.get_set_eq.
      repeat (split; [done|]). split; [repeat constructor|].
      intros j. unfold node_weight. by rewrite Hget. }
  apply bind_Ok in Hrun as (e' & He' & Hrun). apply ODFacts.getitem_Ok in He'.
  apply bind_Ok in Hrun as (w' & Hw' & Hrun). apply ODFacts.getitem_Ok in Hw'.
  rewrite He2 in He'. injection He' as <-. rewrite Hw2 in Hw'. injection Hw' as <-.
  apply bind_Ok in Hrun as ([st ec] & Hloop & Hret). injection Hret as <-.
  pose proof (inner_loop_inv _ _ _ _ _ _ Hok2 Hloop) as (_ & _ & Hle & _).
  apply (inner_loop_weights fidx e w st2 He2 Hw2 Hentry) in Hloop
    as (Hreg & Hother & e' & w' & He' & Hw' & Hentry' & _ & _ & Hwt).
  cbn [fst snd] in *. split; [|split].
  - intros i e1 w1 Hge Hgw. destruct (decide (i = fidx)) as [->|Hne].
    + rewrite He' in Hge. injection Hge as <-.
      rewrite Hw' in Hgw. by injection Hgw as <-.
    + destruct (Hother i Hne) as [Hoe How]. destruct (Hother2 i Hne) as [Hoe2 How2].
      rewrite Hoe, Hoe2 in Hge. rewrite How, How2 in Hgw. by eapply Hent0.
  - done.
  - exists fidx. split; [apply Hle; by rewrite Hkfi2|].
    intros i j. destruct (decide (i = fidx)) as [->|Hne].
    + unfold node_weight at 1. rewrite He', Hw', Hwt, Hnw. done.
    + destruct (Hother i Hne) as [Hoe How]. destruct (Hother2 i Hne) as [Hoe2 How2].
      unfold node_weight. rewrite Hoe, Hoe2, How, How2. lia.
Qed.

(** The loop [for f in files], stopped after the files [l], has added,
    for every pair of ids, the product of the number of occurrences of the
    first file in [l] and of the second file in the tuple. *)
Lemma outer_loop_weights (P : list (list string)) (files l : list string)
    (st st' : graph_state) :
  for_each (outer_step files) l st = Ok st' →
  files ∈ P → (∀ f, f ∈ l → f ∈ files) → state_ok P st → entries_ok st →
  entries_ok st' ∧
  (l ≠ [] → ∀ g, g ∈ files → is_Some (known_files_to_index st' !! g)) ∧
  ∀ i j, node_weight st' i j =
         node_weight st i j + hits st' l i * hits st' files j.
Proof.
  intros Hrun HP Hsub Hst Hent.
  pose (Q := λ (done : list string) (s : graph_state),
    state_ok P s ∧ entries_ok s ∧
    (∀ g, g ∈ done → g ∈ files) ∧
    (done ≠ [] → ∀ g, g ∈ files → is_Some (known_files_to_index s !! g)) ∧
    ∀ i j, node_weight s i j =
           node_weight st i j + hits s done i * hits s files j).
  assert (Q l st') as (_ & Hent' & _ & Hreg & Hwt); [|done].
  apply (for_each_invariant Q (outer_step files) l st st'); [| |done].
  - split; [done|]. split; [done|].
    split; [by intros g ?%not_elem_of_nil|]. split; [done|].
    intros i j. unfold hits at 1. cbn. lia.
  - intros done f s1 s2 (Hs1 & He1 & Hsub1 & Hreg1 & Hw1) Hf Hstep.
    destruct (outer_step_ok P files s1 f s2 Hstep HP (Hsub f Hf) Hs1)
      as (Hs2 & _ & Hle & _).
    destruct (outer_step_weights P files s1 f s2 Hstep Hs1 He1)
      as (He2 & Hreg2 & fidx & Hfidx & Hw2).
    split; [done|]. split; [done|]. split; [set_solver|].
    split; [done|]. intros i j.
    rewrite Hw2, Hw1, hits_snoc, Hfidx.
    assert (hits s1 done i * hits s1 files j =
            hits s2 done i * hits s2 files j) as ->.
    { destruct done as [|g0 done]; [done|].
      rewrite (hits_stable s1 s2 (g0 :: done)), (hits_stable s1 s2 files);
        auto. }
    destruct (decide (i = fidx)) as [->|Hne].
    + rewrite decide_True by done. lia.
    + rewrite decide_False by congruence. lia.
Qed.

(** The loop [for f in files] of one retained issue adds, for every pair
    of ids, the product of the numbers of occurrences of the two files in
    the tuple. *)
Lemma issue_weights (P : list (list string)) (files : list string)
    (st st' : graph_state) :
  for_each (outer_step files) files st = Ok st' →
  files ∈ P → state_ok P st → entries_ok st →
  entries_ok st' ∧
  (∀ g, g ∈ files → is_Some (known_files_to_index st' !! g)) ∧
  ∀ i j, node_weight st' i j =
         node_weight st i j + hits st' files i * hits st' files j.
Proof.
  intros Hrun HP Hst Hent.
  destruct (outer_loop_weights P files files st st' Hrun HP (λ _ H, H) Hst Hent)
    as (Hent' & Hreg & Hwt).
  split; [done|]. split; [|done].
  destruct files as [|f0 files']; [by intros g ?%not_elem_of_nil|].
  by apply Hreg.
Qed.

(** Invariant rule for the loop over the issues: only the retained issues
    change the state. *)
Lemma accumulate_invariant (R : list (list string) → graph_state → Prop) :
  R [] initial_state →
  (∀ P files s1 s2, R P s1 → length files ≤ threshold →
     for_each (outer_step files) files s1 = Ok s2 → R (P ++ [files]) s2) →
  ∀ values st, accumulate values = Ok st →
               R (filter (λ files, length files ≤ threshold) values) st.
Proof.
  intros H0 Hstep values st. unfold accumulate.
  apply (for_each_invariant (λ done s,
           R (filter (λ files, length files ≤ threshold) done) s)); [done|].
  intros done files s1 s2 HR _ Hrun. unfold issue_step in Hrun.
  rewrite filter_app. destruct (threshold <? length files) eqn:Hlen.
  - injection Hrun as <-. apply Nat.ltb_lt in Hlen.
    rewrite (filter_cons_False _ files []) by lia.
    by rewrite filter_nil, app_nil_r.
  - apply Nat.ltb_ge in Hlen.
    rewrite (filter_cons_True _ files []), filter_nil by done. eauto.
Qed.

Lemma sum_list_with_ext_elem {A : Type} (f g : A → nat) (l : list A) :
  (∀ x, x ∈ l → f x = g x) → sum_list_with f l = sum_list_with g l.
Proof.
  induction l as [|x l IH]; intros Hext; [done|]. cbn.
  rewrite (Hext x) by left. rewrite IH; [done|]. intros. apply Hext. by right.
Qed.

Lemma accumulate_weights (values : list (list string)) (st : graph_state) :
  accumulate values = Ok st →
  entries_ok st ∧
  ∀ i j, node_weight st i j =
         sum_list_with (λ F, hits st F i * hits st F j)
                       (filter (λ files, length files ≤ threshold) values).
Proof.
  intros Hrun.
  pose (R := λ (P : list (list string)) (s : graph_state),
    (state_ok P s ∧ complete s) ∧ entries_ok s ∧
    (∀ F g, F ∈ P → g ∈ F → is_Some (known_files_to_index s !! g)) ∧
    ∀ i j, node_weight s i j =
           sum_list_with (λ F, hits s F i * hits s F j) P).
  assert (R (filter (λ files, length files ≤ threshold) values) st)
    as (_ & ? & _ & ?); [|done].
  apply (accumulate_invariant R); [| |done].
  - split; [split|].
    + split; [apply index_ok_initial|]. split; [done|].
      split; [constructor|]. split; [by intros i ?%not_elem_of_nil|].
      by intros i nbrs j ?%not_elem_of_nil.
    + intros i Hi. cbn in Hi. lia.
    + split; [by intros i e w [=]|].
      split; [by intros F g ?%not_elem_of_nil|]. done.
  - intros P files s1 s2 ((Hs1 & Hc1) & He1 & Hreg1 & Hw1) Hlen Hstep.
    assert (state_ok (P ++ [files]) s1) as Hs1'
      by (eapply state_ok_mono; [|done]; set_solver).
    destruct (issue_files_ok (P ++ [files]) files s1 s2 Hstep)
      as (Hs2 & Hc2 & _ & Hle); [set_solver|done..|].
    destruct (issue_weights (P ++ [files]) files s1 s2 Hstep)
      as (He2 & Hreg2 & Hw2); [set_solver|done..|].
    split; [done|]. split; [done|]. split.
    + intros F g HF Hg. apply elem_of_app in HF as [HF|HF].
      * destruct (Hreg1 F g HF Hg) as [i Hi]. exists i. by apply Hle.
      * apply list_elem_of_singleton in HF as ->. by apply Hreg2.
    + intros i j. rewrite Hw2, Hw1, sum_list_with_app. cbn.
      rewrite Nat.add_0_r. f_equal. apply sum_list_with_ext_elem.
      intros F HF. rewrite !(hits_stable s1 s2 F) by eauto. done.
Qed.

Lemma hits_NoDup (st : graph_state) (F : list string) (i : nat) (f : string) :
  index_ok st → NoDup F → known_files st !! i = Some f →
  hits st F i = if decide (f ∈ F) then 1 else 0.
Proof.
  intros Hok Hnd Hf. unfold hits.
  rewrite (filter_ext_elem _ (λ g, g = f)).
  - induction Hnd as [|g F Hg Hnd IH]; [done|].
    rewrite filter_cons. destruct (decide (g = f)) as [->|Hne].
    + rewrite decide_True by left. cbn. rewrite IH.
      by rewrite decide_False.
    + rewrite IH. destruct (decide (f ∈ F)).
      * rewrite decide_True; [done|by right].
      * rewrite decide_False; [done|]. set_solver.
  - intros g _. rewrite (Hok g i). split; congruence.
Qed.

Lemma cooccurrence_sum (st : graph_state) (P : list (list string)) (i j : nat)
    (f g : string) :
  index_ok st → Forall NoDup P →
  known_files st !! i = Some f → known_files st !! j = Some g →
  sum_list_with (λ F, hits st F i * hits st F j) P =
  length (filter (λ files, f ∈ files ∧ g ∈ files) P).
Proof.
  intros Hok HP Hf Hg. induction HP as [|F P HF HP IH]; [done|].
  cbn [sum_list_with]. rewrite IH, filter_cons.
  rewrite (hits_NoDup st F i f), (hits_NoDup st F j g) by done.
  destruct (decide (f ∈ F)), (decide (g ∈ F)).
  - by rewrite decide_True.
  - rewrite decide_False; [done|tauto].
  - rewrite decide_False; [done|tauto].
  - rewrite decide_False; [done|tauto].
Qed.

(** The accumulation loop is right: when no file tuple lists a file twice
    (as in every output of [aggregate_files_per_issue]), the state after
    lines 177-214 holds, for every node, distinct neighbours and, at the
    position of each neighbour, the number of retained issues that contain
    both files. *)
Lemma accumulate_aligned
    (aggregated : odict string (list string)) (st : graph_state) :
  Forall (λ kv, NoDup kv.2) aggregated →
  accumulate (OD.values aggregated) = Ok st →
  weights_aligned aggregated (known_files st) (edges st) (weights st).
Proof.
  intros Hnodup Hrun.
  destruct (accumulate_ok _ _ Hrun)
    as ((Hok & Hkeys & Hnd & Hbound & Hattr) & _ & _).
  destruct (accumulate_weights _ _ Hrun) as (Hent & Hwt).
  assert (Forall NoDup (retained_issues aggregated)) as HP.
  { apply Forall_forall. intros F HF.
    apply elem_of_retained in HF as [_ [key HF]].
    rewrite Forall_forall in Hnodup. apply (Hnodup _ HF). }
  intros i nbrs Hin.
  apply ODFacts.elem_get_Some in Hin; [|done].
  destruct (OD.get (weights st) i) as [ws|] eqn:Hws.
  2:{ apply get_Some_key in Hin. apply ODFacts.get_None in Hws.
      by rewrite Hkeys in Hin. }
  destruct (Hent i nbrs ws Hin Hws) as (Hlen & Hnbrs & Hpos).
  destruct (lookup_lt_is_Some_2 (known_files st) i) as [f Hf].
  { apply Hbound. by eapply get_Some_key. }
  exists ws, f. repeat (split; [done|]).
  intros k j w Hk Hw.
  destruct (Hattr i nbrs j) as (_ & _ & g & _ & _ & _ & _ & Hg).
  { by apply ODFacts.get_Some_elem. }
  { by eapply list_elem_of_lookup_2. }
  apply Hok in Hg. exists g. split; [done|].
  rewrite <- (entry_weight_lookup nbrs ws k j w) by done.
  pose proof (Hwt i j) as Hij. unfold node_weight in Hij.
  rewrite Hin, Hws in Hij. rewrite Hij.
  by apply cooccurrence_sum.
Qed.

(** ** The accumulation loop completes *)

(** A loop completes when its body does, at every state the loop can
    reach. *)
Lemma for_each_total {A S : Type} (body : S → A → result S) (l : list A) (s0 : S) :
  (∀ done x rest s, l = done ++ x :: rest → for_each body done s0 = Ok s →
                    ∃ s', body s x = Ok s') →
  ∃ s', for_each body l s0 = Ok s'.
Proof.
  induction l as [|x l IH] using rev_ind; intros Hbody; [by eexists|].
  destruct IH as [s Hs].
  { intros done y rest s Heq Hrun. apply (Hbody done y (rest ++ [x])); [|done].
    by rewrite Heq, <- app_assoc. }
  destruct (Hbody l x [] s eq_refl Hs) as [s' Hs'].
  exists s'. by rewrite for_each_snoc, Hs.
Qed.

Lemma fits_uint_le (x y : nat) : x ≤ y → fits_uint y = true → fits_uint x = true.
Proof. unfold fits_uint. rewrite !N.leb_le. lia. Qed.

Lemma index_ok_inj (st : graph_state) (f g : string) (i : nat) :
  index_ok st →
  known_files_to_index st !! f = Some i →
  known_files_to_index st !! g = Some i → f = g.
Proof. intros Hok Hf Hg. apply Hok in Hf, Hg. congruence. Qed.

Lemma index_ok_NoDup (st : graph_state) : index_ok st → NoDup (known_files st).
Proof.
  intros Hok. apply NoDup_alt. intros i j f Hi Hj.
  apply Hok in Hi, Hj. congruence.
Qed.

Lemma known_length_le (st : graph_state) (U : list string) :
  index_ok st → (∀ f, f ∈ known_files st → f ∈ U) →
  length (known_files st) ≤ length U.
Proof.
  intros Hok Hsub. apply submseteq_length, NoDup_submseteq; [|done].
  by apply index_ok_NoDup.
Qed.

Lemma make_edgeindex_total (e : list nat) (j : nat) :
  j ∈ e → is_Some (make_edgeindex e !! j).
Proof.
  unfold make_edgeindex.
  assert (∀ (a : nat) (m : gmap nat nat),
            is_Some (m !! j) ∨ j ∈ e →
            is_Some (foldl (λ m it, <[it.2 := it.1]> m) m
                           (zip (seq a (length e)) e) !! j)) as Hgen.
  { induction e as [|j' e IH]; intros a m; cbn.
    - intros [?|?%not_elem_of_nil]; done.
    - intros Hj. apply IH. cbn. destruct (decide (j' = j)) as [->|Hne].
      + left. rewrite lookup_insert_eq. eauto.
      + rewrite lookup_insert_ne by done. set_solver. }
  intros Hj. apply Hgen. by right.
Qed.

(** No visited file has the id of a file that is still to come. *)
Lemma hits_fresh (st : graph_state) (seen : list string) (g : string) (i : nat) :
  index_ok st → g ∉ seen →
  known_files_to_index (register g st) !! g = Some i → hits st seen i = 0.
Proof.
  intros Hok Hg Hi. unfold hits.
  rewrite (filter_ext_elem _ (λ _, False)).
  - clear. induction seen as [|x l IH]; [reflexivity|].
    rewrite filter_cons. destruct (decide False) as [[]|_]. exact IH.
  - intros g' Hg'. split; [|tauto]. intros Hi'.
    apply (register_lookup_mono g) in Hi'.
    rewrite (index_ok_inj _ _ _ _ (register_index_ok g st Hok) Hi' Hi) in Hg'.
    contradiction.
Qed.

Lemma gm_getitem_Some `{Countable K} {V : Type} (m : gmap K V) (k : K) (v : V) :
  m !! k = Some v → gm_getitem m k = Ok v.
Proof. unfold gm_getitem. by intros ->. Qed.

(** The body of [for g in files] completes when the id of [g] and the
    successor of the weight it is to increment are in range. *)
Lemma inner_step_total (fidx : nat) (e0 e w : list nat) (st : graph_state)
    (ec : gmap nat nat) (g : string) (U : list string) :
  index_ok st →
  OD.get (edges st) fidx = Some e → OD.get (weights st) fidx = Some w →
  length e = length w → e0 `prefix_of` e →
  (∀ j, is_Some (ec !! j) ↔ j ∈ e) →
  (∀ gidx, known_files_to_index (register g st) !! g = Some gidx → gidx ∈ e →
     gidx ∈ e0 ∧
     ∀ i x, e !! i = Some gidx → w !! i = Some x → fits_uint (S x) = true) →
  (∀ f, f ∈ known_files st → f ∈ U) → g ∈ U → fits_uint (length U) = true →
  ∃ acc', inner_step fidx (make_edgeindex e0) (st, ec) g = Ok acc'.
Proof.
  intros Hok He Hw Hlen Hpre Hdom Hold HU Hg Hfits.
  unfold inner_step. cbn [fst snd].
  destruct (register_edges g st) as [-> ->].
  destruct (register_registers g st) as [gidx Hgidx].
  rewrite (gm_getitem_Some _ _ _ Hgidx). cbn [mbind result_bind].
  rewrite (proj2 (ODFacts.getitem_Ok _ _ _) He).
  rewrite (proj2 (ODFacts.getitem_Ok _ _ _) Hw).
  destruct (ec !! gidx) as [c|] eqn:Hc; cbn [mbind result_bind].
  - assert (gidx ∈ e) as Hin by (apply Hdom; eauto).
    destruct (Hold gidx Hgidx Hin) as [Hin0 Hfit].
    destruct (make_edgeindex_total e0 gidx Hin0) as [i Hi].
    rewrite (gm_getitem_Some _ _ _ Hi). cbn [mbind result_bind].
    assert (e !! i = Some gidx) as Hei.
    { eapply prefix_lookup_Some; [|done]. by apply make_edgeindex_lookup. }
    destruct (lookup_lt_is_Some_2 w i) as [x Hx].
    { rewrite <- Hlen. by eapply lookup_lt_Some. }
    unfold array_incr. rewrite Hx, (Hfit i x Hei Hx). cbn. by eexists.
  - unfold array_append.
    assert (fits_uint gidx = true) as ->.
    { apply (fits_uint_le _ (length U)); [|done].
      pose proof (register_index_ok g st Hok) as Hok1.
      apply Hok1 in Hgidx. apply lookup_lt_Some in Hgidx.
      pose proof (known_length_le (register g st) U Hok1) as Hle.
      rewrite register_known in Hle, Hgidx by done.
      assert (length (first_seen_from (known_files st) [g]) ≤ length U); [|lia].
      apply Hle. intros f Hf.
      apply elem_of_first_seen_from in Hf as [Hf|Hf]; [auto|].
      by apply list_elem_of_singleton in Hf as ->. }
    cbn. by eexists.
Qed.

Lemma inner_loop_total (fidx : nat) (e0 w0 : list nat) (st2 : graph_state)
    (files U : list string) :
  OD.get (edges st2) fidx = Some e0 → OD.get (weights st2) fidx = Some w0 →
  entry_ok e0 w0 → index_ok st2 → NoDup files →
  (∀ x, x ∈ w0 → fits_uint (S x) = true) →
  (∀ f, f ∈ known_files st2 → f ∈ U) → (∀ g, g ∈ files → g ∈ U) →
  fits_uint (length U) = true →
  ∃ acc, for_each (inner_step fidx (make_edgeindex e0)) files
                  (st2, make_edgecounter e0 w0) = Ok acc.
Proof.
  intros He0 Hw0 Hentry Hok2 Hnd Hfit HU Hfiles HfitU.
  apply for_each_total. intros done g rest [st ec] -> Hrun.
  apply NoDup_app in Hnd as (_ & Hdisj & _).
  assert (g ∉ done) as Hg by (intros Hin; apply (Hdisj g Hin); left).
  destruct (inner_loop_inv _ _ _ _ _ _ Hok2 Hrun) as (Hok & Hknown & _).
  destruct (inner_loop_weights fidx e0 w0 st2 He0 Hw0 Hentry _ _ Hrun)
    as (_ & _ & e & w & He & Hw & Hentry' & Hpre & Hdom & Hwt).
  cbn [fst snd] in *.
  apply (inner_step_total fidx e0 e w st ec g U); try done.
  - by destruct Hentry'.
  - intros gidx Hgidx Hin.
    pose proof (Hwt gidx) as Hw1.
    rewrite (hits_fresh st done g gidx) in Hw1 by done.
    rewrite Nat.add_0_r in Hw1.
    assert (gidx ∈ e0) as Hin0.
    { apply (entry_weight_positive e0 w0); [done|]. rewrite <- Hw1.
      by apply (entry_weight_positive e w). }
    split; [done|]. intros i x Hi Hx. apply Hfit.
    rewrite <- (entry_weight_lookup e w i gidx x), Hw1;
      [|by destruct Hentry' as (_ & ? & _)|done..].
    apply list_elem_of_lookup in Hin0 as [k Hk].
    destruct Hentry as (Hlen0 & Hnd0 & _).
    destruct (lookup_lt_is_Some_2 w0 k) as [y Hy].
    { rewrite <- Hlen0. by eapply lookup_lt_Some. }
    rewrite (entry_weight_lookup e0 w0 k gidx y) by done.
    by eapply list_elem_of_lookup_2.
  - intros f Hf. rewrite Hknown in Hf.
    apply elem_of_first_seen_from in Hf as [Hf|Hf]; [auto|].
    apply Hfiles. set_solver.
  - apply Hfiles. set_solver.
Qed.

Lemma outer_step_total (P : list (list string)) (files : list string)
    (st0 : graph_state) (f : string) (U : list string) :
  state_ok P st0 → entries_ok st0 → NoDup files →
  (∀ i j, known_files_to_index (register f st0) !! f = Some i →
          fits_uint (S (node_weight st0 i j)) = true) →
  (∀ h, h ∈ known_files st0 → h ∈ U) → f ∈ U → (∀ g, g ∈ files → g ∈ U) →
  fits_uint (length U) = true →
  ∃ st', outer_step files st0 f = Ok st'.
Proof.
  intros (Hok0 & Hkeys0 & _) Hent0 Hnd Hfit HU Hf Hfiles HfitU.
  unfold outer_step.
  destruct (register_registers f st0) as [fidx Hfidx].
  rewrite (gm_getitem_Some _ _ _ Hfidx). cbn [mbind result_bind].
  destruct (register_edges f st0) as [He1 Hw1].
  pose proof (register_index_ok f st0 Hok0) as Hok1.
  pose proof (register_known f st0 Hok0) as Hkn1.
  specialize (Hfit fidx).
  set (st1 := register f st0) in *.
  set (st2 := match OD.get (edges st1) fidx with
              | Some _ => st1
              | None => GraphState (known_files_to_index st1) (known_files st1)
                          (OD.set (edges st1) fidx [])
                          (OD.set (weights st1) fidx [])
              end).
  assert (known_files_to_index st2 = known_files_to_index st1 ∧
          known_files st2 = known_files st1) as [Hkfi2 Hkn2].
  { unfold st2. by destruct (OD.get (edges st1) fidx). }
  assert (index_ok st2) as Hok2.
  { intros h i. rewrite Hkfi2, Hkn2. apply Hok1. }
  assert (∃ e w, OD.get (edges st2) fidx = Some e ∧
                 OD.get (weights st2) fidx = Some w ∧
                 entry_ok e w ∧
                 ∀ x, x ∈ w → fits_uint (S x) = true)
    as (e & w & He2 & Hw2 & Hentry & Hfitw).
  { unfold st2. destruct (OD.get (edges st1) fidx) as [e|] eqn:Hget.
    - rewrite He1 in Hget. rewrite Hw1.
      destruct (OD.get (weights st0) fidx) as [w|] eqn:Hgw.
      + exists e, w. rewrite He1. repeat (split; [done|]).
        pose proof (Hent0 fidx e w Hget Hgw) as (Hlen & Hnde & _).
        split; [by eapply Hent0|]. intros x Hx.
        apply list_elem_of_lookup in Hx as [k Hk].
        destruct (lookup_lt_is_Some_2 e k) as [j Hj].
        { rewrite Hlen. by eapply lookup_lt_Some. }
        specialize (Hfit j Hfidx). unfold node_weight in Hfit.
        rewrite Hget, Hgw in Hfit.
        by rewrite (entry_weight_lookup e w k j x) in Hfit.
      + apply get_Some_key in Hget. apply ODFacts.get_None in Hgw.
        by rewrite Hkeys0 in Hget.
    - exists [], []. cbn [edges weights]. rewrite !ODFacts.get_set_eq.
      repeat (split; [done|]). split; [repeat constructor|].
      by intros x ?%not_elem_of_nil. }
  rewrite (proj2 (ODFacts.getitem_Ok _ _ _) He2).
  rewrite (proj2 (ODFacts.getitem_Ok _ _ _) Hw2). cbn [mbind result_bind].
  destruct (inner_loop_total fidx e w st2 files U) as [acc ->]; try done.
  - intros h Hh. rewrite Hkn2, Hkn1 in Hh.
    apply elem_of_first_seen_from in Hh as [Hh|Hh]; [auto|].
    by apply list_elem_of_singleton in Hh as ->.
  - cbn. by eexists.
Qed.

Lemma issue_total (P : list (list string)) (files : list string)
    (st : graph_state) (U : list string) (M : nat) :
  files ∈ P → state_ok P st → entries_ok st → NoDup files →
  (∀ i j, node_weight st i j ≤ M) → fits_uint (S M) = true →
  (∀ h, h ∈ known_files st → h ∈ U) → (∀ g, g ∈ files → g ∈ U) →
  fits_uint (length U) = true →
  ∃ st', for_each (outer_step files) files st = Ok st'.
Proof.
  intros HP Hst Hent Hnd HM HfitM HU Hfiles HfitU.
  apply for_each_total. intros seen f rest s Heq Hrun.
  assert (∀ h, h ∈ seen → h ∈ files) as Hsub by (rewrite Heq; set_solver).
  assert (f ∈ files) as Hf by (rewrite Heq; set_solver).
  assert (f ∉ seen) as Hfresh.
  { rewrite Heq in Hnd. apply NoDup_app in Hnd as (_ & Hdisj & _).
    intros Hin. apply (Hdisj f Hin). left. }
  destruct (outer_loop_ok P files seen st s Hrun HP Hsub Hst)
    as (Hs & Hknown & _).
  destruct (outer_loop_weights P files seen st s Hrun HP Hsub Hst Hent)
    as (Hents & _ & Hwt).
  apply (outer_step_total P files s f U); try done; [| |by apply Hfiles].
  - intros i j Hi. apply (fits_uint_le _ (S M)); [|done].
    rewrite Hwt, (hits_fresh s seen f i); [|by destruct Hs|done..].
    specialize (HM i j). lia.
  - intros h Hh. rewrite Hknown in Hh.
    apply elem_of_first_seen_from in Hh as [Hh|Hh]; [auto|].
    apply elem_of_concat in Hh as (l & Hh & Hl).
    apply list_elem_of_fmap in Hl as (g & -> & Hg).
    apply Hfiles. apply elem_of_cons in Hh as [->|Hh]; auto.
Qed.

Lemma hits_le_1 (st : graph_state) (F : list string) (i : nat) :
  index_ok st → NoDup F → hits st F i ≤ 1.
Proof.
  intros Hok Hnd. destruct (known_files st !! i) as [f|] eqn:Hf.
  - rewrite (hits_NoDup st F i f) by done. case_decide; lia.
  - unfold hits. rewrite (filter_ext_elem _ (λ _, False)).
    + clear. induction F as [|x l IH]; [cbn; lia|].
      rewrite filter_cons. by destruct (decide False) as [[]|_].
    + intros g _. split; [|tauto]. intros Hg. apply Hok in Hg. congruence.
Qed.

Lemma node_weight_le (st : graph_state) (P : list (list string)) (i j : nat) :
  index_ok st → Forall NoDup P →
  sum_list_with (λ F, hits st F i * hits st F j) P ≤ length P.
Proof.
  intros Hok HP. induction HP as [|F P HF HP IH]; [done|]. cbn.
  pose proof (hits_le_1 st F i Hok HF). pose proof (hits_le_1 st F j Hok HF).
  nia.
Qed.

(** On an input whose file tuples list no file twice, with fewer than 2^32
    issues and fewer than 2^32 listed files, the accumulation loop of lines
    177-214 raises nothing. *)
Lemma accumulate_total (aggregated : odict string (list string)) :
  Forall (λ kv, NoDup kv.2) aggregated →
  fits_uint (length aggregated) = true →
  fits_uint (length (concat (retained_issues aggregated))) = true →
  ∃ st, accumulate (OD.values aggregated) = Ok st.
Proof.
  intros Hnodup Hfit HfitU. unfold accumulate.
  apply for_each_total. intros seen files rest s Heq Hrun.
  unfold issue_step. destruct (threshold <? length files) eqn:Hlen;
    [by eexists|].
  apply Nat.ltb_ge in Hlen.
  destruct (accumulate_ok _ _ Hrun) as (Hs & _ & Hknown).
  destruct (accumulate_weights _ _ Hrun) as (Hent & Hwt).
  set (Pd := filter (λ files, length files ≤ threshold) seen) in *.
  assert (retained_issues aggregated =
          Pd ++ files :: filter (λ files, length files ≤ threshold) rest) as HP.
  { unfold retained_issues. rewrite Heq, filter_app.
    by rewrite filter_cons_True. }
  assert (Forall NoDup (retained_issues aggregated)) as Hnd.
  { apply Forall_forall. intros F HF.
    apply elem_of_retained in HF as [_ [key HF]].
    rewrite Forall_forall in Hnodup. apply (Hnodup _ HF). }
  rewrite HP in Hnd. apply Forall_app in Hnd as [HndPd Hnd].
  apply Forall_cons in Hnd as [Hndf _].
  apply (issue_total (Pd ++ [files]) files s
           (concat (retained_issues aggregated)) (length Pd)).
  - set_solver.
  - eapply state_ok_mono; [|done]. set_solver.
  - done.
  - done.
  - intros i j. rewrite Hwt. apply node_weight_le; [by destruct Hs|done].
  - apply (fits_uint_le _ (length aggregated)); [|done].
    assert (length (retained_issues aggregated) ≤ length aggregated) as Hle.
    { unfold retained_issues, OD.values.
      etrans; [apply length_filter|]. by rewrite length_fmap. }
    rewrite HP, length_app in Hle. cbn in Hle. lia.
  - intros h Hh. rewrite Hknown in Hh.
    apply elem_of_first_seen_from in Hh as [Hh|Hh];
      [by apply not_elem_of_nil in Hh|].
    rewrite HP, concat_app. set_solver.
  - intros g Hg. rewrite HP, concat_app. cbn. set_solver.
  - done.
Qed.

(** ** The shape of the returned graph *)

Lemma mapM_Ok_length {A B : Type} (f : A → result B) (l : list A) (k : list B) :
  mapM f l = Ok k → length k = length l.
Proof.
  revert k. induction l as [|x l IH]; intros k Hk; cbn in Hk.
  - by injection Hk as <-.
  - apply bind_Ok in Hk as (y & _ & Hk).
    apply bind_Ok in Hk as (k' & Hk' & Hk). injection Hk as <-.
    cbn. f_equal. by apply IH.
Qed.

(** [sorted(l, key=...)] rearranges [l] whenever it returns. *)
Lemma sorted_key_Permutation {A B : Type} (lt : B → B → bool)
    (key : A → result B) (l l' : list A) :
  sorted_key lt key l = Ok l' → l' ≡ₚ l.
Proof.
  unfold sorted_key. intros Hrun. apply bind_Ok in Hrun as (ks & Hks & Hret).
  injection Hret as <-. rewrite sorted_Permutation.
  rewrite snd_zip; [done|]. apply mapM_Ok_length in Hks. lia.
Qed.

Lemma sorted_nat_spec (l : list nat) :
  NoDup l → StronglySorted lt (sorted Nat.ltb l).
Proof.
  intros Hnd.
  assert (StronglySorted (strict le) (sorted Nat.ltb l)) as Hs.
  { apply StronglySorted_strict; [apply _| |by rewrite sorted_Permutation].
    apply Sorted_StronglySorted; [apply _|]. apply Sorted_sorted.
    - intros x y ?%Nat.ltb_ge. done.
    - intros x y ?%Nat.ltb_lt. lia. }
  induction Hs as [|x l' Hs IH Hx]; constructor; [done|].
  eapply Forall_impl; [done|]. intros y [? ?]. cbn in *. lia.
Qed.

Lemma sorted_nat_idem (l : list nat) :
  sorted Nat.ltb (sorted Nat.ltb l) = sorted Nat.ltb l.
Proof.
  apply sorted_id. apply Sorted_StronglySorted.
  - intros x y z Hxy Hyz. apply Nat.ltb_ge in Hxy, Hyz. apply Nat.ltb_ge. lia.
  - apply Sorted_sorted; [done|].
    intros x y Hlt. apply Nat.ltb_lt in Hlt. apply Nat.ltb_ge. lia.
Qed.

(** After the loop of lines 215-219 every neighbour sequence is the sorted
    form of the accumulated one and every weight sequence is a
    rearrangement of the accumulated one. *)
Lemma finalize_loop_sorts (E0 W0 : odict nat (list nat))
    (ew : odict nat (list nat) * odict nat (list nat)) :
  NoDup (OD.keys E0) →
  for_each finalize_step (OD.keys E0) (E0, W0) = Ok ew →
  (∀ i nbrs, (i, nbrs) ∈ ew.1 →
     ∃ nbrs0, (i, nbrs0) ∈ E0 ∧ nbrs = sorted Nat.ltb nbrs0) ∧
  (∀ i ws, (i, ws) ∈ ew.2 → ∃ ws0, (i, ws0) ∈ W0 ∧ ws ≡ₚ ws0).
Proof.
  intros Hnd Hrun.
  pose (Q := λ (done : list nat)
               (ew : odict nat (list nat) * odict nat (list nat)),
    OD.keys ew.1 = OD.keys E0 ∧
    (∀ i nbrs, (i, nbrs) ∈ ew.1 →
       ∃ nbrs0, (i, nbrs0) ∈ E0 ∧
         (nbrs = nbrs0 ∨ nbrs = sorted Nat.ltb nbrs0) ∧
         (i ∈ done → nbrs = sorted Nat.ltb nbrs0)) ∧
    (∀ i ws, (i, ws) ∈ ew.2 → ∃ ws0, (i, ws0) ∈ W0 ∧ ws ≡ₚ ws0)).
  assert (Q (OD.keys E0) ew) as (_ & HE & HW).
  { apply (for_each_invariant Q finalize_step (OD.keys E0) (E0, W0) ew);
      [| |done].
    - split; [done|]. split.
      + intros i nbrs Hin. exists nbrs. split; [done|]. split; [by left|].
        by intros ?%not_elem_of_nil.
      + intros i ws Hin. by exists ws.
    - intros done k [E W] [E' W'] (Hkeys & HE & HW) _ Hstep.
      cbn [fst snd] in *.
      apply finalize_step_inv in Hstep as (v & w & w' & Hv & Hw & -> & Hsk & ->).
      assert (NoDup (OD.keys E)) as HndE by by rewrite Hkeys.
      unfold Q. cbn [fst snd]. split; [|split].
      + rewrite ODFacts.keys_set_present; [done|]. by eapply get_Some_key.
      + intros i nbrs Hin.
        apply (ODFacts.elem_of_set _ _ _ _ _ HndE) in Hin
          as [[-> ->]|[Hne Hin]].
        * destruct (HE k v (ODFacts.get_Some_elem _ _ _ Hv))
            as (nbrs0 & Hin0 & Hcase & _).
          exists nbrs0. split; [done|].
          assert (sorted Nat.ltb v = sorted Nat.ltb nbrs0) as ->.
          { destruct Hcase as [->| ->]; [done|apply sorted_nat_idem]. }
          split; [by right|done].
        * destruct (HE i nbrs Hin) as (nbrs0 & Hin0 & Hcase & Hdone).
          exists nbrs0. split; [done|]. split; [done|].
          intros Hi. apply Hdone. set_solver.
      + intros i ws Hin. apply elem_of_set_1 in Hin as [[-> ->]|Hin]; [|auto].
        destruct (HW k w (ODFacts.get_Some_elem _ _ _ Hw)) as (ws0 & ? & Hp).
        exists ws0. split; [done|].
        by rewrite (sorted_key_Permutation _ _ _ _ Hsk). }
  split; [|done]. intros i nbrs Hin.
  destruct (HE i nbrs Hin) as (nbrs0 & Hin0 & _ & Hdone).
  exists nbrs0. split; [done|]. apply Hdone.
  destruct (finalize_loop_inv _ _ _ _ Hrun) as (Hkeys & _).
  rewrite <- Hkeys. apply list_elem_of_fmap. by exists (i, nbrs).
Qed.

(** What every returned graph satisfies: each node's neighbours ascend
    strictly and its weights are as many.  When no file tuple lists a file
    twice, the weights of a node are moreover a rearrangement of the
    co-occurrence counts of the node with its neighbours (the counts are
    right, their positions need not be). *)
Theorem returned_graph_shape (aggregated : odict string (list string))
    (known : list string) (E W : odict nat (list nat)) :
  correlate_files_with_each_other aggregated = Ok (known, E, W) →
  ∀ i nbrs, (i, nbrs) ∈ E →
    ∃ ws f, OD.get W i = Some ws ∧ known !! i = Some f ∧
      StronglySorted lt nbrs ∧ length ws = length nbrs ∧
      (Forall (λ kv, NoDup kv.2) aggregated →
       ws ≡ₚ (λ j, cooccurrence aggregated f (default "" (known !! j))) <$> nbrs).
Proof.
  intros Hrun i nbrs Hin.
  destruct (returned_keys aggregated known E W Hrun) as (HkE & HkW).
  apply correlate_Ok in Hrun as (st & E' & W' & Hacc & Hfin & -> & -> & ->).
  destruct (accumulate_ok _ _ Hacc)
    as ((Hok & Hkeys & Hnd & Hbound & Hattr) & _ & _).
  destruct (accumulate_weights _ _ Hacc) as (Hent & _).
  destruct (finalize_loop_inv _ _ _ _ Hfin) as (HkE' & HkW' & _).
  destruct (finalize_loop_sorts _ _ _ Hnd Hfin) as (HE & HW).
  cbn [fst snd] in *.
  apply elem_of_sorted in Hin.
  destruct (HE i nbrs Hin) as (e0 & He0 & ->).
  apply ODFacts.elem_get_Some in He0; [|done].
  assert (i ∈ OD.keys W') as HiW.
  { rewrite HkW', <- Hkeys. by eapply get_Some_key. }
  apply list_elem_of_fmap in HiW as ([i' ws] & Hi' & HinW). cbn in Hi'. subst i'.
  destruct (HW i ws HinW) as (w0 & Hw0 & Hperm).
  apply ODFacts.elem_get_Some in Hw0; [|by rewrite <- Hkeys].
  destruct (Hent i e0 w0 He0 Hw0) as (Hlen & Hnde & _).
  destruct (lookup_lt_is_Some_2 (known_files st) i) as [f Hf].
  { apply Hbound. by eapply get_Some_key. }
  exists ws, f. split; [|split; [done|split; [|split]]].
  - apply ODFacts.elem_get_Some.
    + unfold OD.keys. rewrite HkW. apply NoDup_seq.
    + by apply elem_of_sorted.
  - by apply sorted_nat_spec.
  - by rewrite length_sorted, Hperm.
  - intros Hnodup. rewrite Hperm, sorted_Permutation.
    destruct (accumulate_aligned _ _ Hnodup Hacc i e0)
      as (w1 & f1 & Hw1 & Hf1 & _ & Hlen1 & Hal).
    { by apply ODFacts.get_Some_elem. }
    rewrite Hw0 in Hw1. injection Hw1 as <-.
    rewrite Hf in Hf1. injection Hf1 as <-.
    assert (w0 = (λ j, cooccurrence aggregated f
                         (default "" (known_files st !! j))) <$> e0) as ->;
      [|done].
    apply list_eq. intros k. rewrite list_lookup_fmap.
    destruct (e0 !! k) as [j|] eqn:Hk; cbn.
    + destruct (lookup_lt_is_Some_2 w0 k) as [w Hw].
      { rewrite Hlen1. by eapply lookup_lt_Some. }
      destruct (Hal k j w Hk Hw) as (g & Hg & ->). by rewrite Hw, Hg.
    + apply lookup_ge_None. rewrite Hlen1. by apply lookup_ge_None.
Qed.

Lemma returned_graph_shape_witness :
  ∃ ws f, OD.get [(0, [1; 1; 2]); (1, [1; 1]); (2, [1; 1])] 0 = Some ws ∧
    ["B"; "C"; "A"] !! 0 = Some f ∧
    StronglySorted lt [0; 1; 2] ∧ length ws = length [0; 1; 2] ∧
    (Forall (λ kv, NoDup kv.2) out_of_order_input →
     ws ≡ₚ (λ j, cooccurrence out_of_order_input f
                   (default "" (["B"; "C"; "A"] !! j))) <$> [0; 1; 2]).
Proof.
  refine (returned_graph_shape out_of_order_input ["B"; "C"; "A"]
            [(0, [0; 1; 2]); (1, [0; 1]); (2, [0; 2])]
            [(0, [1; 1; 2]); (1, [1; 1]); (2, [1; 1])] _ 0 [0; 1; 2] _).
  - vm_compute. reflexivity.
  - apply list_elem_of_here.
Defined.

(** ** When finalization raises *)

Lemma for_each_progress {A S : Type} (Inv : S → Prop)
    (body : S → A → result S) (l : list A) (s : S) :
  Inv s →
  (∀ s x, x ∈ l → Inv s → ∃ s', body s x = Ok s' ∧ Inv s') →
  ∃ s', for_each body l s = Ok s' ∧ Inv s'.
Proof.
  revert s. induction l as [|x l IH]; intros s Hs Hstep; cbn.
  - by exists s.
  - destruct (Hstep s x) as (s1 & -> & Hs1); [by left|done|]. cbn.
    apply IH; [done|]. intros s2 y Hy. apply Hstep. by right.
Qed.

Lemma mapM_Ok_elem {A B : Type} (f : A → result B) (l : list A) (k : list B) (x : A) :
  mapM f l = Ok k → x ∈ l → ∃ y, f x = Ok y.
Proof.
  revert k. induction l as [|x' l IH]; intros k Hk Hx; cbn in Hk.
  - by apply not_elem_of_nil in Hx.
  - apply bind_Ok in Hk as (y & Hy & Hk).
    apply bind_Ok in Hk as (k' & Hk' & _).
    apply elem_of_cons in Hx as [->|Hx]; eauto.
Qed.

Lemma mapM_Ok_total {A B : Type} (f : A → result B) (l : list A) :
  (∀ x, x ∈ l → ∃ y, f x = Ok y) → ∃ k, mapM f l = Ok k.
Proof.
  induction l as [|x l IH]; intros Hf; cbn; [by eexists|].
  destruct (Hf x) as [y ->]; [by left|]. cbn.
  destruct IH as [k ->]; [intros; apply Hf; by right|]. cbn. by eexists.
Qed.

Lemma getitem_is_Ok {K V : Type} `{EqDecision K} (d : list (K * V)) (k : K) :
  (∃ v, OD.getitem d k = Ok v) ↔ k ∈ OD.keys d.
Proof.
  unfold OD.getitem. destruct (OD.get d k) as [v|] eqn:Hget.
  - split; [intros _; by eapply get_Some_key|by eauto].
  - split; [by intros [? [=]]|]. intros Hin.
    by apply ODFacts.get_None in Hget.
Qed.

(** The loop of lines 215-219 completes exactly when every weight is a key
    of [edges]. *)
Lemma finalize_loop_completes (E0 W0 : odict nat (list nat)) :
  NoDup (OD.keys E0) → OD.keys E0 = OD.keys W0 →
  (∃ ew, for_each finalize_step (OD.keys E0) (E0, W0) = Ok ew) ↔
  (∀ i w x, (i, w) ∈ W0 → x ∈ w → x ∈ OD.keys E0).
Proof.
  intros Hnd Hkeys. split.
  - intros [ew Hrun].
    pose (Q := λ (done : list nat)
                 (ew : odict nat (list nat) * odict nat (list nat)),
      OD.keys ew.1 = OD.keys E0 ∧
      (∀ i w, i ∉ done → OD.get ew.2 i = Some w → OD.get W0 i = Some w) ∧
      (∀ i w x, i ∈ done → OD.get W0 i = Some w → x ∈ w → x ∈ OD.keys E0)).
    assert (Q (OD.keys E0) ew) as (_ & _ & Hdone).
    { apply (for_each_invariant Q finalize_step (OD.keys E0) (E0, W0) ew);
        [| |done].
      - split; [done|]. split; [done|]. by intros i w x ?%not_elem_of_nil.
      - intros done k [E W] [E' W'] (HkE & Hrest & Hdone) _ Hstep.
        cbn [fst snd] in *.
        apply finalize_step_inv in Hstep as (v & w & w' & Hv & Hw & -> & Hsk & ->).
        unfold Q. cbn [fst snd]. split; [|split].
        + rewrite ODFacts.keys_set_present; [done|]. by eapply get_Some_key.
        + intros i w1 Hi Hget. rewrite ODFacts.get_set_ne in Hget by set_solver.
          apply Hrest; [set_solver|done].
        + intros i w1 x Hi Hget Hx.
          apply elem_of_app in Hi as [Hi|Hi]; [by eapply Hdone|].
          apply list_elem_of_singleton in Hi as ->.
          destruct (decide (k ∈ done)) as [Hk|Hk]; [by eapply Hdone|].
          rewrite (Hrest k w Hk Hw) in Hget. injection Hget as <-.
          unfold sorted_key in Hsk. apply bind_Ok in Hsk as (ks & Hks & _).
          destruct (mapM_Ok_elem _ _ _ x Hks Hx) as [y Hy].
          rewrite <- HkE, <- (ODFacts.keys_set_present E k (sorted Nat.ltb v))
            by by eapply get_Some_key.
          apply getitem_is_Ok. eauto. }
    intros i w x Hin Hx. apply (Hdone i w x); [|by apply ODFacts.elem_get_Some;
      [rewrite <- Hkeys|]|done].
    rewrite Hkeys. apply list_elem_of_fmap. by exists (i, w).
  - intros Hids.
    destruct (for_each_progress
      (λ ew : odict nat (list nat) * odict nat (list nat),
         OD.keys ew.1 = OD.keys E0 ∧ OD.keys ew.2 = OD.keys W0 ∧
         ∀ i w x, (i, w) ∈ ew.2 → x ∈ w → x ∈ OD.keys E0)
      finalize_step (OD.keys E0) (E0, W0)) as (ew & Hrun & _); [done| |by eauto].
    intros [E W] k Hk (HkE & HkW & Hw). cbn [fst snd] in *.
    unfold finalize_step. cbn [fst snd].
    destruct (proj2 (getitem_is_Ok E k)) as [v Hv]; [by rewrite HkE|].
    destruct (proj2 (getitem_is_Ok W k)) as [w Hgw];
      [by rewrite HkW, <- Hkeys|].
    rewrite Hv, Hgw. cbn [mbind result_bind].
    apply ODFacts.getitem_Ok in Hv, Hgw.
    assert (OD.keys (OD.set E k (sorted Nat.ltb v)) = OD.keys E0) as HkE'.
    { rewrite ODFacts.keys_set_present; [done|]. by eapply get_Some_key. }
    destruct (mapM_Ok_total (λ x, OD.getitem (OD.set E k (sorted Nat.ltb v)) x) w)
      as [ks Hks].
    { intros x Hx. apply getitem_is_Ok. rewrite HkE'.
      eapply Hw; [|done]. by apply ODFacts.get_Some_elem. }
    unfold sorted_key. rewrite Hks. cbn [mbind result_bind].
    eexists. split; [done|]. cbn [fst snd]. split; [done|]. split.
    + rewrite ODFacts.keys_set_present; [done|]. by eapply get_Some_key.
    + intros i w1 x Hin Hx. apply elem_of_set_1 in Hin as [[-> ->]|Hin].
      * rewrite sorted_Permutation in Hx.
        rewrite snd_zip in Hx by (apply mapM_Ok_length in Hks; lia).
        eapply Hw; [|done]. by apply ODFacts.get_Some_elem.
      * by eapply Hw.
Qed.

(** Once the accumulation loop has completed, the function returns a graph
    exactly when every accumulated weight is smaller than the number of
    known files; otherwise line 219 raises [KeyError]. *)
Lemma finalize_returns_iff
    (aggregated : odict string (list string)) (st : graph_state) :
  accumulate (OD.values aggregated) = Ok st →
  (∃ r, correlate_files_with_each_other aggregated = Ok r) ↔
  (∀ i w x, (i, w) ∈ weights st → x ∈ w → x < length (known_files st)).
Proof.
  intros Hacc.
  destruct (accumulate_ok _ _ Hacc)
    as ((Hok & Hkeys & Hnd & Hbound & _) & Hcomplete & _).
  assert (∀ x, x ∈ OD.keys (edges st) ↔ x < length (known_files st)) as Hdom.
  { intros x. split; [apply Hbound|apply Hcomplete]. }
  unfold correlate_files_with_each_other, finalize. rewrite Hacc.
  cbn [mbind result_bind].
  pose proof (finalize_loop_completes (edges st) (weights st) Hnd Hkeys) as Hloop.
  split.
  - intros [r Hr]. apply bind_Ok in Hr as (ew & Hew & _).
    intros i w x Hin Hx. apply Hdom. eapply (proj1 Hloop); eauto.
  - intros Hids. destruct (proj2 Hloop) as [ew ->]; [|by eexists].
    intros i w x Hin Hx. apply Hdom. eauto.
Qed.

(** ** The finalization defect (lines 215-219)

    Line 219 orders a node's weights by [edges[x]], the adjacency of the
    node whose id happens to equal the weight [x].  The three statements
    below evaluate the function where this shows. *)

(** C1 (the code departs from the claim): on two issues with the file
    tuples (B, C) and (A, B) the accumulation loop leaves node 0 (file B)
    with neighbours (0, 1, 2) and weights (2, 1, 1); the returned weights of
    node 0 are (1, 1, 2), so the returned adjacency is not positionally
    aligned with the co-occurrence counts. *)
Theorem weights_misaligned_after_finalize :
  (∃ st, accumulate (OD.values out_of_order_input) = Ok st ∧
         edges st = [(0, [0; 1; 2]); (1, [0; 1]); (2, [2; 0])] ∧
         weights st = [(0, [2; 1; 1]); (1, [1; 1]); (2, [1; 1])]) ∧
  correlate_files_with_each_other out_of_order_input =
    Ok (["B"; "C"; "A"],
        [(0, [0; 1; 2]); (1, [0; 1]); (2, [0; 2])],
        [(0, [1; 1; 2]); (1, [1; 1]); (2, [1; 1])]) ∧
  ¬ adjacency_aligned out_of_order_input ["B"; "C"; "A"]
      [(0, [0; 1; 2]); (1, [0; 1]); (2, [0; 2])]
      [(0, [1; 1; 2]); (1, [1; 1]); (2, [1; 1])].
Proof.
  split; [|split].
  - eexists. split; [vm_compute; reflexivity|]. split; reflexivity.
  - vm_compute. reflexivity.
  - intros Hal.
    destruct (Hal 0 [0; 1; 2]) as (ws & f & Hws & Hf & _ & _ & Hk).
    { apply list_elem_of_here. }
    cbn in Hws, Hf. injection Hws as <-. injection Hf as <-.
    destruct (Hk 0 0 1 eq_refl eq_refl) as (g & Hg & Hw).
    cbn in Hg. injection Hg as <-.
    vm_compute in Hw. discriminate Hw.
Qed.

(** C2 (the code departs from the claim): on the same input file B (node
    0) lies in both retained issues and file A (node 2) shares one issue
    with it, yet the returned graph gives the self-edge of node 0 weight 1,
    the edge from 0 to 2 weight 2 and the edge from 2 to 0 weight 1. *)
Theorem self_edge_weight_not_issue_count :
  ∃ known E W,
    correlate_files_with_each_other out_of_order_input = Ok (known, E, W) ∧
    known !! 0 = Some "B" ∧ known !! 2 = Some "A" ∧
    cooccurrence out_of_order_input "B" "B" = 2 ∧
    edge_weight E W 0 0 = Some 1 ∧
    cooccurrence out_of_order_input "B" "A" = 1 ∧
    edge_weight E W 0 2 = Some 2 ∧
    edge_weight E W 2 0 = Some 1.
Proof.
  do 3 eexists. split; [vm_compute; reflexivity|].
  repeat split; vm_compute; reflexivity.
Qed.

(** C10 (the code departs from the claim): a single issue touching a single
    file is accumulated into node 0 with neighbour 0 and weight 1; line 219
    then looks up [edges[1]], which does not exist, and the call raises
    [KeyError]. *)
Theorem single_file_issue_raises_KeyError :
  Forall (λ kv, NoDup kv.2) single_file_input ∧
  (∃ st, accumulate (OD.values single_file_input) = Ok st ∧
         edges st = [(0, [0])] ∧ weights st = [(0, [1])] ∧
         OD.getitem (edges st) 1 = Raise KeyError) ∧
  correlate_files_with_each_other single_file_input = Raise KeyError.
Proof.
  split; [|split].
  - repeat constructor. set_solver.
  - eexists. split; [vm_compute; reflexivity|]. repeat split.
  - vm_compute. reflexivity.
Qed.

(** ** Summary: the accumulation is right, the finalization is not *)

(** The weight recorded for a neighbour in a well-formed pair of parallel
    sequences: none when the weight of the entry is 0, that is when the
    neighbour is not listed. *)
Lemma edge_weight_entry (e w : list nat) (j : nat) :
  entry_ok e w →
  (list_find (λ x, x = j) e ≫= λ kx, w !! kx.1) =
  if decide (entry_weight e w j = 0) then None else Some (entry_weight e w j).
Proof.
  intros Hentry. pose proof Hentry as (Hlen & Hnd & Hpos).
  destruct (list_find (λ x, x = j) e) as [[k x]|] eqn:Hfind; cbn.
  - apply list_find_Some in Hfind as (Hk & -> & _).
    destruct (lookup_lt_is_Some_2 w k) as [y Hy].
    { rewrite <- Hlen. by eapply lookup_lt_Some. }
    rewrite (entry_weight_lookup e w k j y) by done. rewrite Hy.
    rewrite Forall_forall in Hpos.
    pose proof (Hpos y (list_elem_of_lookup_2 _ _ _ Hy)).
    rewrite decide_False by lia. done.
  - apply list_find_None in Hfind. rewrite entry_weight_absent; [done|].
    intros Hj. rewrite Forall_forall in Hfind. by apply (Hfind j).
Qed.

(** On an input whose file tuples list no file twice, with fewer than 2^32
    issues and fewer than 2^32 listed files, the accumulation loop of lines
    177-214 completes, and the state it leaves is the co-occurrence graph:
    the nodes are the files of the retained issues in first-seen order,
    every node has an entry, the neighbours of a node are distinct and as
    many as its weights, and for any two nodes the weight recorded from the
    one to the other is the number of retained issues that contain both
    files, no weight being recorded exactly when that number is 0. *)
Theorem accumulation_is_correct (aggregated : odict string (list string)) :
  Forall (λ kv, NoDup kv.2) aggregated →
  fits_uint (length aggregated) = true →
  fits_uint (length (concat (retained_issues aggregated))) = true →
  ∃ st, accumulate (OD.values aggregated) = Ok st ∧
        known_files st = first_seen (concat (retained_issues aggregated)) ∧
        weights_aligned aggregated (known_files st) (edges st) (weights st) ∧
        (∀ i, i < length (known_files st) →
              is_Some (OD.get (edges st) i) ∧ is_Some (OD.get (weights st) i)) ∧
        (∀ i j f g,
           known_files st !! i = Some f → known_files st !! j = Some g →
           edge_weight (edges st) (weights st) i j =
           if decide (cooccurrence aggregated f g = 0) then None
           else Some (cooccurrence aggregated f g)).
Proof.
  intros Hnodup Hfit HfitU.
  destruct (accumulate_total aggregated Hnodup Hfit HfitU) as [st Hacc].
  destruct (accumulate_ok _ _ Hacc)
    as ((Hok & Hkeys & Hnd & Hbound & _) & Hcomplete & Hknown).
  destruct (accumulate_weights _ _ Hacc) as (Hent & Hwt).
  assert (Forall NoDup (retained_issues aggregated)) as HP.
  { apply Forall_forall. intros F HF.
    apply elem_of_retained in HF as [_ [key HF]].
    rewrite Forall_forall in Hnodup. apply (Hnodup _ HF). }
  assert (∀ i, i ∈ OD.keys (edges st) → is_Some (OD.get (edges st) i)) as HgetE.
  { intros i Hi. destruct (OD.get (edges st) i) eqn:Hg; [done|].
    by apply ODFacts.get_None in Hg. }
  assert (∀ i, i ∈ OD.keys (weights st) → is_Some (OD.get (weights st) i))
    as HgetW.
  { intros i Hi. destruct (OD.get (weights st) i) eqn:Hg; [done|].
    by apply ODFacts.get_None in Hg. }
  exists st. split; [done|]. split; [done|].
  split; [by apply accumulate_aligned|]. split.
  - intros i Hi. specialize (Hcomplete i Hi). split; [by apply HgetE|].
    apply HgetW. by rewrite <- Hkeys.
  - intros i j f g Hf Hg.
    assert (node_weight st i j = cooccurrence aggregated f g) as Hnw.
    { rewrite Hwt. by apply cooccurrence_sum. }
    unfold edge_weight, node_weight in *.
    destruct (OD.get (edges st) i) as [e|] eqn:He; cbn.
    + destruct (OD.get (weights st) i) as [w|] eqn:Hw; cbn.
      * rewrite <- Hnw. apply edge_weight_entry. by eapply Hent.
      * rewrite <- Hnw. done.
    + rewrite <- Hnw. done.
Qed.

Lemma accumulation_is_correct_witness :
  ∃ st, accumulate (OD.values out_of_order_input) = Ok st ∧
        known_files st = first_seen (concat (retained_issues out_of_order_input)) ∧
        weights_aligned out_of_order_input (known_files st) (edges st)
                        (weights st) ∧
        (∀ i, i < length (known_files st) →
              is_Some (OD.get (edges st) i) ∧ is_Some (OD.get (weights st) i)) ∧
        (∀ i j f g,
           known_files st !! i = Some f → known_files st !! j = Some g →
           edge_weight (edges st) (weights st) i j =
           if decide (cooccurrence out_of_order_input f g = 0) then None
           else Some (cooccurrence out_of_order_input f g)).
Proof.
  apply (accumulation_is_correct out_of_order_input).
  - repeat constructor; set_solver.
  - reflexivity.
  - reflexivity.
Defined.

(** On such an input the function returns a graph exactly when every
    positive co-occurrence count (the self counts included) is smaller
    than the number of distinct files of the retained issues; otherwise
    line 219 raises [KeyError]. *)
Theorem returns_iff_counts_below_node_count
    (aggregated : odict string (list string)) :
  Forall (λ kv, NoDup kv.2) aggregated →
  fits_uint (length aggregated) = true →
  fits_uint (length (concat (retained_issues aggregated))) = true →
  (∃ r, correlate_files_with_each_other aggregated = Ok r) ↔
  (∀ f g, 0 < cooccurrence aggregated f g →
          cooccurrence aggregated f g <
          length (first_seen (concat (retained_issues aggregated)))).
Proof.
  intros Hnodup Hfit HfitU.
  destruct (accumulate_total aggregated Hnodup Hfit HfitU) as [st Hacc].
  rewrite (finalize_returns_iff aggregated st Hacc).
  destruct (accumulate_ok _ _ Hacc)
    as ((Hok & Hkeys & Hnd & Hbound & _) & _ & Hknown).
  fold (retained_issues aggregated) in Hknown.
  destruct (accumulate_weights _ _ Hacc) as (Hent & Hwt).
  fold (retained_issues aggregated) in Hwt.
  pose proof (accumulate_aligned aggregated st Hnodup Hacc) as Hal.
  assert (Forall NoDup (retained_issues aggregated)) as HP.
  { apply Forall_forall. intros F HF.
    apply elem_of_retained in HF as [_ [key HF]].
    rewrite Forall_forall in Hnodup. apply (Hnodup _ HF). }
  rewrite <- Hknown. split.
  - intros Hids f g Hpos.
    assert (f ∈ known_files st ∧ g ∈ known_files st) as [Hf Hg].
    { unfold cooccurrence in Hpos.
      destruct (filter _ (retained_issues aggregated)) as [|F l] eqn:Hfil;
        [cbn in Hpos; lia|].
      assert (F ∈ F :: l) as HF by left. rewrite <- Hfil in HF.
      apply list_elem_of_filter in HF as [[HfF HgF] HF].
      rewrite Hknown. split; apply elem_of_first_seen_from; right;
        apply elem_of_concat; by exists F. }
    apply list_elem_of_lookup in Hf as [i Hi].
    apply list_elem_of_lookup in Hg as [j Hj].
    assert (node_weight st i j = cooccurrence aggregated f g) as Hnw.
    { rewrite Hwt. by apply cooccurrence_sum. }
    unfold node_weight in Hnw.
    destruct (OD.get (edges st) i) as [e|] eqn:He; [|lia].
    destruct (OD.get (weights st) i) as [w|] eqn:Hw; [|lia].
    pose proof (Hent i e w He Hw) as Hentry.
    assert (j ∈ e) as Hin.
    { apply (entry_weight_positive e w); [done|]. lia. }
    apply list_elem_of_lookup in Hin as [k Hk].
    destruct Hentry as (Hlen & Hnde & _).
    destruct (lookup_lt_is_Some_2 w k) as [x Hx].
    { rewrite <- Hlen. by eapply lookup_lt_Some. }
    rewrite (entry_weight_lookup e w k j x) in Hnw by done. subst x.
    apply (Hids i w); [by apply ODFacts.get_Some_elem|].
    by eapply list_elem_of_lookup_2.
  - intros Hcounts i w x Hin Hx.
    apply ODFacts.elem_get_Some in Hin; [|by rewrite <- Hkeys].
    destruct (OD.get (edges st) i) as [e|] eqn:He.
    2:{ apply get_Some_key in Hin. apply ODFacts.get_None in He.
        by rewrite Hkeys in He. }
    destruct (Hal i e (ODFacts.get_Some_elem _ _ _ He))
      as (w' & f & Hw' & Hf & _ & Hlen & Hcount).
    rewrite Hin in Hw'. injection Hw' as <-.
    destruct (Hent i e w He Hin) as (_ & _ & Hpos).
    apply list_elem_of_lookup in Hx as [k Hk].
    destruct (lookup_lt_is_Some_2 e k) as [j Hj].
    { rewrite <- Hlen. by eapply lookup_lt_Some. }
    destruct (Hcount k j x Hj Hk) as (g & _ & ->).
    apply Hcounts. rewrite Forall_forall in Hpos. apply Hpos.
    by eapply list_elem_of_lookup_2.
Qed.

Lemma returns_iff_counts_below_node_count_witness :
  ¬ ∃ r, correlate_files_with_each_other single_file_input = Ok r.
Proof.
  intros Hr.
  refine (Nat.lt_irrefl 1
            (proj1 (returns_iff_counts_below_node_count single_file_input _ _ _)
                   Hr "A" "A" _)).
  - repeat constructor; set_solver.
  - reflexivity.
  - reflexivity.
  - vm_compute. lia.
Defined.


(** ** The aggregation on arbitrary records *)

(** Lines 111-114 and 144-147 never miss a key when every key of [mapped]
    has a date; the keys of the result are distinct and are the composite
    keys of the keys of [mapped]. *)
Lemma add_dates_keys {V : Type} (idl : gmap string string)
    (mapped : odict string V) :
  (∀ k, k ∈ OD.keys mapped → is_Some (idl !! k)) →
  ∃ out, add_dates idl mapped = Ok out ∧ NoDup (OD.keys out) ∧
    ∀ key, key ∈ OD.keys out ↔
           ∃ k, k ∈ OD.keys mapped ∧ key = date_of idl k +:+ ":" +:+ k.
Proof.
  unfold add_dates. intros Hidl.
  cut (∀ withdate : odict string V, NoDup (OD.keys withdate) →
         ∃ out, for_each (λ withdate kv,
                            date ← gm_getitem idl kv.1;
                            Ok (OD.set withdate (date +:+ ":" +:+ kv.1) kv.2))
                         mapped withdate = Ok out ∧
                NoDup (OD.keys out) ∧
                ∀ key, key ∈ OD.keys out ↔
                       key ∈ OD.keys withdate ∨
                       ∃ k, k ∈ OD.keys mapped ∧
                            key = date_of idl k +:+ ":" +:+ k).
  { intros Hcut. destruct (Hcut [] (NoDup_nil_2)) as (out & Hrun & Hnd & Hkeys).
    exists out. split; [done|]. split; [done|].
    intros key. rewrite Hkeys. cbn. set_solver. }
  induction mapped as [|[k v] mapped IH]; intros withdate Hnd;
    cbn [for_each fst snd].
  - exists withdate. split; [done|]. split; [done|].
    intros key. split; [by left|]. intros [?|(k & Hk & _)]; [done|].
    by apply not_elem_of_nil in Hk.
  - destruct (Hidl k) as [d Hd]; [cbn; set_solver|].
    rewrite (gm_getitem_Some _ _ _ Hd). cbn [mbind result_bind].
    destruct (IH (λ k' Hk', Hidl k' ltac:(cbn; set_solver))
                 (OD.set withdate (d +:+ ":" +:+ k) v)
                 (ODFacts.NoDup_keys_set _ _ _ Hnd))
      as (out & Hrun & Hndo & Hkeys).
    exists out. split; [done|]. split; [done|].
    intros key. rewrite Hkeys, ODFacts.keys_set.
    assert (date_of idl k = d) as Hdk by (unfold date_of; by rewrite Hd).
    split.
    + intros [Hin|(k' & Hk' & ->)].
      * case_decide; [by left|]. apply elem_of_app in Hin as [?|Hin]; [by left|].
        apply list_elem_of_singleton in Hin as ->. right. exists k.
        split; [left|by rewrite Hdk].
      * right. exists k'. split; [by right|done].
    + intros [Hin|(k' & Hk' & ->)].
      * left. case_decide; [done|]. apply elem_of_app. by left.
      * cbn in Hk'. apply elem_of_cons in Hk' as [->|Hk'].
        -- left. rewrite Hdk. case_decide; [done|]. apply elem_of_app. right.
           by apply list_elem_of_singleton.
        -- right. by exists k'.
Qed.

(** The keys of [mapped] after the collecting loop are the issues of the
    records, and each has its latest date. *)
Lemma collected_keys {V X : Type} (op : V → X → V) (v0 : V)
    (items : ChangeRecord → list X) (changes : list ChangeRecord)
    (idl : gmap string string) (mapped : odict string V) :
  collect_inv op v0 items changes (idl, mapped) →
  (∀ k, k ∈ OD.keys mapped ↔ ∃ r, r ∈ changes ∧ rec_issue r = k) ∧
  (∀ k, k ∈ OD.keys mapped → is_latest_date changes k (date_of idl k)) ∧
  (∀ k d, is_latest_date changes k d → k ∈ OD.keys mapped ∧ date_of idl k = d).
Proof.
  intros Hinv. pose proof Hinv as (Hnd & Hmapped & Hidl). cbn [fst snd] in *.
  assert (∀ k, k ∈ OD.keys mapped ↔ ∃ r, r ∈ changes ∧ rec_issue r = k) as Hk.
  { intros k. specialize (Hmapped k). split.
    - intros Hin. destruct (records_of changes k) as [|r l] eqn:Hrec.
      + apply ODFacts.get_None in Hmapped. done.
      + exists r. apply elem_of_records_of. rewrite Hrec. left.
    - intros (r & Hr & Hi).
      assert (r ∈ records_of changes k) as Hin by by apply elem_of_records_of.
      destruct (records_of changes k); [by apply not_elem_of_nil in Hin|].
      destruct (decide (k ∈ OD.keys mapped)) as [|Hn]; [done|].
      apply ODFacts.get_None in Hn. congruence. }
  split; [exact Hk|]. split.
  - intros k Hin. by eapply key_has_date.
  - intros k d Hd. pose proof Hd as [(r & Hr & Hi & _) _]. split.
    + apply Hk. eauto.
    + unfold date_of. by rewrite (date_of_latest _ _ _ _ _ _ Hinv _ _ Hd).
Qed.

(** Whatever the records are, neither aggregation raises: every lookup of
    lines 109, 113, 138 and 146 finds its key.  Both results have the same
    keys, the keys are distinct, and they are the composite keys
    [latest_date + ":" + issue_id] of the issues of the records. *)
Theorem aggregation_never_raises (changes : list ChangeRecord) :
  ∃ agg sums,
    aggregate_files_per_issue changes = Ok agg ∧
    sum_filesizes_per_issue changes = Ok sums ∧
    NoDup (OD.keys agg) ∧ sums.*1 ≡ₚ OD.keys agg ∧
    ∀ key, key ∈ OD.keys agg ↔
           ∃ issue d, key = d +:+ ":" +:+ issue ∧
                      is_latest_date changes issue d.
Proof.
  unfold aggregate_files_per_issue, sum_filesizes_per_issue.
  destruct (collect_loop (λ (v : gset string) f, {[f]} ∪ v) ∅ rec_files changes)
    as ([idl1 m1] & Hrun1 & Hinv1).
  destruct (collect_loop Z.add 0%Z rec_sizes changes)
    as ([idl2 m2] & Hrun2 & Hinv2).
  rewrite aggregate_step_collect, sum_step_collect, Hrun1, Hrun2.
  cbn [mbind result_bind fst snd].
  destruct (collected_keys _ _ _ _ _ _ Hinv1) as (Hk1 & Hl1 & Hd1).
  destruct (collected_keys _ _ _ _ _ _ Hinv2) as (Hk2 & Hl2 & Hd2).
  assert (OD.keys (freeze m1) = OD.keys m1) as Hfreeze.
  { unfold OD.keys, freeze. by rewrite <- list_fmap_compose. }
  destruct (add_dates_keys idl1 (freeze m1)) as (agg & -> & Hnd1 & Hkeys1).
  { rewrite Hfreeze. intros k Hk. exists (date_of idl1 k).
    eapply date_of_latest; [exact Hinv1|]. by apply Hl1. }
  destruct (add_dates_keys idl2 m2) as (withdate & -> & Hnd2 & Hkeys2).
  { intros k Hk. exists (date_of idl2 k).
    eapply date_of_latest; [exact Hinv2|]. by apply Hl2. }
  cbn [mbind result_bind]. exists agg. eexists. split; [done|]. split; [done|].
  assert (∀ key, key ∈ OD.keys agg ↔
            ∃ issue d, key = d +:+ ":" +:+ issue ∧
                       is_latest_date changes issue d) as Hagg.
  { intros key. rewrite Hkeys1, Hfreeze. split.
    - intros (k & Hk & ->). exists k, (date_of idl1 k). split; [done|].
      by apply Hl1.
    - intros (issue & d & -> & Hd). exists issue.
      destruct (Hd1 _ _ Hd) as [Hin ->]. done. }
  split; [done|]. split; [|done].
  rewrite sorted_Permutation. apply NoDup_Permutation; [done..|].
  intros key. rewrite Hagg. fold (OD.keys withdate). rewrite Hkeys2. split.
  - intros (k & Hk & ->). exists k, (date_of idl2 k). split; [done|].
    by apply Hl2.
  - intros (issue & d & -> & Hd). exists issue.
    destruct (Hd2 _ _ Hd) as [Hin ->]. done.
Qed.

(** The set collected for an issue is the set of the files of its
    records. *)
Lemma collected_files (changes : list ChangeRecord) (issue : string) :
  collected (λ (v : gset string) f, {[f]} ∪ v) ∅ rec_files changes issue =
  list_to_set (concat (rec_files <$> records_of changes issue)).
Proof.
  apply set_eq. intros f. unfold collected.
  rewrite elem_of_foldl_add, elem_of_list_to_set. set_solver.
Qed.

(** The entries of the result of [aggregate_files_per_issue]. *)
Lemma aggregate_output (changes : list ChangeRecord) :
  Forall (λ r, contains_char ":" (rec_date r) = false) changes →
  ∃ out, aggregate_files_per_issue changes = Ok out ∧
    NoDup (OD.keys out) ∧
    ∀ key files, (key, files) ∈ out ↔
      ∃ issue d, key = d +:+ ":" +:+ issue ∧ is_latest_date changes issue d ∧
        files = sorted String.ltb
                  (elements (list_to_set (C := gset string)
                     (concat (rec_files <$> records_of changes issue)))).
Proof.
  intros Hdates. unfold aggregate_files_per_issue.
  destruct (collect_loop (λ (v : gset string) f, {[f]} ∪ v) ∅ rec_files changes)
    as ([idl mapped] & Hrun & Hinv).
  rewrite aggregate_step_collect, Hrun. cbn [mbind result_bind fst snd].
  assert (OD.keys (freeze mapped) = OD.keys mapped) as Hkeys.
  { unfold OD.keys, freeze. by rewrite <- list_fmap_compose. }
  rewrite (with_dates _ _ _ _ _ _ Hdates Hinv _ Hkeys).
  eexists. split; [done|].
  assert (NoDup (OD.keys ((λ kv, (date_of idl kv.1 +:+ ":" +:+ kv.1, kv.2))
                            <$> freeze mapped))) as Hnd.
  { unfold OD.keys, freeze. rewrite <- !list_fmap_compose.
    pose proof (composite_keys_NoDup _ _ _ _ _ _ Hdates Hinv) as Hc.
    unfold OD.keys in Hc. by rewrite <- list_fmap_compose in Hc. }
  split; [exact Hnd|]. intros key files. split.
  - intros Hin. apply list_elem_of_fmap in Hin as ([k fs] & [= -> ->] & Hin).
    apply list_elem_of_fmap in Hin as ([k' v] & [= -> ->] & Hin).
    destruct (mapped_entry _ _ _ _ _ _ Hinv _ _ Hin) as [Hd ->].
    exists k', (date_of idl k'). split; [done|]. split; [done|].
    cbn [snd]. by rewrite collected_files.
  - intros (issue & d & -> & Hd & ->).
    pose proof (mapped_of_issue _ _ _ _ _ _ Hinv _ _ Hd) as Hget.
    pose proof (date_of_latest _ _ _ _ _ _ Hinv _ _ Hd) as Hdate.
    apply list_elem_of_fmap. eexists (issue, _). split.
    + cbn. unfold date_of. rewrite Hdate. cbn. reflexivity.
    + apply list_elem_of_fmap. eexists (issue, _). split.
      * cbn. rewrite <- collected_files. reflexivity.
      * by apply ODFacts.get_Some_elem.
Qed.

(** The entries of the result of [sum_filesizes_per_issue]. *)
Lemma sum_output (changes : list ChangeRecord) :
  Forall (λ r, contains_char ":" (rec_date r) = false) changes →
  ∃ out, sum_filesizes_per_issue changes = Ok out ∧
    StronglySorted (strict String.le) out.*1 ∧
    ∀ key total, (key, total) ∈ out ↔
      ∃ issue d, key = d +:+ ":" +:+ issue ∧ is_latest_date changes issue d ∧
                 total = size_total changes issue.
Proof.
  intros Hdates. unfold sum_filesizes_per_issue.
  destruct (collect_loop Z.add 0%Z rec_sizes changes)
    as ([idl mapped] & Hrun & Hinv).
  rewrite sum_step_collect, Hrun. cbn [mbind result_bind fst snd].
  rewrite (with_dates _ _ _ _ _ _ Hdates Hinv _ eq_refl).
  cbn [mbind result_bind]. eexists. split; [done|]. split.
  - apply sorted_totals. rewrite <- list_fmap_compose.
    pose proof (composite_keys_NoDup _ _ _ _ _ _ Hdates Hinv) as Hnd.
    unfold OD.keys in Hnd. by rewrite <- list_fmap_compose in Hnd.
  - intros key total. rewrite elem_of_sorted, list_elem_of_fmap. split.
    + intros ([k v] & [= -> ->] & Hin). exists k, (date_of idl k).
      destruct (mapped_entry _ _ _ _ _ _ Hinv _ _ Hin) as [Hd ->].
      split; [done|]. split; [done|].
      unfold collected, size_total. rewrite foldl_Zadd. lia.
    + intros (issue & d & -> & Hd & ->).
      exists (issue, collected Z.add 0%Z rec_sizes changes issue). split.
      * cbn [fst snd]. unfold date_of.
        rewrite (date_of_latest _ _ _ _ _ _ Hinv _ _ Hd). cbn. f_equal.
        unfold collected, size_total. rewrite foldl_Zadd. lia.
      * apply ODFacts.get_Some_elem. by eapply mapped_of_issue.
Qed.

Lemma is_latest_date_Permutation (changes changes' : list ChangeRecord)
    (issue d : string) :
  changes ≡ₚ changes' →
  is_latest_date changes issue d ↔ is_latest_date changes' issue d.
Proof.
  intros Hp. unfold is_latest_date.
  by setoid_rewrite (elem_of_Permutation_proper _ _ _ Hp).
Qed.

Lemma size_total_cons (r : ChangeRecord) (changes : list ChangeRecord)
    (issue : string) :
  size_total (r :: changes) issue =
  ((if decide (rec_issue r = issue) then foldr Z.add 0 (rec_sizes r) else 0)
   + size_total changes issue)%Z.
Proof.
  unfold size_total, records_of. rewrite filter_cons.
  case_decide; cbn; [|lia].
  rewrite foldr_app. generalize (foldr Z.add 0%Z
    (concat (rec_sizes <$> filter (λ r, rec_issue r = issue) changes))).
  intros z. induction (rec_sizes r) as [|x l IH]; cbn; lia.
Qed.

Lemma size_total_Permutation (changes changes' : list ChangeRecord)
    (issue : string) :
  changes ≡ₚ changes' → size_total changes issue = size_total changes' issue.
Proof.
  induction 1 as [|r l l' _ IH|r1 r2 l|l1 l2 l3 _ IH1 _ IH2];
    rewrite ?size_total_cons; [done|lia|lia|congruence].
Qed.

Lemma files_Permutation (changes changes' : list ChangeRecord)
    (issue : string) :
  changes ≡ₚ changes' →
  list_to_set (C := gset string)
    (concat (rec_files <$> records_of changes issue)) =
  list_to_set (concat (rec_files <$> records_of changes' issue)).
Proof.
  intros Hp. apply set_eq. intros f.
  rewrite !elem_of_list_to_set, !elem_of_concat_files.
  by setoid_rewrite (elem_of_Permutation_proper _ _ _ Hp).
Qed.

(** Two lists whose keys ascend strictly and that have the same members are
    the same list. *)
Lemma sorted_members_unique {A : Type} (key : A → string) (l l' : list A) :
  StronglySorted (strict String.le) (key <$> l) →
  StronglySorted (strict String.le) (key <$> l') →
  (∀ x, x ∈ l ↔ x ∈ l') → l = l'.
Proof.
  revert l'. induction l as [|x l IH]; intros [|y l'] Hs Hs' Hmem.
  - done.
  - exfalso. apply (not_elem_of_nil y), Hmem. left.
  - exfalso. apply (not_elem_of_nil x), Hmem. left.
  - cbn in Hs, Hs'. apply StronglySorted_inv in Hs as [Hs Hx].
    apply StronglySorted_inv in Hs' as [Hs' Hy].
    rewrite Forall_forall in Hx, Hy.
    assert (∀ z, z ∈ l → strict String.le (key x) (key z)) as Hx'.
    { intros z Hz. apply Hx, list_elem_of_fmap. by exists z. }
    assert (∀ z, z ∈ l' → strict String.le (key y) (key z)) as Hy'.
    { intros z Hz. apply Hy, list_elem_of_fmap. by exists z. }
    assert (x = y) as <-.
    { assert (x ∈ y :: l') as Hxin by (apply Hmem; left).
      assert (y ∈ x :: l) as Hyin by (apply Hmem; left).
      apply elem_of_cons in Hxin as [?|Hxl']; [done|].
      apply elem_of_cons in Hyin as [?|Hyl]; [done|].
      destruct (Hx' _ Hyl) as [H1 H2]. destruct (Hy' _ Hxl') as [H3 H4]. done. }
    f_equal. apply IH; [done..|]. intros z. split; intros Hz.
    + assert (z ∈ x :: l') as Hin by (apply Hmem; by right).
      apply elem_of_cons in Hin as [->|?]; [|done].
      destruct (Hx' _ Hz) as [_ []]. done.
    + assert (z ∈ x :: l) as Hin by (apply Hmem; by right).
      apply elem_of_cons in Hin as [->|?]; [|done].
      destruct (Hy' _ Hz) as [_ []]. done.
Qed.

(** The totals do not depend on the order of the records: when no date
    contains a colon, [sum_filesizes_per_issue] returns the same list for
    every rearrangement of its argument. *)
Theorem sum_filesizes_order_independent (changes changes' : list ChangeRecord) :
  Forall (λ r, contains_char ":" (rec_date r) = false) changes →
  changes ≡ₚ changes' →
  sum_filesizes_per_issue changes' = sum_filesizes_per_issue changes.
Proof.
  intros Hdates Hp.
  assert (Forall (λ r, contains_char ":" (rec_date r) = false) changes')
    as Hdates' by by rewrite <- Hp.
  destruct (sum_output changes Hdates) as (out & -> & Hs & Hout).
  destruct (sum_output changes' Hdates') as (out' & -> & Hs' & Hout').
  f_equal. apply (sorted_members_unique fst); [done..|].
  intros [key total]. rewrite Hout, Hout'.
  setoid_rewrite (is_latest_date_Permutation _ _ _ _ Hp).
  by setoid_rewrite (size_total_Permutation _ _ _ Hp).
Qed.

Lemma sum_filesizes_order_independent_witness :
  sum_filesizes_per_issue (reverse scenario_C) =
  sum_filesizes_per_issue scenario_C.
Proof.
  apply (sum_filesizes_order_independent scenario_C (reverse scenario_C)).
  - repeat constructor.
  - symmetry. apply reverse_Permutation.
Defined.

(** Nor do the file tuples: when no date contains a colon,
    [aggregate_files_per_issue] returns the same entries for every
    rearrangement of its argument (the order of the entries may differ, it
    is the order in which the issues first occur). *)
Theorem aggregate_files_order_independent (changes changes' : list ChangeRecord) :
  Forall (λ r, contains_char ":" (rec_date r) = false) changes →
  changes ≡ₚ changes' →
  ∃ out out', aggregate_files_per_issue changes = Ok out ∧
              aggregate_files_per_issue changes' = Ok out' ∧
              out ≡ₚ out'.
Proof.
  intros Hdates Hp.
  assert (Forall (λ r, contains_char ":" (rec_date r) = false) changes')
    as Hdates' by by rewrite <- Hp.
  destruct (aggregate_output changes Hdates) as (out & Hrun & Hnd & Hout).
  destruct (aggregate_output changes' Hdates') as (out' & Hrun' & Hnd' & Hout').
  exists out, out'. split; [done|]. split; [done|].
  apply NoDup_Permutation.
  - by apply (NoDup_fmap_1 fst).
  - by apply (NoDup_fmap_1 fst).
  - intros [key files]. rewrite Hout, Hout'.
    setoid_rewrite (is_latest_date_Permutation _ _ _ _ Hp).
    by setoid_rewrite (files_Permutation _ _ _ Hp).
Qed.

Lemma aggregate_files_order_independent_witness :
  ∃ out out', aggregate_files_per_issue scenario_C = Ok out ∧
              aggregate_files_per_issue (reverse scenario_C) = Ok out' ∧
              out ≡ₚ out'.
Proof.
  apply (aggregate_files_order_independent scenario_C (reverse scenario_C)).
  - repeat constructor.
  - symmetry. apply reverse_Permutation.
Defined.

(** [count_files_per_issue] of the aggregated records pairs every composite
    key with the number of distinct files of the records of its issue, a
    file listed by several records counting once. *)
Theorem count_of_aggregated (changes : list ChangeRecord) :
  Forall (λ r, contains_char ":" (rec_date r) = false) changes →
  ∃ out, aggregate_files_per_issue changes = Ok out ∧
    ∀ key n, (key, n) ∈ count_files_per_issue out ↔
      ∃ issue d, key = d +:+ ":" +:+ issue ∧ is_latest_date changes issue d ∧
        n = size (list_to_set (C := gset string)
                    (concat (rec_files <$> records_of changes issue))).
Proof.
  intros Hdates.
  destruct (aggregate_output changes Hdates) as (out & Hrun & Hnd & Hout).
  exists out. split; [done|]. intros key n.
  unfold count_files_per_issue. rewrite list_elem_of_fmap. split.
  - intros ([k files] & [= -> ->] & Hin).
    apply Hout in Hin as (issue & d & -> & Hd & ->).
    exists issue, d. split; [done|]. split; [done|].
    cbn [snd]. by rewrite length_sorted.
  - intros (issue & d & -> & Hd & ->). eexists (_, _). split; last first.
    + apply Hout. exists issue, d. done.
    + cbn [fst snd]. by rewrite length_sorted.
Qed.

Lemma count_of_aggregated_witness :
  ∃ out, aggregate_files_per_issue scenario_C = Ok out ∧
    ∀ key n, (key, n) ∈ count_files_per_issue out ↔
      ∃ issue d, key = d +:+ ":" +:+ issue ∧ is_latest_date scenario_C issue d ∧
        n = size (list_to_set (C := gset string)
                    (concat (rec_files <$> records_of scenario_C issue))).
Proof.
  apply (count_of_aggregated scenario_C). repeat constructor.
Defined.

(** ** Lines written by [format_todo_entry] *)

Lemma string_app_assoc (s t u : string) : (s +:+ t) +:+ u = s +:+ (t +:+ u).
Proof.
  induction s as [|a s IH]; [reflexivity|].
  rewrite !string_app_cons, IH. reflexivity.
Qed.

Lemma contains_char_app (c : ascii) (s t : string) :
  contains_char c (s +:+ t) = contains_char c s || contains_char c t.
Proof.
  induction s as [|a s IH]; [reflexivity|].
  rewrite string_app_cons. cbn [contains_char]. rewrite IH.
  by rewrite orb_assoc.
Qed.

Section split_inverse.
Variable c : ascii.

(** A field cut off by [split]: it is followed by the separator. *)
Lemma split_fields_app (s t : string) :
  split_fields c (s +:+ String c t) =
  ((split_fields c s).1, (split_fields c s).2 ++ split c t).
Proof.
  induction s as [|a s IH]; rewrite ?string_app_nil, ?string_app_cons;
    cbn [split_fields].
  - rewrite Ascii.eqb_refl. reflexivity.
  - rewrite IH. destruct (Ascii.eqb a c); reflexivity.
Qed.

Lemma split_app (s t : string) :
  split c (s +:+ String c t) = split c s ++ split c t.
Proof. unfold split at 1 2. rewrite split_fields_app. reflexivity. Qed.

Lemma split_none (s : string) : contains_char c s = false → split c s = [s].
Proof. intros Hs. unfold split. by rewrite split_fields_none. Qed.

(** [c.join(s.split(c)) == s] *)
Lemma join_split (s : string) :
  String.concat (String c "") (split c s) = s.
Proof.
  unfold split. induction s as [|a s IH]; [reflexivity|].
  cbn [split_fields]. destruct (Ascii.eqb a c) eqn:Hac.
  - apply Ascii.eqb_eq in Hac as ->. cbn [fst snd].
    change (String.concat (String c "")
              ("" :: (split_fields c s).1 :: (split_fields c s).2))
      with ("" +:+ String c "" +:+
            String.concat (String c "")
              ((split_fields c s).1 :: (split_fields c s).2)).
    rewrite IH. reflexivity.
  - cbn [fst snd]. rewrite <- IH at 3.
    destruct (split_fields c s).2 as [|y ys]; reflexivity.
Qed.

(** [c.join(l).split(c) == l] for a non-empty [l] of fields without
    [c]. *)
Lemma split_join (l : list string) :
  l ≠ [] → Forall (λ s, contains_char c s = false) l →
  split c (String.concat (String c "") l) = l.
Proof.
  induction l as [|s l IH]; [done|]. intros _ Hl.
  apply Forall_cons in Hl as [Hs Hl]. destruct l as [|t l].
  - cbn [String.concat]. by apply split_none.
  - change (String.concat (String c "") (s :: t :: l))
      with (s +:+ String c "" +:+ String.concat (String c "") (t :: l)).
    rewrite string_app_cons, string_app_nil, split_app, (split_none s Hs).
    rewrite IH by done. reflexivity.
Qed.

(** What [split_fields_max] returns determines the string. *)
Lemma split_fields_max_inv (n : nat) (s x : string) (ys : list string) :
  split_fields_max c (S n) s = (x, ys) →
  (ys = [] ∧ x = s ∧ contains_char c s = false) ∨
  (∃ s', s = x +:+ String c s' ∧ contains_char c x = false ∧
         ys = (split_fields_max c n s').1 :: (split_fields_max c n s').2).
Proof.
  revert x ys. induction s as [|a s IH]; intros x ys; cbn [split_fields_max].
  - intros [= <- <-]. by left.
  - destruct (Ascii.eqb a c) eqn:Hac.
    + apply Ascii.eqb_eq in Hac as ->. intros [= <- <-]. right. exists s.
      by rewrite string_app_nil.
    + destruct (split_fields_max c (S n) s) as [x' ys'] eqn:Hs.
      cbn [fst snd]. intros [= <- <-].
      destruct (IH x' ys' eq_refl) as [(-> & -> & Hc)|(s' & -> & Hc & ->)].
      * left. cbn [contains_char]. by rewrite Hac, Hc.
      * right. exists s'. rewrite string_app_cons. cbn [contains_char].
        by rewrite Hac, Hc.
Qed.
End split_inverse.

(** The line of four fields that [taskline.split(" ", 3)] has cut. *)
Lemma split_max_taskline_inv (taskline commit_id issue_id isodate rest : string) :
  split_max " " 3 taskline = [commit_id; issue_id; isodate; rest] →
  taskline = commit_id +:+ " " +:+ issue_id +:+ " " +:+ isodate +:+ " " +:+ rest ∧
  contains_char " " commit_id = false ∧
  contains_char " " issue_id = false ∧
  contains_char " " isodate = false.
Proof.
  unfold split_max. intros Hs.
  destruct (split_fields_max " " 3 taskline) as [x ys] eqn:H1.
  cbn [fst snd] in Hs. injection Hs as -> ->.
  apply split_fields_max_inv in H1 as [(? & _)|(s1 & -> & Hc & Hys)]; [done|].
  destruct (split_fields_max " " 2 s1) as [x ys] eqn:H2.
  cbn [fst snd] in Hys. injection Hys as <- <-.
  apply split_fields_max_inv in H2 as [(? & _)|(s2 & -> & Hi & Hys)]; [done|].
  destruct (split_fields_max " " 1 s2) as [x ys] eqn:H3.
  cbn [fst snd] in Hys. injection Hys as <- <-.
  apply split_fields_max_inv in H3 as [(? & _)|(s3 & -> & Hd & Hys)]; [done|].
  rewrite split_fields_max_0 in Hys. cbn [fst snd] in Hys. injection Hys as <-.
  rewrite !(string_app_cons " " ""), !string_app_nil. done.
Qed.

Lemma split_once_Some (s x y : string) :
  split_once ": " s = Some (x, y) → s = x +:+ ": " +:+ y.
Proof.
  revert x. induction s as [|a s IH]; intros x; [discriminate|].
  rewrite split_once_cons, prefix_colon_space.
  destruct (Ascii.eqb a ":") eqn:Ha; cbn [andb].
  - destruct s as [|b s].
    + cbn. discriminate.
    + destruct (Ascii.eqb b " ") eqn:Hb.
      * apply Ascii.eqb_eq in Ha as ->. apply Ascii.eqb_eq in Hb as ->.
        intros [= <- <-]. reflexivity.
      * destruct (split_once ": " (String b s)) as [[x' y']|] eqn:Hs;
          [|discriminate].
        intros [= <- <-]. rewrite string_app_cons, <- (IH x' eq_refl).
        reflexivity.
  - destruct (split_once ": " s) as [[x' y']|] eqn:Hs; [|discriminate].
    intros [= <- <-]. rewrite string_app_cons, <- (IH x' eq_refl).
    reflexivity.
Qed.

Lemma split_once_is_Some (x y : string) :
  is_Some (split_once ": " (x +:+ ": " +:+ y)).
Proof.
  induction x as [|a x IH].
  - rewrite string_app_nil, !string_app_cons, string_app_nil.
    rewrite split_once_cons, prefix_colon_space. by eexists.
  - rewrite string_app_cons, split_once_cons.
    destruct (String.prefix _ _); [by eexists|].
    destruct IH as [[x' y'] ->]. by eexists.
Qed.

(** [process_taskline] raises nothing but [ValueError], and it returns a
    record exactly for the lines that consist of three fields without a
    space, each followed by one space, and a remainder containing [": "];
    the record has the second and third field as issue id and date. *)
Theorem process_taskline_accepts (py_int : string → option Z)
    (taskline : string) :
  (∃ commit_id issue_id isodate before after files sizes log,
     taskline_shape taskline commit_id issue_id isodate before after ∧
     process_taskline py_int taskline =
       Ok ((issue_id, isodate, files, sizes), log)) ∨
  (process_taskline py_int taskline = Raise ValueError ∧
   ¬ ∃ commit_id issue_id isodate before after,
       taskline_shape taskline commit_id issue_id isodate before after).
Proof.
  set (shaped := taskline_shape taskline).
  assert (∀ c i d b a, shaped c i d b a →
            split_max " " 3 taskline = [c; i; d; b +:+ ": " +:+ a]) as Hshape.
  { intros c i d b a (-> & Hc & Hi & Hd). by apply split_max_taskline. }
  unfold process_taskline.
  destruct (split_max " " 3 taskline)
    as [|c [|i [|d [|rest [|more l]]]]] eqn:Hsplit;
    try (right; split; [reflexivity|];
         intros (c' & i' & d' & b & a & Hs);
         specialize (Hshape _ _ _ _ _ Hs); discriminate Hshape).
  destruct (split_max_taskline_inv _ _ _ _ _ Hsplit) as (Ht & Hc & Hi & Hd).
  destruct (split_once ": " rest) as [[fs title]|] eqn:Hrest.
  - left. apply split_once_Some in Hrest as ->.
    exists c, i, d, fs, title.
    destruct (decide (fs = ":")); eexists _, _, _; split; done.
  - right. split; [reflexivity|].
    intros (c' & i' & d' & b & a & Hs).
    specialize (Hshape _ _ _ _ _ Hs). injection Hshape as _ _ _ ->.
    destruct (split_once_is_Some b a) as [? Hsome]. congruence.
Qed.

Lemma pretty_N_go_chars (c : ascii) (x : N) (s : string) :
  (∀ d, pretty_N_char d ≠ c) →
  contains_char c (pretty_N_go x s) = contains_char c s.
Proof.
  intros Hc. revert s. induction (N.lt_wf_0 x) as [x _ IH]; intros s.
  destruct (decide (x = 0%N)) as [->|Hx]; [by rewrite pretty_N_go_0|].
  rewrite pretty_N_go_step by lia. rewrite IH by (apply N.div_lt; lia).
  cbn [contains_char]. destruct (Ascii.eqb _ c) eqn:E; [|done].
  apply Ascii.eqb_eq in E. by destruct (Hc _ E).
Qed.

(** [str(i)] has no character other than digits and ["-"]. *)
Lemma py_str_chars (c : ascii) (i : Z) :
  c ≠ "-"%char → (∀ d, pretty_N_char d ≠ c) →
  contains_char c (py_str i) = false.
Proof.
  intros Hdash Hc.
  assert (∀ p, contains_char c (pretty (N.pos p)) = false) as Hpos.
  { intros p. unfold pretty, pretty_N. rewrite decide_False by done.
    by rewrite pretty_N_go_chars. }
  assert (Ascii.eqb "0" c = false) as H0.
  { apply Ascii.eqb_neq. exact (Hc 0%N). }
  destruct i as [|p|p]; unfold py_str, pretty, pretty_Z.
  - cbn [contains_char]. by rewrite H0.
  - apply Hpos.
  - rewrite string_app_cons, string_app_nil. cbn [contains_char].
    replace (Ascii.eqb "-" c) with false
      by (symmetry; apply Ascii.eqb_neq; congruence).
    apply Hpos.
Qed.

Lemma py_str_no_comma (i : Z) : contains_char "," (py_str i) = false.
Proof.
  apply py_str_chars; [done|].
  intros d. unfold pretty_N_char. by repeat case_match.
Qed.

Lemma py_str_no_colon (i : Z) : contains_char ":" (py_str i) = false.
Proof.
  apply py_str_chars; [done|].
  intros d. unfold pretty_N_char. by repeat case_match.
Qed.

Lemma string_app_empty (s t : string) : s +:+ t = "" → s = "" ∧ t = "".
Proof. destruct s; [done|]. rewrite string_app_cons. discriminate. Qed.

Lemma split_cons_sep (c : ascii) (s : string) :
  split c (String c s) = "" :: split c s.
Proof. unfold split. cbn [split_fields]. by rewrite Ascii.eqb_refl. Qed.

(** The two parts of an entry [filename,size]. *)
Lemma entry_parts (f sz : string) :
  contains_char "," sz = false →
  entry_size_text (f +:+ "," +:+ sz) = sz ∧ entry_name (f +:+ "," +:+ sz) = f.
Proof.
  intros Hsz. unfold entry_size_text, entry_name.
  rewrite (string_app_cons "," ""), string_app_nil, split_app,
    (split_none _ _ Hsz).
  split; [apply last_last|]. rewrite removelast_last. apply join_split.
Qed.

Lemma prefix_space (s : string) :
  String.prefix " " s =
  match s with String b _ => Ascii.eqb b " " | "" => false end.
Proof.
  destruct s as [|b s]; [reflexivity|].
  by rewrite prefix_cons, prefix_nil, andb_true_r.
Qed.

Lemma prefix_space_app (s t : string) (a : ascii) :
  a ≠ " "%char → String.prefix " " s = false →
  String.prefix " " (s +:+ String a t) = false.
Proof.
  intros Ha. rewrite !prefix_space. destruct s as [|b s].
  - intros _. rewrite string_app_nil. by apply Ascii.eqb_neq.
  - by rewrite string_app_cons.
Qed.

Lemma split_once_skip (e rest : string) :
  contains_char ":" e = false → split_once ": " rest = None →
  split_once ": " (e +:+ rest) = None.
Proof.
  intros He Hrest. induction e as [|a e IH]; [done|].
  cbn [contains_char] in He. apply orb_false_iff in He as [Ha He].
  rewrite string_app_cons, split_once_cons, prefix_colon_space, Ha, (IH He).
  reflexivity.
Qed.

Lemma split_once_colon (s : string) :
  String.prefix " " s = false → split_once ": " s = None →
  split_once ": " (String ":" s) = None.
Proof.
  intros Hp Hs. rewrite split_once_cons, prefix_colon_space, Hs.
  rewrite prefix_space in Hp. rewrite Hp. reflexivity.
Qed.

(** A manifest whose entries have no colon and no leading space does not
    contain [": "] before its closing colon. *)
Lemma split_once_manifest (entries : list string) :
  Forall (λ e, contains_char ":" e = false ∧ String.prefix " " e = false)
         entries →
  split_once ": " (":" +:+ String.concat ":" entries) = None.
Proof.
  rewrite (string_app_cons ":" ""), string_app_nil.
  induction entries as [|e entries IH]; intros He; [reflexivity|].
  apply Forall_cons in He as [[Hc Hp] He]. destruct entries as [|e' entries].
  - cbn [String.concat]. apply split_once_colon; [done|].
    by apply split_once_no_colon.
  - change (String.concat ":" (e :: e' :: entries))
      with (e +:+ ":" +:+ String.concat ":" (e' :: entries)).
    rewrite (string_app_cons ":" ""), string_app_nil.
    apply split_once_colon; [by apply prefix_space_app|].
    apply split_once_skip; [done|]. by apply IH.
Qed.

Section entries.
Variable py_int : string → option Z.

(** The entries that [format_todo_entry] writes are read back as the
    files and sizes they were written from. *)
Lemma entries_read_back (files : list string) (sizes : list Z) :
  length sizes = length files →
  Forall (λ z, py_int (py_str z) = Some z) sizes →
  let entries := (λ i, String.concat "," [i.1; i.2])
                   <$> zip files (py_str <$> sizes) in
  mapM (λ e, py_int (entry_size_text e)) entries = Some sizes ∧
  entry_name <$> entries = files ∧
  (Forall (λ f, contains_char ":" f = false ∧ String.prefix " " f = false)
          files →
   Forall (λ e, contains_char ":" e = false ∧ String.prefix " " e = false)
          entries) ∧
  (files ≠ [] → entries ≠ [] ∧ String.concat ":" entries ≠ "").
Proof.
  revert sizes. induction files as [|f files IH]; intros [|z sizes] Hlen Hint;
    try discriminate Hlen.
  - repeat split; done.
  - injection Hlen as Hlen. apply Forall_cons in Hint as [Hz Hint].
    destruct (IH sizes Hlen Hint) as (Hm & Hn & Hf & _).
    cbn [zip zip_with fmap list_fmap fst snd].
    change (String.concat "," [f; py_str z]) with (f +:+ "," +:+ py_str z).
    destruct (entry_parts f (py_str z) (py_str_no_comma z)) as [Hsz Hname].
    split; [|split; [|split]].
    + cbn [mapM]. rewrite Hsz, Hz. cbn [mbind option_bind].
      change (mapM (λ e, py_int (entry_size_text e))
                ((λ i, String.concat "," [i.1; i.2])
                   <$> zip files (py_str <$> sizes)) ≫=
              (λ k, mret (z :: k)) = Some (z :: sizes)).
      rewrite Hm. reflexivity.
    + rewrite Hname. f_equal. exact Hn.
    + intros Hfiles. apply Forall_cons in Hfiles as [[Hc Hp] Hfiles].
      constructor; [|by apply Hf]. split.
      * rewrite !contains_char_app, Hc, py_str_no_colon. reflexivity.
      * rewrite (string_app_cons "," ""), string_app_nil.
        by apply prefix_space_app.
    + intros _. split; [done|]. intros Hempty.
      destruct ((λ i : string * string, String.concat "," [i.1; i.2])
                  <$> zip files (py_str <$> sizes)) as [|e es].
      * cbn [String.concat] in Hempty.
        apply string_app_empty in Hempty as [_ Hempty].
        rewrite string_app_cons in Hempty. discriminate.
      * change (String.concat ":" ((f +:+ "," +:+ py_str z) :: e :: es))
          with ((f +:+ "," +:+ py_str z) +:+ ":"
                  +:+ String.concat ":" (e :: es)) in Hempty.
        apply string_app_empty in Hempty as [Hempty _].
        apply string_app_empty in Hempty as [_ Hempty].
        rewrite string_app_cons in Hempty. discriminate.
Qed.
End entries.

(** A line written with files and sizes, cut as [process_taskline] cuts
    it. *)
Lemma format_todo_entry_shape (commit_id issue isodate message : string)
    (files : list string) (sizes : list Z) :
  format_todo_entry commit_id issue isodate message (Some files) (Some sizes)
    +:+ newline =
  commit_id +:+ " " +:+ issue +:+ " " +:+ isodate +:+ " " +:+
  (":" +:+ String.concat ":"
             ((λ i, String.concat "," [i.1; i.2])
                <$> zip files (py_str <$> sizes)))
  +:+ ": " +:+
  (replace_char (ascii_of_nat 10) "---" message +:+ newline).
Proof.
  unfold format_todo_entry. cbn [String.concat].
  rewrite !string_app_assoc. reflexivity.
Qed.

(** Round trip: a line written by [format_todo_entry] with files and sizes
    is read back by [process_taskline] as the issue, the date, the files
    and the sizes it was written from, and nothing is logged.  The three
    leading fields must be free of spaces, no file name may contain a colon
    or begin with a space, there must be a size for every file, and [int]
    must read back what [str] prints for these sizes. *)
Theorem taskline_round_trip (py_int : string → option Z)
    (commit_id issue isodate message : string)
    (files : list string) (sizes : list Z) :
  contains_char " " commit_id = false →
  contains_char " " issue = false →
  contains_char " " isodate = false →
  Forall (λ f, contains_char ":" f = false ∧ String.prefix " " f = false)
         files →
  length sizes = length files →
  Forall (λ z, py_int (py_str z) = Some z) sizes →
  process_taskline py_int
    (format_todo_entry commit_id issue isodate message (Some files) (Some sizes)
       +:+ newline) =
  Ok ((issue, isodate, files, sizes), []).
Proof.
  intros Hc Hi Hd Hfiles Hlen Hint.
  destruct (entries_read_back py_int files sizes Hlen Hint)
    as (Hm & Hn & He & Hne).
  rewrite format_todo_entry_shape. unfold process_taskline.
  rewrite (split_max_taskline _ _ _ _ Hc Hi Hd).
  rewrite (split_once_first _ _ (split_once_manifest _ (He Hfiles))).
  destruct files as [|f files].
  - destruct sizes; [|discriminate Hlen]. reflexivity.
  - destruct (Hne ltac:(done)) as [Hentries Hjoin].
    rewrite decide_False; last first.
    { rewrite (string_app_cons ":" ""), string_app_nil. by intros [= ?]. }
    unfold parse_manifest.
    rewrite (string_app_cons ":" ""), string_app_nil, split_cons_sep.
    cbn [tail]. rewrite split_join; [|done|].
    + rewrite Hm, Hn. reflexivity.
    + eapply Forall_impl; [exact (He Hfiles)|]. by intros e [? _].
Qed.

Lemma taskline_round_trip_witness :
  process_taskline int_decimal
    (format_todo_entry "123456" "TEST-123" "2018-03-12"
       ("first line" +:+ newline +:+ "second: line" +:+ newline)
       (Some ["src/a b.py"; "x,y"; ""]) (Some [3769; 0; -4]%Z) +:+ newline) =
  Ok (("TEST-123", "2018-03-12", ["src/a b.py"; "x,y"; ""], [3769; 0; -4]%Z),
      []).
Proof.
  apply (taskline_round_trip int_decimal "123456" "TEST-123" "2018-03-12").
  - reflexivity.
  - reflexivity.
  - reflexivity.
  - repeat constructor.
  - reflexivity.
  - repeat constructor.
Defined.

Lemma entry_name_no_comma (f : string) :
  contains_char "," f = false → entry_name f = "".
Proof. intros Hf. unfold entry_name. by rewrite (split_none _ _ Hf). Qed.

(** A line written with files but without sizes does not survive the round
    trip: [process_taskline] takes what follows the last comma of an entry
    for its size, so every file name without a comma is read back as the
    empty name. *)
Theorem names_lost_without_sizes (py_int : string → option Z)
    (commit_id issue isodate message : string) (files : list string) :
  contains_char " " commit_id = false →
  contains_char " " issue = false →
  contains_char " " isodate = false →
  files ≠ [] →
  Forall (λ f, contains_char ":" f = false ∧ String.prefix " " f = false ∧
               contains_char "," f = false ∧ f ≠ "") files →
  ∃ sizes log,
    process_taskline py_int
      (format_todo_entry commit_id issue isodate message (Some files) None
         +:+ newline) =
    Ok ((issue, isodate, replicate (length files) "", sizes), log) ∧
    length sizes = length files.
Proof.
  intros Hc Hi Hd Hne Hfiles.
  assert (format_todo_entry commit_id issue isodate message (Some files) None
            +:+ newline =
          commit_id +:+ " " +:+ issue +:+ " " +:+ isodate +:+ " " +:+
          (":" +:+ String.concat ":" files) +:+ ": " +:+
          (replace_char (ascii_of_nat 10) "---" message +:+ newline)) as ->.
  { unfold format_todo_entry. cbn [String.concat].
    rewrite !string_app_assoc. reflexivity. }
  unfold process_taskline. rewrite (split_max_taskline _ _ _ _ Hc Hi Hd).
  rewrite split_once_first; last first.
  { apply split_once_manifest. eapply Forall_impl; [exact Hfiles|].
    by intros f (? & ? & _). }
  rewrite decide_False; last first.
  { rewrite (string_app_cons ":" ""), string_app_nil. intros [= Hjoin].
    destruct files as [|f [|f' files]]; [done| |].
    - apply Forall_cons in Hfiles as [(_ & _ & _ & Hf) _]. done.
    - change (String.concat ":" (f :: f' :: files))
        with (f +:+ ":" +:+ String.concat ":" (f' :: files)) in Hjoin.
      apply string_app_empty in Hjoin as [_ Hjoin].
      rewrite string_app_cons in Hjoin. discriminate. }
  unfold parse_manifest. cbn [fst snd].
  rewrite (string_app_cons ":" ""), string_app_nil, split_cons_sep.
  cbn [tail]. rewrite split_join; [|done|]; last first.
  { eapply Forall_impl; [exact Hfiles|]. by intros f (? & _). }
  assert (entry_name <$> files = replicate (length files) "") as ->.
  { clear Hne. induction Hfiles as [|f files (_ & _ & Hf & _) _ IH]; [done|].
    cbn [fmap list_fmap length replicate].
    by rewrite (entry_name_no_comma f Hf), <- IH. }
  eexists _, _. split; [reflexivity|].
  destruct (mapM _ files) as [sizes|] eqn:Hm; cbn [fst].
  - symmetry. exact (length_mapM _ _ _ Hm).
  - apply length_fmap.
Qed.

Lemma names_lost_without_sizes_witness :
  ∃ sizes log,
    process_taskline int_decimal
      (format_todo_entry "123456" "TEST-123" "2018-03-12" "message"
         (Some ["README.org"; "plot.py"]) None +:+ newline) =
    Ok (("TEST-123", "2018-03-12", [""; ""], sizes), log) ∧
    length sizes = 2.
Proof.
  apply (names_lost_without_sizes int_decimal "123456" "TEST-123" "2018-03-12"
           "message" ["README.org"; "plot.py"]); try reflexivity; [done|].
  repeat constructor; done.
Defined.

(** ** [numtosxg] *)

(** [CHARACTERS] has 60 distinct characters: position [i] holds a
    character whose first occurrence is at [i]. *)
Lemma CHARACTERS_get (i : nat) :
  i < 60 →
  ∃ a, str_index CHARACTERS i = Ok a ∧ char_index a CHARACTERS = i.
Proof.
  intros Hi.
  do 60 (destruct i as [|i]; [eexists; split; reflexivity|]). lia.
Qed.

Lemma numtosxg_loop_value (fuel : nat) (n : Z) (s r : string) :
  (0 ≤ n)%Z → numtosxg_loop fuel n s = Some (Ok r) →
  sxg_value 0 r = sxg_value n s.
Proof.
  revert n s. induction fuel as [|fuel IH]; intros n s Hn; cbn [numtosxg_loop];
    destruct (Z.ltb_spec 0 n) as [Hpos|Hle]; try discriminate;
    try (intros [= <-]; by replace n with 0%Z by lia).
  destruct (CHARACTERS_get (Z.to_nat (n `mod` 60))) as (a & -> & Ha).
  { pose proof (Z.mod_pos_bound n 60). lia. }
  intros Hrun. rewrite (IH _ _ (Z.div_pos n 60 Hn eq_refl) Hrun).
  cbn [sxg_value]. rewrite Ha. f_equal.
  pose proof (Z.mod_pos_bound n 60). pose proof (Z.div_mod n 60). lia.
Qed.

Lemma numtosxg_loop_returns (fuel : nat) (n : Z) (s : string) :
  ((0 < n)%Z → (Z.log2 n < Z.of_nat fuel)%Z) →
  ∃ r, numtosxg_loop fuel n s = Some (Ok r).
Proof.
  revert n s. induction fuel as [|fuel IH]; intros n s Hfuel;
    cbn [numtosxg_loop]; destruct (Z.ltb_spec 0 n) as [Hpos|Hle];
    try by eexists.
  - pose proof (Z.log2_nonneg n). specialize (Hfuel Hpos). lia.
  - destruct (CHARACTERS_get (Z.to_nat (n `mod` 60))) as (a & -> & _).
    { pose proof (Z.mod_pos_bound n 60). lia. }
    apply IH. intros H0. specialize (Hfuel Hpos).
    assert (Z.log2 (2 * (n `div` 60)) ≤ Z.log2 n)%Z as Hle.
    { apply Z.log2_le_mono. pose proof (Z.mod_pos_bound n 60).
      pose proof (Z.div_mod n 60). lia. }
    rewrite Z.log2_double in Hle by lia. lia.
Qed.

(** The value of what [numtosxg] returns for a number that is not
    negative. *)
Lemma numtosxg_value (n : Z) :
  ∃ s, numtosxg n = Some (Ok s) ∧ ((0 ≤ n)%Z → sxg_value 0 s = n) ∧
       ((n < 0)%Z → s = "").
Proof.
  unfold numtosxg. destruct (Z.eqb_spec n 0) as [->|Hn].
  - exists "0". split; [done|]. split; [done|lia].
  - destruct (numtosxg_loop_returns (S (Z.to_nat (Z.log2 n))) n "")
      as [r Hr].
    { intros _. pose proof (Z.log2_nonneg n). lia. }
    exists r. split; [done|]. split.
    + intros H0. by rewrite (numtosxg_loop_value _ _ _ _ H0 Hr).
    + intros Hneg. cbn [numtosxg_loop] in Hr.
      destruct (Z.ltb_spec 0 n); [lia|]. by injection Hr.
Qed.

(** [numtosxg] returns a string for every [int]: the loop ends and no
    index into [CHARACTERS] is out of range.  The string is empty exactly
    for the negative numbers. *)
Theorem numtosxg_returns (n : Z) :
  ∃ s, numtosxg n = Some (Ok s) ∧ (s = "" ↔ (n < 0)%Z).
Proof.
  destruct (numtosxg_value n) as (s & Hs & Hval & Hneg).
  exists s. split; [done|]. split; [|done].
  intros ->. destruct (Z.lt_ge_cases n 0) as [|H0]; [done|].
  specialize (Hval H0). cbn in Hval. subst n.
  cbn in Hs. discriminate.
Qed.

(** Numbers that are not negative and differ are written differently. *)
Theorem numtosxg_injective (n m : Z) :
  (0 ≤ n)%Z → (0 ≤ m)%Z → n ≠ m → numtosxg n ≠ numtosxg m.
Proof.
  intros Hn Hm Hne Heq. apply Hne.
  destruct (numtosxg_value n) as (s & Hs & Hval & _).
  destruct (numtosxg_value m) as (s' & Hs' & Hval' & _).
  rewrite <- (Hval Hn), <- (Hval' Hm). congruence.
Qed.

Lemma numtosxg_injective_witness : numtosxg 59 ≠ numtosxg 3600.
Proof. apply (numtosxg_injective 59 3600); lia. Defined.

(** ** [main] *)



Lemma mapM_Ok_Forall2 {A B : Type} (f : A → result B) (l : list A) (k : list B) :
  mapM f l = Ok k ↔ Forall2 (λ x y, f x = Ok y) l k.
Proof.
  revert k. induction l as [|x l IH]; intros k; cbn.
  - split; [intros [= <-]; constructor|]. by intros ->%Forall2_nil_inv_l.
  - split.
    + intros Hk. apply bind_Ok in Hk as (y & Hy & Hk).
      apply bind_Ok in Hk as (k' & Hk' & [= <-]).
      constructor; [done|]. by apply IH.
    + intros (y & k' & Hy & Hk' & ->)%Forall2_cons_inv_l.
      rewrite Hy. cbn. apply IH in Hk'. rewrite Hk'. reflexivity.
Qed.



Lemma sorted_counts (l : list (string * nat)) :
  NoDup l.*1 → StronglySorted (strict String.le) (sorted count_lt l).*1.
Proof.
  intros Hnd. apply StronglySorted_strict; [apply _| |].
  - apply Sorted_StronglySorted; [apply _|].
    apply (Sorted_fmap fst (λ s t : string * nat, String.le s.1 t.1)); [done|].
    apply Sorted_sorted; intros x y; unfold count_lt; case_decide as Heq.
    + intros _. rewrite Heq. done.
    + apply string_ltb_false.
    + intros _. rewrite Heq. done.
    + intros Hlt. by apply string_ltb_true in Hlt as [? _].
  - by rewrite sorted_Permutation.
Qed.

(** A list of pairs whose keys ascend strictly is left as it is by
    [sorted]. *)
Lemma sorted_total_lt_id (l : list (string * Z)) :
  StronglySorted (strict String.le) l.*1 → sorted total_lt l = l.
Proof.
  intros Hs. apply sorted_id.
  induction l as [|x l IH]; [constructor|].
  cbn in Hs. apply StronglySorted_inv in Hs as [Hs Hx].
  constructor; [by apply IH|].
  apply Forall_forall. intros y Hy.
  destruct (proj1 (Forall_forall _ _) Hx y.1) as [Hle Hnle];
    [apply list_elem_of_fmap; by exists y|].
  unfold total_lt. case_decide as Heq.
  - rewrite Heq in Hnle. by destruct Hnle.
  - destruct (String.ltb y.1 x.1) eqn:Hlt; [|done].
    apply string_ltb_true in Hlt as [? _]. by destruct Hnle.
Qed.

Lemma sum_returns_sorted (changes : list ChangeRecord) :
  ∃ out, sum_filesizes_per_issue changes = Ok out ∧
         StronglySorted (strict String.le) out.*1.
Proof.
  unfold sum_filesizes_per_issue.
  destruct (collect_loop Z.add 0%Z rec_sizes changes)
    as ([idl mapped] & Hrun & Hinv).
  rewrite sum_step_collect, Hrun. cbn [mbind result_bind fst snd].
  destruct (collected_keys _ _ _ _ _ _ Hinv) as (_ & Hl & _).
  destruct (add_dates_keys idl mapped) as (withdate & -> & Hnd & _).
  { intros k Hk. exists (date_of idl k).
    eapply date_of_latest; [exact Hinv|]. by apply Hl. }
  cbn [mbind result_bind]. eexists. split; [done|]. by apply sorted_totals.
Qed.

Lemma aggregate_returns (changes : list ChangeRecord) :
  ∃ out, aggregate_files_per_issue changes = Ok out ∧ NoDup (OD.keys out).
Proof.
  unfold aggregate_files_per_issue.
  destruct (collect_loop (λ (v : gset string) f, {[f]} ∪ v) ∅ rec_files changes)
    as ([idl mapped] & Hrun & Hinv).
  rewrite aggregate_step_collect, Hrun. cbn [mbind result_bind fst snd].
  destruct (collected_keys _ _ _ _ _ _ Hinv) as (_ & Hl & _).
  destruct (add_dates_keys idl (freeze mapped)) as (agg & -> & Hnd & _).
  { intros k Hk. exists (date_of idl k).
    eapply date_of_latest; [exact Hinv|]. apply Hl.
    unfold OD.keys, freeze in Hk. by rewrite <- list_fmap_compose in Hk. }
  by exists agg.
Qed.

(** In the mode [--sum-filesizes-per-issue], when every line that is not
    excluded is accepted, [main] fails nowhere and prints one line
    [key total] for every entry of [sum_filesizes_per_issue] of the parsed
    records, the keys ascending strictly; sorting the list a second time
    (line 260) changes nothing. *)
Theorem main_sum_mode (py_int : string → option Z)
    (todofiles : list (list string)) (exclude_file : option (list string))
    (args : main_args) :
  let excluded : gset string := from_option list_to_set ∅ exclude_file in
  let lines := filter (λ i, i ∉ excluded) (concat todofiles) in
  args_count_files_per_issue args = false →
  args_sum_filesizes_per_issue args = true →
  Forall (λ line, ∃ r, process_taskline py_int line = Ok r) lines →
  ∃ parsed out log,
    Forall2 (λ line r, process_taskline py_int line = Ok r) lines parsed ∧
    sum_filesizes_per_issue parsed.*1 = Ok out ∧
    StronglySorted (strict String.le) out.*1 ∧
    main py_int todofiles exclude_file None args =
      Ok (log, (λ i, (Stdout, i.1 +:+ " " +:+ py_str i.2)) <$> out).
Proof.
  intros excluded lines Hcount Hsum Hlines.
  destruct (mapM_Ok_total (process_taskline py_int) lines) as [parsed Hparsed].
  { rewrite Forall_forall in Hlines. exact Hlines. }
  destruct (sum_returns_sorted parsed.*1) as (out & Hout & Hsorted).
  exists parsed, out. eexists. split; [by apply mapM_Ok_Forall2|].
  split; [done|]. split; [done|].
  unfold main. rewrite Hcount, Hsum.
  replace (match exclude_file with
           | Some lines0 => list_to_set lines0
           | None => ∅
           end) with excluded by by destruct exclude_file.
  fold lines. rewrite Hparsed. cbn [mbind result_bind]. rewrite Hout.
  cbn [mbind result_bind]. by rewrite (sorted_total_lt_id _ Hsorted).
Qed.

Lemma main_sum_mode_witness :
  ∃ parsed out log,
    Forall2 (λ line r, process_taskline int_decimal line = Ok r)
      (filter (λ i, i ∉ (from_option list_to_set ∅ example_exclude_file
                           : gset string))
              (concat example_todofiles)) parsed ∧
    sum_filesizes_per_issue parsed.*1 = Ok out ∧
    StronglySorted (strict String.le) out.*1 ∧
    main int_decimal example_todofiles example_exclude_file None
      (MainArgs false true true) =
      Ok (log, (λ i, (Stdout, i.1 +:+ " " +:+ py_str i.2)) <$> out).
Proof.
  apply (main_sum_mode int_decimal example_todofiles example_exclude_file
           (MainArgs false true true) eq_refl eq_refl).
  match goal with
  | |- Forall _ ?l =>
      let l' := eval vm_compute in l in
      replace l with l' by (vm_compute; reflexivity)
  end.
  repeat constructor; eexists; vm_compute; reflexivity.
Defined.

(** In the mode [--count-files-per-issue], when every line that is not
    excluded is accepted, [main] fails nowhere and prints one line
    [key count] for every entry of the aggregated records, [count] being
    the number of files of the entry, the keys ascending strictly. *)
Theorem main_count_mode (py_int : string → option Z)
    (todofiles : list (list string)) (exclude_file : option (list string))
    (args : main_args) :
  let excluded : gset string := from_option list_to_set ∅ exclude_file in
  let lines := filter (λ i, i ∉ excluded) (concat todofiles) in
  args_count_files_per_issue args = true →
  Forall (λ line, ∃ r, process_taskline py_int line = Ok r) lines →
  ∃ parsed aggregated count log,
    Forall2 (λ line r, process_taskline py_int line = Ok r) lines parsed ∧
    aggregate_files_per_issue parsed.*1 = Ok aggregated ∧
    count ≡ₚ (λ kv, (kv.1, length kv.2)) <$> aggregated ∧
    StronglySorted (strict String.le) count.*1 ∧
    main py_int todofiles exclude_file None args =
      Ok (log, (λ i, (Stdout, i.1 +:+ " " +:+ py_str (Z.of_nat i.2)))
                 <$> count).
Proof.
  intros excluded lines Hcount Hlines.
  destruct (mapM_Ok_total (process_taskline py_int) lines) as [parsed Hparsed].
  { rewrite Forall_forall in Hlines. exact Hlines. }
  destruct (aggregate_returns parsed.*1) as (agg & Hagg & Hnd).
  exists parsed, agg, (sorted count_lt (count_files_per_issue agg)).
  eexists. split; [by apply mapM_Ok_Forall2|].
  split; [done|]. split; [apply sorted_Permutation|]. split.
  - apply sorted_counts. unfold count_files_per_issue.
    by rewrite <- list_fmap_compose.
  - unfold main. rewrite Hcount.
    replace (match exclude_file with
             | Some lines0 => list_to_set lines0
             | None => ∅
             end) with excluded by by destruct exclude_file.
    fold lines. rewrite Hparsed. cbn [mbind result_bind]. rewrite Hagg.
    reflexivity.
Qed.

Lemma main_count_mode_witness :
  ∃ parsed aggregated count log,
    Forall2 (λ line r, process_taskline int_decimal line = Ok r)
      (filter (λ i, i ∉ (from_option list_to_set ∅ example_exclude_file
                           : gset string))
              (concat example_todofiles)) parsed ∧
    aggregate_files_per_issue parsed.*1 = Ok aggregated ∧
    count ≡ₚ (λ kv, (kv.1, length kv.2)) <$> aggregated ∧
    StronglySorted (strict String.le) count.*1 ∧
    main int_decimal example_todofiles example_exclude_file None
      (MainArgs true true true) =
      Ok (log, (λ i, (Stdout, i.1 +:+ " " +:+ py_str (Z.of_nat i.2)))
                 <$> count).
Proof.
  apply (main_count_mode int_decimal example_todofiles example_exclude_file
           (MainArgs true true true) eq_refl).
  match goal with
  | |- Forall _ ?l =>
      let l' := eval vm_compute in l in
      replace l with l' by (vm_compute; reflexivity)
  end.
  repeat constructor; eexists; vm_compute; reflexivity.
Defined.

Lemma filter_none {A : Type} (P : A → Prop) `{∀ x, Decision (P x)}
    (l : list A) :
  (∀ x, ¬ P x) → filter P l = [].
Proof.
  intros HP. induction l as [|x l IH]; [done|].
  rewrite filter_cons. by destruct (decide (P x)) as [?%HP|_].
Qed.

(** When the file named by [--include-issues-file] does not exist, no
    record passes the filter of lines 245-250: the run logs the missing
    file and then prints no entry at all, only the three header lines in
    the mode [--file-connections]. *)
Theorem main_missing_include_file (py_int : string → option Z)
    (todofiles : list (list string)) (exclude_file : option (list string))
    (args : main_args) :
  let excluded : gset string := from_option list_to_set ∅ exclude_file in
  let lines := filter (λ i, i ∉ excluded) (concat todofiles) in
  Forall (λ line, ∃ r, process_taskline py_int line = Ok r) lines →
  ∃ log log',
    main py_int todofiles exclude_file (Some None) args =
      Ok (log ++ IncludeFileNotFound :: log',
          if args_count_files_per_issue args
             || args_sum_filesizes_per_issue args then []
          else if args_file_connections args
               then [(Nodeout, "Id Label"); (Stdout, "------");
                     (Edgeout, "Source Target Weight")]
               else []).
Proof.
  intros excluded lines Hlines.
  destruct (mapM_Ok_total (process_taskline py_int) lines) as [parsed Hparsed].
  { rewrite Forall_forall in Hlines. exact Hlines. }
  unfold main.
  replace (match exclude_file with
           | Some lines0 => list_to_set lines0
           | None => ∅
           end) with excluded by by destruct exclude_file.
  fold lines. rewrite Hparsed. cbn [mbind result_bind].
  rewrite (filter_none (λ i, rec_issue i ∈ (∅ : gset string))) by set_solver.
  destruct (args_count_files_per_issue args); [by eexists _, _|].
  destruct (args_sum_filesizes_per_issue args); [by eexists _, _|].
  destruct (args_file_connections args); [by eexists _, _|].
  exists (match exclude_file with Some _ => [] | None => [ExcludeFileNotFound] end).
  eexists. cbn [orb]. rewrite <- !app_assoc. reflexivity.
Qed.

Lemma main_missing_include_file_witness :
  ∃ log log',
    main int_decimal example_todofiles example_exclude_file (Some None)
      (MainArgs false false true) =
      Ok (log ++ IncludeFileNotFound :: log',
          [(Nodeout, "Id Label"); (Stdout, "------");
           (Edgeout, "Source Target Weight")]).
Proof.
  apply (main_missing_include_file int_decimal example_todofiles
           example_exclude_file (MainArgs false false true)).
  match goal with
  | |- Forall _ ?l =>
      let l' := eval vm_compute in l in
      replace l with l' by (vm_compute; reflexivity)
  end.
  repeat constructor; eexists; vm_compute; reflexivity.
Defined.

(** ** The only exception of [correlate_files_with_each_other] *)

Lemma getitem_raises {K V : Type} `{EqDecision K} (d : list (K * V)) (k : K)
    (e : exn) :
  OD.getitem d k = Raise e → e = KeyError.
Proof. unfold OD.getitem. destruct (OD.get d k); [done|]. by intros [= <-]. Qed.

Lemma mapM_raises {A B : Type} (f : A → result B) (l : list A) (e e0 : exn) :
  (∀ x e', f x = Raise e' → e' = e0) → mapM f l = Raise e → e = e0.
Proof.
  intros Hf. induction l as [|x l IH]; cbn; [done|].
  destruct (f x) as [y|e'] eqn:Hx; cbn.
  - destruct (mapM f l) as [k|e'']; cbn; [done|].
    intros [= <-]. by apply IH.
  - intros [= <-]. by eapply Hf.
Qed.

Lemma for_each_raises {A S : Type} (body : S → A → result S) (l : list A)
    (s : S) (e e0 : exn) :
  (∀ s x e', body s x = Raise e' → e' = e0) →
  for_each body l s = Raise e → e = e0.
Proof.
  intros Hbody. revert s. induction l as [|x l IH]; intros s; cbn; [done|].
  destruct (body s x) as [s'|e'] eqn:Hx; cbn; [apply IH|].
  intros [= <-]. by eapply Hbody.
Qed.

Lemma finalize_step_raises (ew : odict nat (list nat) * odict nat (list nat))
    (k : nat) (e : exn) :
  finalize_step ew k = Raise e → e = KeyError.
Proof.
  unfold finalize_step.
  destruct (OD.getitem ew.1 k) as [v|e1] eqn:Hv; cbn;
    [|intros [= <-]; by eapply getitem_raises].
  destruct (OD.getitem ew.2 k) as [w|e2] eqn:Hw; cbn;
    [|intros [= <-]; by eapply getitem_raises].
  unfold sorted_key.
  destruct (mapM _ w) as [ks|e3] eqn:Hks; cbn; [done|].
  intros [= <-]. eapply mapM_raises; [|exact Hks].
  intros x e'. apply getitem_raises.
Qed.

(** On an input whose file tuples list no file twice, with fewer than 2^32
    issues and fewer than 2^32 listed files, the function raises no
    exception other than the [KeyError] of line 219: no array element
    overflows and no index is out of range. *)
Theorem correlate_raises_only_KeyError
    (aggregated : odict string (list string)) :
  Forall (λ kv, NoDup kv.2) aggregated →
  fits_uint (length aggregated) = true →
  fits_uint (length (concat (retained_issues aggregated))) = true →
  (∃ r, correlate_files_with_each_other aggregated = Ok r) ∨
  correlate_files_with_each_other aggregated = Raise KeyError.
Proof.
  intros Hnodup Hfit HfitU.
  destruct (accumulate_total aggregated Hnodup Hfit HfitU) as [st Hacc].
  unfold correlate_files_with_each_other, finalize. rewrite Hacc.
  cbn [mbind result_bind].
  destruct (for_each finalize_step _ _) as [ew|e] eqn:Hrun; cbn;
    [left; by eexists|right].
  f_equal. eapply for_each_raises; [|exact Hrun].
  intros s x e'. apply finalize_step_raises.
Qed.

Lemma correlate_raises_only_KeyError_witness :
  (∃ r, correlate_files_with_each_other out_of_order_input = Ok r) ∨
  correlate_files_with_each_other out_of_order_input = Raise KeyError.
Proof.
  apply (correlate_raises_only_KeyError out_of_order_input).
  - repeat constructor; set_solver.
  - reflexivity.
  - reflexivity.
Defined.

(** ** Separators of several characters *)

Lemma prefix_app (sep s : string) : String.prefix sep (sep +:+ s) = true.
Proof.
  induction sep as [|a sep IH]; [apply prefix_nil|].
  by rewrite string_app_cons, prefix_cons, Ascii.eqb_refl, IH.
Qed.

Lemma string_drop_app (sep s : string) :
  string_drop (String.length sep) (sep +:+ s) = s.
Proof. induction sep as [|a sep IH]; [by destruct s|exact IH]. Qed.

Lemma prefix_true (sep s : string) :
  String.prefix sep s = true → s = sep +:+ string_drop (String.length sep) s.
Proof.
  revert s. induction sep as [|a sep IH]; intros s; [by destruct s|].
  destruct s as [|b s]; [done|].
  rewrite prefix_cons. intros [Hab Hp]%andb_true_iff.
  apply Ascii.eqb_eq in Hab as ->. rewrite string_app_cons. cbn [String.length string_drop].
  by rewrite <- (IH s Hp).
Qed.

Lemma split_once_unfold (sep : string) (a : ascii) (s : string) :
  split_once sep (String a s) =
  if String.prefix sep (String a s)
  then Some ("", string_drop (String.length sep) (String a s))
  else match split_once sep s with
       | Some (x, y) => Some (String a x, y)
       | None => None
       end.
Proof. reflexivity. Qed.

(** [split_once] finds an occurrence of the separator. *)
Lemma split_once_Some_cut (sep s x y : string) :
  split_once sep s = Some (x, y) → s = x +:+ sep +:+ y.
Proof.
  revert x. induction s as [|a s IH]; intros x.
  - cbn [split_once]. destruct (String.prefix sep "") eqn:Hp; [|done].
    intros [= <- <-]. by apply prefix_true in Hp.
  - rewrite split_once_unfold.
    destruct (String.prefix sep (String a s)) eqn:Hp.
    + intros [= <- <-]. by apply prefix_true in Hp.
    + destruct (split_once sep s) as [[x' y']|]; [|done].
      intros [= <- <-]. by rewrite string_app_cons, <- (IH x' eq_refl).
Qed.

(** A text in which the separator occurs is cut. *)
Lemma split_once_occurs (sep x y : string) :
  is_Some (split_once sep (x +:+ sep +:+ y)).
Proof.
  induction x as [|a x IH].
  - rewrite string_app_nil. destruct (sep +:+ y) as [|b t] eqn:Heq.
    + cbn [split_once]. rewrite <- Heq at 1. rewrite prefix_app. by eexists.
    + rewrite split_once_unfold, <- Heq, prefix_app. by eexists.
  - rewrite string_app_cons, split_once_unfold.
    destruct (String.prefix _ _); [by eexists|].
    destruct IH as [[x' y'] ->]. by eexists.
Qed.

(** The first occurrence of a separator is behind a text that does not
    contain its first character. *)
Lemma split_once_first_char (c : ascii) (sep x y : string) :
  contains_char c x = false →
  split_once (String c sep) (x +:+ String c sep +:+ y) = Some (x, y).
Proof.
  intros Hx. induction x as [|a x IH].
  - rewrite string_app_nil, string_app_cons, split_once_unfold.
    rewrite <- (string_app_cons c sep y), prefix_app, string_drop_app. done.
  - cbn [contains_char] in Hx. apply orb_false_iff in Hx as [Ha Hx].
    rewrite string_app_cons, split_once_unfold, prefix_cons, Ha, (IH Hx).
    reflexivity.
Qed.

Lemma split_once_no_first_char (c : ascii) (sep s : string) :
  contains_char c s = false → split_once (String c sep) s = None.
Proof.
  induction s as [|a s IH]; [done|]. cbn [contains_char].
  intros [Ha Hs]%orb_false_iff.
  by rewrite split_once_unfold, prefix_cons, Ha, (IH Hs).
Qed.

Lemma split_str_fields_skip (sep : string) (k : nat) (s : string) :
  split_str_fields sep k s = split_str_fields sep 0 (string_drop k s).
Proof.
  revert k. induction s as [|a s IH]; intros [|k]; try reflexivity.
  cbn [split_str_fields string_drop]. apply IH.
Qed.

(** [s.split(sep)] cuts at the first occurrence of [sep] and goes on
    behind it. *)
Lemma split_str_unfold (sep s : string) :
  sep ≠ "" →
  split_str sep s =
  match split_once sep s with
  | Some (x, y) => x :: split_str sep y
  | None => [s]
  end.
Proof.
  intros Hsep. unfold split_str. induction s as [|a s IH].
  - cbn [split_once split_str_fields fst snd].
    destruct sep; [done|]. reflexivity.
  - rewrite split_once_unfold. cbn [split_str_fields].
    destruct (String.prefix sep (String a s)) eqn:Hp.
    + cbn [fst snd]. rewrite split_str_fields_skip.
      destruct sep as [|b sep]; [done|].
      replace (String.length (String b sep) - 1) with (String.length sep)
        by (cbn [String.length]; lia).
      reflexivity.
    + cbn [fst snd]. destruct (split_once sep s) as [[x y]|].
      * injection IH as -> ->. reflexivity.
      * injection IH as -> ->. reflexivity.
Qed.

(** ** The title-only reader of [link_commits_to_issues.py] *)

(** [process_taskline] of [link_commits_to_issues.py] raises nothing but
    [ValueError], and it returns exactly for the lines that consist of
    three fields without a space, each followed by one space, and a
    title.  The result has the second field as issue id, the first field
    behind the prefix as address, and a title that begins with the third
    field. *)
Theorem link_process_taskline_accepts (taskline commit_uri_prefix : string) :
  (∃ commit_id issue_id isodate title,
     taskline = commit_id +:+ " " +:+ issue_id +:+ " " +:+ isodate +:+ " "
                  +:+ title ∧
     contains_char " " commit_id = false ∧
     contains_char " " issue_id = false ∧
     contains_char " " isodate = false ∧
     LinkCommits.process_taskline taskline commit_uri_prefix =
       Ok (issue_id, commit_uri_prefix +:+ commit_id,
           isodate +:+ " " +:+ strip (LinkCommits.shorttitle title))) ∨
  (LinkCommits.process_taskline taskline commit_uri_prefix = Raise ValueError ∧
   ¬ ∃ commit_id issue_id isodate title,
       taskline = commit_id +:+ " " +:+ issue_id +:+ " " +:+ isodate +:+ " "
                    +:+ title ∧
       contains_char " " commit_id = false ∧
       contains_char " " issue_id = false ∧
       contains_char " " isodate = false).
Proof.
  assert (∀ c i d t,
            taskline = c +:+ " " +:+ i +:+ " " +:+ d +:+ " " +:+ t ∧
            contains_char " " c = false ∧ contains_char " " i = false ∧
            contains_char " " d = false →
            split_max " " 3 taskline = [c; i; d; t]) as Hshape.
  { intros c i d t (-> & Hc & Hi & Hd). by apply split_max_taskline. }
  unfold LinkCommits.process_taskline.
  destruct (split_max " " 3 taskline)
    as [|c [|i [|d [|title [|more l]]]]] eqn:Hsplit;
    try (right; split; [reflexivity|];
         intros (c' & i' & d' & t' & Hs);
         specialize (Hshape _ _ _ _ Hs); discriminate Hshape).
  destruct (split_max_taskline_inv _ _ _ _ _ Hsplit) as (Ht & Hc & Hi & Hd).
  left. exists c, i, d, title. done.
Qed.

(** Both readers agree: a line that [process_taskline] of
    [correlate_files_per_issue.py] accepts is accepted by the one of
    [link_commits_to_issues.py], with the same issue id and with a title
    that begins with the same date. *)
Theorem readers_agree (py_int : string → option Z)
    (taskline commit_uri_prefix issue_id isodate : string)
    (files : list string) (sizes : list Z) (log : list log_record) :
  process_taskline py_int taskline = Ok ((issue_id, isodate, files, sizes), log) →
  ∃ commit_id title,
    LinkCommits.process_taskline taskline commit_uri_prefix =
      Ok (issue_id, commit_uri_prefix +:+ commit_id,
          isodate +:+ " " +:+ title) ∧
    String.prefix (commit_id +:+ " ") taskline = true.
Proof.
  unfold process_taskline, LinkCommits.process_taskline.
  destruct (split_max " " 3 taskline)
    as [|c [|i [|d [|rest [|more l]]]]] eqn:Hsplit; try discriminate.
  destruct (split_max_taskline_inv _ _ _ _ _ Hsplit) as (-> & _).
  destruct (split_once ": " rest) as [[fs title]|]; [|discriminate].
  intros Hrun. exists c. eexists. split.
  - destruct (decide (fs = ":")); injection Hrun as <- <- _ _ _; reflexivity.
  - rewrite <- string_app_assoc. apply prefix_app.
Qed.

Lemma readers_agree_witness :
  ∃ commit_id title,
    LinkCommits.process_taskline "1 FOO-1 2018-03-12 :A,2:B,8: FOO-1 title"
      "https://host/commit/" =
      Ok ("FOO-1", "https://host/commit/" +:+ commit_id,
          "2018-03-12" +:+ " " +:+ title) ∧
    String.prefix (commit_id +:+ " ")
      "1 FOO-1 2018-03-12 :A,2:B,8: FOO-1 title" = true.
Proof.
  apply (readers_agree int_decimal "1 FOO-1 2018-03-12 :A,2:B,8: FOO-1 title"
           "https://host/commit/" "FOO-1" "2018-03-12" ["A"; "B"] [2; 8]%Z []).
  vm_compute. reflexivity.
Defined.

(** ** [host_from_jira_server] *)

Lemma prefix_slashes (s : string) :
  String.prefix "//" s =
  match s with
  | String a (String b _) => Ascii.eqb a "/" && Ascii.eqb b "/"
  | _ => false
  end.
Proof.
  destruct s as [|a [|b s]]; [done| |].
  - rewrite prefix_cons. cbn. by rewrite andb_false_r.
  - by rewrite !prefix_cons, prefix_nil, andb_true_r.
Qed.

(** ["://"] does not occur in a text without a slash. *)
Lemma split_once_no_slash (s : string) :
  contains_char "/" s = false → split_once "://" s = None.
Proof.
  induction s as [|a s IH]; [done|]. cbn [contains_char].
  intros [Ha Hs]%orb_false_iff.
  rewrite split_once_unfold, prefix_cons, prefix_slashes, (IH Hs).
  destruct s as [|b s]; [by rewrite andb_false_r|].
  cbn [contains_char] in Hs. apply orb_false_iff in Hs as [-> _].
  destruct s; by rewrite andb_false_r.
Qed.

(** In a host name without a slash that is followed by a single slash,
    ["://"] does not occur before the slash. *)
Lemma split_once_behind_host (host r x y : string) :
  contains_char "/" host = false → String.prefix "/" r = false →
  split_once "://" (host +:+ String "/" r) = Some (x, y) →
  ∃ x', x = host +:+ String "/" x'.
Proof.
  intros Hhost Hr. revert x.
  induction host as [|a host IH]; intros x.
  - rewrite string_app_nil, split_once_unfold, prefix_cons.
    cbn [Ascii.eqb andb]. change (Ascii.eqb "/" ":") with false. cbn [andb].
    destruct (split_once "://" r) as [[x' y']|]; [|done].
    intros [= <- <-]. by exists x'.
  - cbn [contains_char] in Hhost. apply orb_false_iff in Hhost as [Ha Hhost].
    rewrite string_app_cons, split_once_unfold, prefix_cons, prefix_slashes.
    replace (match host +:+ String "/" r with
             | String a0 (String b _) => Ascii.eqb a0 "/" && Ascii.eqb b "/"
             | _ => false
             end) with false; last first.
    { destruct host as [|b host].
      - rewrite string_app_nil. destruct r as [|c r]; [done|].
        rewrite prefix_cons, prefix_nil, andb_true_r in Hr. by rewrite Hr.
      - rewrite string_app_cons. cbn [contains_char] in Hhost.
        apply orb_false_iff in Hhost as [-> _].
        by destruct (host +:+ String "/" r). }
    rewrite andb_false_r.
    destruct (split_once "://" (host +:+ String "/" r)) as [[x' y']|] eqn:Hs;
      [|done].
    intros [= <- <-]. destruct (IH Hhost x' eq_refl) as [x'' ->].
    exists x''. by rewrite string_app_cons.
Qed.

(** [host_from_jira_server] raises [IndexError] exactly for an address
    without ["://"]; it raises nothing else. *)
Theorem host_from_jira_server_IndexError (prefix : string) :
  (host_from_jira_server prefix = Raise IndexError ↔
   ¬ ∃ x y, prefix = x +:+ "://" +:+ y) ∧
  (∀ e, host_from_jira_server prefix = Raise e → e = IndexError).
Proof.
  unfold host_from_jira_server. rewrite split_str_unfold by done.
  destruct (split_once "://" prefix) as [[x y]|] eqn:Hs.
  - rewrite (split_str_unfold "://" y) by done.
    assert (∀ field more,
              list_index (x :: field :: more) 1 ≫=
                (λ rest, list_index (split "/" rest) 0) =
              Ok (split_fields "/" field).1) as Hfield by done.
    split; [split|].
    + destruct (split_once "://" y) as [[? ?]|]; by rewrite Hfield.
    + intros Hno. destruct Hno. exists x, y. by apply split_once_Some_cut.
    + intros e. destruct (split_once "://" y) as [[? ?]|]; by rewrite Hfield.
  - split; [split; [|done]|by intros e [= <-]].
    intros _ (x & y & ->).
    destruct (split_once_occurs "://" x y) as [? Hsome]. congruence.
Qed.

(** For an address made of a scheme without a colon, ["://"], a host name
    without a slash and, if anything follows, a single slash and a path,
    [host_from_jira_server] returns the host name (with its port, if it
    has one). *)
Theorem host_from_jira_server_host (scheme host rest : string) :
  contains_char ":" scheme = false →
  contains_char "/" host = false →
  rest = "" ∨ (∃ r, rest = String "/" r ∧ String.prefix "/" r = false) →
  host_from_jira_server (scheme +:+ "://" +:+ host +:+ rest) = Ok host.
Proof.
  intros Hscheme Hhost Hrest.
  unfold host_from_jira_server. rewrite split_str_unfold by done.
  rewrite (split_once_first_char ":" "//" _ _ Hscheme).
  rewrite split_str_unfold by done.
  destruct Hrest as [->|(r & -> & Hr)].
  - replace (host +:+ "") with host
      by (clear; induction host as [|a h IH]; [done|];
          by rewrite string_app_cons, <- IH).
    rewrite (split_once_no_slash _ Hhost).
    cbn. unfold split. cbn. by rewrite split_fields_none.
  - destruct (split_once "://" (host +:+ String "/" r)) as [[x y]|] eqn:Hs.
    + destruct (split_once_behind_host _ _ _ _ Hhost Hr Hs) as [x' ->].
      cbn. unfold split. cbn. rewrite split_fields_app. cbn.
      by rewrite split_fields_none.
    + cbn. unfold split. cbn. rewrite split_fields_app. cbn.
      by rewrite split_fields_none.
Qed.

Lemma host_from_jira_server_host_witness :
  host_from_jira_server
    ("https" +:+ "://" +:+ "jira.HOST.TLD:8443" +:+ "/rest/api/2/") =
  Ok "jira.HOST.TLD:8443".
Proof.
  apply (host_from_jira_server_host "https" "jira.HOST.TLD:8443"
           "/rest/api/2/"); [reflexivity|reflexivity|].
  right. by exists "rest/api/2/".
Defined.

(** ** [get_commit_id_and_issue_from_todo_line] *)

Lemma split_words_fields_word (w rest : string) :
  string_forallb (λ a, negb (is_bytes_space a)) w = true →
  split_words_fields (w +:+ String " " rest) = (w, split_words rest).
Proof.
  induction w as [|a w IH]; intros Hw.
  - rewrite string_app_nil. reflexivity.
  - cbn [string_forallb] in Hw. apply andb_true_iff in Hw as [Ha Hw].
    rewrite string_app_cons. cbn [split_words_fields]. rewrite (IH Hw).
    by rewrite (negb_true_iff _) in Ha; rewrite Ha.
Qed.

Lemma split_words_word (w rest : string) :
  is_word w = true →
  split_words (w +:+ String " " rest) = w :: split_words rest.
Proof.
  intros [Hne Hw]%andb_true_iff. unfold split_words at 1.
  rewrite (split_words_fields_word _ _ Hw). cbn [fst snd].
  by destruct w.
Qed.

(** The key under which an entry is remembered as written: from a line
    that [format_todo_entry] has written (with the newline that [main]
    appends), whichever of its three forms it has,
    [get_commit_id_and_issue_from_todo_line] returns the commit id and the
    issue the line was written from, provided that both are words. *)
Theorem written_line_key (commit_id issue isodate message : string)
    (files : option (list string)) (sizes : option (list Z)) :
  is_word commit_id = true → is_word issue = true →
  get_commit_id_and_issue_from_todo_line
    (format_todo_entry commit_id issue isodate message files sizes
       +:+ newline) =
  Some (commit_id, issue).
Proof.
  intros Hc Hi.
  assert (∃ rest, format_todo_entry commit_id issue isodate message files sizes
                    +:+ newline =
                  commit_id +:+ String " " (issue +:+ String " " rest))
    as [rest ->].
  { unfold format_todo_entry.
    destruct files as [files|]; [destruct sizes as [sizes|]|];
      cbn [String.concat]; rewrite !string_app_assoc; eexists; reflexivity. }
  unfold get_commit_id_and_issue_from_todo_line.
  by rewrite (split_words_word _ _ Hc), (split_words_word _ _ Hi).
Qed.

Lemma written_line_key_witness :
  get_commit_id_and_issue_from_todo_line
    (format_todo_entry "123456" "TEST-123" "2018-03-12"
       ("first line" +:+ newline) (Some ["a b.py"; "MOO"]) (Some [3769; 423]%Z)
       +:+ newline) =
  Some ("123456", "TEST-123").
Proof.
  apply (written_line_key "123456" "TEST-123"); reflexivity.
Defined.


(** ** The recovery from a malformed size *)

(** The entries of a manifest are read as the names and size texts they
    were written from. *)
Lemma manifest_entries (names texts : list string) :
  length texts = length names →
  Forall (λ t, contains_char "," t = false ∧ contains_char ":" t = false)
         texts →
  let entries := zip_with (λ f t, f +:+ "," +:+ t) names texts in
  entry_name <$> entries = names ∧
  entry_size_text <$> entries = texts ∧
  (Forall (λ f, contains_char ":" f = false ∧ String.prefix " " f = false)
          names →
   Forall (λ e, contains_char ":" e = false ∧ String.prefix " " e = false)
          entries) ∧
  (names ≠ [] → String.concat ":" entries ≠ "").
Proof.
  revert texts. induction names as [|f names IH]; intros [|t texts] Hlen Ht;
    try discriminate Hlen.
  - repeat split; done.
  - injection Hlen as Hlen. apply Forall_cons in Ht as [[Hcomma Hcolon] Ht].
    destruct (IH texts Hlen Ht) as (Hn & Hs & Hf & _).
    destruct (entry_parts f t Hcomma) as [Hsz Hname].
    cbn [zip_with fmap list_fmap].
    split; [|split; [|split]].
    + rewrite Hname. f_equal. exact Hn.
    + rewrite Hsz. f_equal. exact Hs.
    + intros Hnames. apply Forall_cons in Hnames as [[Hc Hp] Hnames].
      constructor; [|by apply Hf]. split.
      * by rewrite !contains_char_app, Hc, Hcolon.
      * rewrite (string_app_cons "," ""), string_app_nil.
        by apply prefix_space_app.
    + intros _ Hempty.
      destruct (zip_with (λ f0 t0, f0 +:+ "," +:+ t0) names texts) as [|e es].
      * cbn [String.concat] in Hempty.
        apply string_app_empty in Hempty as [_ Hempty].
        rewrite string_app_cons in Hempty. discriminate.
      * change (String.concat ":" ((f +:+ "," +:+ t) :: e :: es))
          with ((f +:+ "," +:+ t) +:+ ":" +:+ String.concat ":" (e :: es))
          in Hempty.
        apply string_app_empty in Hempty as [Hempty _].
        apply string_app_empty in Hempty as [_ Hempty].
        rewrite string_app_cons in Hempty. discriminate.
Qed.

(** C6 as stated fails: the line that lists the one file [a:b] has a size
    component that is not an integer, and it is read as the two files [""]
    and [b], not as the file it lists. *)
Lemma stray_colon_not_recovered :
  stray_colon_line =
    manifest_line "1" "FOO-1" "2018-03-12" ["a:b"] ["5"] "FOO-1 title" ∧
  process_taskline int_decimal stray_colon_line =
    Ok (("FOO-1", "2018-03-12", [""; "b"], [0; 0]%Z),
        [Warning stray_colon_line]) ∧
  ¬ recovers_listed_files int_decimal.
Proof.
  split; [reflexivity|]. split; [vm_compute; reflexivity|].
  intros Hclaim.
  specialize (Hclaim "1" "FOO-1" "2018-03-12" ["a:b"] ["5"] "FOO-1 title"
                eq_refl eq_refl eq_refl eq_refl).
  assert (process_taskline int_decimal
            (manifest_line "1" "FOO-1" "2018-03-12" ["a:b"] ["5"] "FOO-1 title")
          = Ok (("FOO-1", "2018-03-12", ["a:b"], [0]%Z),
                [Warning (manifest_line "1" "FOO-1" "2018-03-12" ["a:b"] ["5"]
                            "FOO-1 title")])) as Hrun.
  { apply Hclaim.
    - repeat constructor.
    - apply Exists_cons_hd. reflexivity. }
  vm_compute in Hrun. discriminate Hrun.
Qed.

(** C6 (amended): when a size component of the manifest is not an
    integer, the line is not failed.  If the manifest lists files whose
    names have no colon and no leading space, with size texts that have no
    comma and no colon, the record holds the second and third field as
    issue id and date, the listed names as files and a size 0 for each,
    and one warning about the line is logged.  In general the record
    holds, with the same issue id, date, sizes and warning, one file for
    every entry of the manifest, named by what precedes the last comma of
    the entry. *)
Theorem malformed_size_recovery (py_int : string → option Z) :
  (∀ commit_id issue_id isodate names texts title,
     contains_char " " commit_id = false →
     contains_char " " issue_id = false →
     contains_char " " isodate = false →
     length texts = length names →
     Forall (λ f, contains_char ":" f = false ∧ String.prefix " " f = false)
            names →
     Forall (λ t, contains_char "," t = false ∧ contains_char ":" t = false)
            texts →
     Exists (λ t, py_int t = None) texts →
     let taskline :=
       manifest_line commit_id issue_id isodate names texts title in
     process_taskline py_int taskline =
       Ok ((issue_id, isodate, names, replicate (length names) 0%Z),
           [Warning taskline])) ∧
  (∀ commit_id issue_id isodate files_string title,
     contains_char " " commit_id = false →
     contains_char " " issue_id = false →
     contains_char " " isodate = false →
     split_once ": " files_string = None →
     files_string ≠ ":" →
     Exists (λ f, py_int (entry_size_text f) = None)
            (tail (split ":" files_string)) →
     let taskline := commit_id +:+ " " +:+ issue_id +:+ " " +:+ isodate
                       +:+ " " +:+ files_string +:+ ": " +:+ title in
     let files := entry_name <$> tail (split ":" files_string) in
     process_taskline py_int taskline =
       Ok ((issue_id, isodate, files, replicate (length files) 0%Z),
           [Warning taskline])).
Proof.
  assert (∀ commit_id issue_id isodate files_string title,
     contains_char " " commit_id = false →
     contains_char " " issue_id = false →
     contains_char " " isodate = false →
     split_once ": " files_string = None →
     files_string ≠ ":" →
     Exists (λ f, py_int (entry_size_text f) = None)
            (tail (split ":" files_string)) →
     process_taskline py_int
       (commit_id +:+ " " +:+ issue_id +:+ " " +:+ isodate +:+ " "
          +:+ files_string +:+ ": " +:+ title) =
       Ok ((issue_id, isodate, entry_name <$> tail (split ":" files_string),
            replicate (length (entry_name <$> tail (split ":" files_string)))
                      0%Z),
           [Warning (commit_id +:+ " " +:+ issue_id +:+ " " +:+ isodate
                       +:+ " " +:+ files_string +:+ ": " +:+ title)]))
    as Hgeneral.
  { intros c i d fs title Hc Hi Hd Hfs Hne Hbad. unfold process_taskline.
    rewrite (split_max_taskline _ _ _ _ Hc Hi Hd), (split_once_first _ _ Hfs).
    rewrite decide_False by exact Hne.
    unfold parse_manifest. rewrite (mapM_None_2 _ _ Hbad). cbn [fst snd].
    rewrite length_fmap. do 3 f_equal. clear.
    induction (tail _); cbn; congruence. }
  split; [|exact Hgeneral].
  intros c i d names texts title Hc Hi Hd Hlen Hnames Htexts Hbad taskline.
  destruct (manifest_entries names texts Hlen Htexts) as (Hn & Hs & He & Hne).
  assert (names ≠ []) as Hnonempty.
  { intros ->. destruct texts; [|discriminate Hlen]. by inversion Hbad. }
  assert (tail (split ":" (manifest_of names texts)) =
          zip_with (λ f t, f +:+ "," +:+ t) names texts) as Htail.
  { unfold manifest_of.
    rewrite (string_app_cons ":" ""), string_app_nil, split_cons_sep.
    cbn [tail]. apply split_join.
    - intros Hnil. apply (Hne Hnonempty). by rewrite Hnil.
    - eapply Forall_impl; [exact (He Hnames)|]. by intros e [? _]. }
  unfold taskline, manifest_line.
  rewrite (Hgeneral c i d (manifest_of names texts) title Hc Hi Hd).
  - by rewrite Htail, Hn.
  - apply split_once_manifest. exact (He Hnames).
  - unfold manifest_of. rewrite (string_app_cons ":" ""), string_app_nil.
    intros [= Hjoin]. by apply (Hne Hnonempty).
  - rewrite Htail.
    apply (proj1 (Exists_fmap entry_size_text (λ t, py_int t = None) _)).
    by rewrite Hs.
Qed.

Lemma malformed_size_recovery_witness :
  process_taskline int_decimal
    (manifest_line "1" "FOO-1" "2018-03-12" ["src/a b.py"; "x,y"] ["12"; "8x"]
       "FOO-1 title") =
    Ok (("FOO-1", "2018-03-12", ["src/a b.py"; "x,y"], [0; 0]%Z),
        [Warning (manifest_line "1" "FOO-1" "2018-03-12"
                    ["src/a b.py"; "x,y"] ["12"; "8x"] "FOO-1 title")]) ∧
  process_taskline int_decimal
    ("1" +:+ " " +:+ "FOO-1" +:+ " " +:+ "2018-03-12" +:+ " " +:+ ":a:b,5"
       +:+ ": " +:+ "FOO-1 title") =
    Ok (("FOO-1", "2018-03-12", [""; "b"], [0; 0]%Z),
        [Warning ("1" +:+ " " +:+ "FOO-1" +:+ " " +:+ "2018-03-12" +:+ " "
                    +:+ ":a:b,5" +:+ ": " +:+ "FOO-1 title")]).
Proof.
  split.
  - refine (proj1 (malformed_size_recovery int_decimal) "1" "FOO-1"
              "2018-03-12" ["src/a b.py"; "x,y"] ["12"; "8x"] "FOO-1 title"
              eq_refl eq_refl eq_refl eq_refl _ _ _).
    + repeat constructor.
    + repeat constructor.
    + apply Exists_cons_tl, Exists_cons_hd. reflexivity.
  - refine (proj2 (malformed_size_recovery int_decimal) "1" "FOO-1"
              "2018-03-12" ":a:b,5" "FOO-1 title"
              eq_refl eq_refl eq_refl eq_refl _ _).
    + discriminate.
    + apply Exists_cons_hd. reflexivity.
Defined.

(** ** [assemble_repoinfo] *)

(** Every continuation range begins at 128 or above. *)
Lemma utf8_lead_ranges (n : nat) (need : list (nat * nat)) :
  utf8_lead n = Some need → Forall (λ r, 128 ≤ r.1) need.
Proof.
  unfold utf8_lead. repeat case_match; intros [= <-]; repeat constructor.
Qed.

(** A byte below 128 ends the character before it and begins anew: the
    text around it is well formed exactly when both sides are. *)
Lemma utf8_valid_cut (need : list (nat * nat)) (x y : string) (a : ascii) :
  Forall (λ r, 128 ≤ r.1) need → nat_of_ascii a < 128 →
  utf8_valid_from need (x +:+ String a y) =
  utf8_valid_from need x && utf8_valid_from [] y.
Proof.
  intros Hneed Ha. revert need Hneed.
  induction x as [|b x IH]; intros need Hneed.
  - rewrite string_app_nil. cbn [utf8_valid_from].
    destruct need as [|r need].
    + unfold utf8_lead. by rewrite (proj2 (Nat.ltb_lt _ _) Ha).
    + apply Forall_cons in Hneed as [Hr _].
      replace (r.1 <=? nat_of_ascii a) with false; [done|].
      symmetry. apply Nat.leb_gt. lia.
  - rewrite string_app_cons. cbn [utf8_valid_from].
    destruct need as [|r need].
    + destruct (utf8_lead (nat_of_ascii b)) as [need'|] eqn:Hlead; [|done].
      apply IH. by eapply utf8_lead_ranges.
    + apply Forall_cons in Hneed as [_ Hneed].
      rewrite (IH need Hneed). by rewrite andb_assoc.
Qed.

Lemma utf8_valid_prefix (rest : string) :
  utf8_valid ("https://" +:+ rest +:+ "/commit/") = utf8_valid rest.
Proof.
  change ("https://" +:+ rest +:+ "/commit/")
    with ("https:/" +:+ String "/" (rest +:+ String "/" "commit/")).
  unfold utf8_valid.
  rewrite (utf8_valid_cut [] "https:/" _ "/");
    [|apply Forall_nil_2|apply Nat.ltb_lt; reflexivity].
  rewrite (utf8_valid_cut [] rest _ "/");
    [|apply Forall_nil_2|apply Nat.ltb_lt; reflexivity].
  change (utf8_valid_from [] "https:/") with true.
  change (utf8_valid_from [] "commit/") with true.
  by rewrite andb_true_r.
Qed.

(** What follows a byte below 128 in a well-formed text is well formed. *)
Lemma utf8_valid_behind (sep x y : string) (a : ascii) :
  nat_of_ascii a < 128 →
  utf8_valid (x +:+ sep +:+ String a y) = true → utf8_valid y = true.
Proof.
  intros Ha. rewrite <- string_app_assoc. unfold utf8_valid.
  rewrite (utf8_valid_cut [] _ _ a); [|apply Forall_nil_2|done].
  by intros [_ ?]%andb_true_iff.
Qed.

(** [assemble_repoinfo] raises nothing but [ValueError].  It raises it
    for every address without ["//"] (as the [ssh] short form
    [git@host:path]); what it returns is well-formed UTF-8 and comes from
    an address with ["//"]; for an address that is well-formed UTF-8, it
    raises exactly when the address has no ["//"]. *)
Theorem assemble_repoinfo_ValueError (url : string) :
  (∀ e, assemble_repoinfo url = Raise e → e = ValueError) ∧
  ((¬ ∃ x y, url = x +:+ "//" +:+ y) →
   assemble_repoinfo url = Raise ValueError) ∧
  (∀ r, assemble_repoinfo url = Ok r →
        utf8_valid r = true ∧ ∃ x y, url = x +:+ "//" +:+ y) ∧
  (utf8_valid url = true →
   (assemble_repoinfo url = Raise ValueError ↔
    ¬ ∃ x y, url = x +:+ "//" +:+ y)).
Proof.
  unfold assemble_repoinfo.
  destruct (split_once "//" url) as [[x y]|] eqn:Hs.
  - pose proof (split_once_Some_cut _ _ _ _ Hs) as Hurl.
    set (rest := match split_once "@" y with
                 | Some (_, r) => r
                 | None => y
                 end).
    split; [|split; [|split]].
    + intros e. destruct (utf8_valid _); [done|]. by intros [= <-].
    + intros Hno. destruct Hno. by exists x, y.
    + intros r. destruct (utf8_valid _) eqn:Hv; [|done].
      intros [= <-]. split; [done|]. by exists x, y.
    + intros Hvalid.
      assert (utf8_valid y = true) as Hy.
      { subst url. change ("//" +:+ y) with ("/" +:+ String "/" y) in Hvalid.
        by apply (utf8_valid_behind "/" x y "/") in Hvalid; [|apply Nat.ltb_lt; reflexivity]. }
      assert (utf8_valid rest = true) as Hrest.
      { unfold rest. destruct (split_once "@" y) as [[u r]|] eqn:Hat; [|done].
        apply split_once_Some_cut in Hat. subst y.
        change (u +:+ "@" +:+ r) with (u +:+ "" +:+ String "@" r) in Hy.
        by apply (utf8_valid_behind "" u r "@") in Hy; [|apply Nat.ltb_lt; reflexivity]. }
      rewrite utf8_valid_prefix, Hrest. split; [done|].
      intros Hno. destruct Hno. by exists x, y.
  - split; [by intros e [= <-]|]. split; [done|]. split; [done|].
    intros _. split; [|done]. intros _ (x & y & ->).
    destruct (split_once_occurs "//" x y) as [? Hsome]. congruence.
Qed.

(** For an address made of a scheme without a slash, ["//"], possibly a
    user name without ["@"] followed by ["@"], and a host with a path in
    which no ["@"] occurs: when host and path are well-formed UTF-8 the
    prefix of the commit addresses is ["https://"], the host with the
    path, and ["/commit/"], the user name being dropped; otherwise
    [decode] raises. *)
Theorem assemble_repoinfo_prefix (scheme user hostpath : string) :
  contains_char "/" scheme = false →
  contains_char "@" user = false →
  contains_char "@" hostpath = false →
  let expected :=
    if utf8_valid hostpath then Ok ("https://" +:+ hostpath +:+ "/commit/")
    else Raise ValueError in
  assemble_repoinfo (scheme +:+ "//" +:+ hostpath) = expected ∧
  assemble_repoinfo (scheme +:+ "//" +:+ user +:+ "@" +:+ hostpath) = expected.
Proof.
  intros Hscheme Huser Hhost expected. unfold assemble_repoinfo.
  rewrite !(split_once_first_char "/" "/" _ _ Hscheme).
  rewrite (split_once_no_first_char "@" "" _ Hhost).
  rewrite (split_once_first_char "@" "" _ _ Huser).
  by rewrite utf8_valid_prefix.
Qed.

Lemma assemble_repoinfo_prefix_witness :
  assemble_repoinfo ("https:" +:+ "//" +:+ "github.com/org/repo") =
    Ok ("https://" +:+ "github.com/org/repo" +:+ "/commit/") ∧
  assemble_repoinfo
    ("https:" +:+ "//" +:+ "user" +:+ "@" +:+ "github.com/org/repo") =
    Ok ("https://" +:+ "github.com/org/repo" +:+ "/commit/").
Proof.
  apply (assemble_repoinfo_prefix "https:" "user" "github.com/org/repo");
    reflexivity.
Defined.
